(** * Remote session gateway: credential stores and connection gateway

    A shallow embedding of
      - electron/remote/rotating-token-store.ts   (AccessTokenStore)
      - electron/remote/refresh-session-store.ts  (RefreshSessionStore)
      - electron/remote/server.ts                 (ConnectionGateway, BroadcastHub)
    together with the properties the gateway specification states about
    them. *)

From Stdlib Require Import ZArith List String Ascii Bool Arith Lia.
From Stdlib Require Import Decimal DecimalNat DecimalString.
Import ListNotations.

Open Scope string_scope.
Open Scope list_scope.
Open Scope Z_scope.

(** ** The JavaScript runtime seams

    Both stores take a clock [now] and a token generator [issueToken]
    (by default [Date.now] and [randomBytes(24).toString('base64url')]).
    Either may return something different at every call, so the world
    carries the whole sequence of clock readings and of generated
    tokens, and counts how many of each have been consumed. *)

Record World := mkWorld {
  clock : nat -> Z;        (* the i-th result of now() *)
  ticks : nat;             (* number of now() calls made so far *)
  entropy : nat -> string; (* the i-th result of issueToken() *)
  draws : nat              (* number of issueToken() calls made so far *)
}.

Definition tick (w : World) : World :=
  mkWorld (clock w) (S (ticks w)) (entropy w) (draws w).

Definition draw (w : World) : World :=
  mkWorld (clock w) (ticks w) (entropy w) (S (draws w)).

(** A small state monad: every function of the sources closes over
    mutable variables, which become the state that is threaded here. *)

Definition State (S A : Type) : Type := S -> A * S.

Definition ret {S A} (a : A) : State S A := fun s => (a, s).

Definition bind {S A B} (m : State S A) (k : A -> State S B) : State S B :=
  fun s => let (a, s') := m s in k a s'.

Definition gets {S A} (f : S -> A) : State S A := fun s => (f s, s).

Definition modify {S} (f : S -> S) : State S unit := fun s => (tt, f s).

Definition when {S} (b : bool) (m : State S unit) : State S unit :=
  if b then m else ret tt.

Declare Scope state_scope.
Delimit Scope state_scope with state.
Notation "x <- m ;; k" := (bind m (fun x => k))
  (at level 61, m at next level, right associativity) : state_scope.
Notation "m ;;; k" := (bind m (fun _ => k))
  (at level 61, right associativity) : state_scope.
Open Scope state_scope.

Class HasWorld (S : Type) := {
  the_world : S -> World;
  with_world : World -> S -> S
}.

(** [now()] *)
Definition now {S} `{HasWorld S} : State S Z :=
  fun s => let w := the_world s in (clock w (ticks w), with_world (tick w) s).

(** [issueToken()] *)
Definition issueToken {S} `{HasWorld S} : State S string :=
  fun s => let w := the_world s in (entropy w (draws w), with_world (draw w) s).

(** The seams as the repository's tests inject them: a clock that the
    test sets, and [issueToken: () => `${prefix}${idx++}`]. *)
Definition numbered (prefix : string) (idx : nat) : string :=
  (prefix ++ NilEmpty.string_of_uint (Nat.to_uint idx))%string.

Definition test_world (clk : nat -> Z) (prefix : string) : World :=
  mkWorld clk 0 (numbered prefix) 0.

(** The generator never repeats itself and never yields the empty
    string (24 random bytes in base64url are 32 characters). *)
Definition fresh_source (w : World) : Prop :=
  (forall i j, entropy w i = entropy w j -> i = j) /\
  (forall i, entropy w i <> "").

(** ** Buffers and arrays *)

(** A [Buffer] is the byte sequence of the token; Rocq strings are byte
    strings, so [Buffer.from] keeps the bytes. *)
Definition Buffer := string.
Definition Buffer_from (s : string) : Buffer := s.

(** [crypto.timingSafeEqual] on two buffers of the same length. *)
Definition timingSafeEqual (a b : Buffer) : bool := String.eqb a b.

(** [candidateBuf.length === tokenBuf.length && timingSafeEqual(...)] *)
Definition sameBuf (a b : Buffer) : bool :=
  Nat.eqb (String.length a) (String.length b) && timingSafeEqual a b.

(** [!candidate] for [candidate : string | null | undefined] *)
Definition falsy (candidate : option string) : bool :=
  match candidate with
  | None => true
  | Some c => String.eqb c ""
  end.

Definition str (candidate : option string) : string :=
  match candidate with Some c => c | None => "" end.

(** [arr.splice(i, 1)] *)
Fixpoint splice_out {A} (i : nat) (l : list A) : list A :=
  match l, i with
  | [], _ => []
  | _ :: tl, O => tl
  | x :: tl, S j => x :: splice_out j tl
  end.

(** [arr.splice(0, deleteCount)] *)
Definition splice_front {A} (deleteCount : Z) (l : list A) : list A :=
  skipn (Z.to_nat deleteCount) l.

(** The pruning loop of both stores:
    [for (let i = arr.length - 1; i >= 0; i--)
       if (dead(arr[i])) arr.splice(i, 1);]
    [prune_down dead n arr] runs the iterations i = n-1, ..., 0. *)
Fixpoint prune_down {A} (dead : A -> bool) (n : nat) (arr : list A) : list A :=
  match n with
  | O => arr
  | S i =>
      prune_down dead i
        (match nth_error arr i with
         | Some e => if dead e then splice_out i arr else arr
         | None => arr
         end)
  end.

(** [if (arr.length > cap) arr.splice(0, arr.length - cap);] *)
Definition cap_oldest {A} (cap : Z) (arr : list A) : list A :=
  if Z.of_nat (List.length arr) >? cap
  then splice_front (Z.of_nat (List.length arr) - cap) arr
  else arr.

(** The most recent [cap] elements of an array in insertion order:
    what [cap_oldest] leaves. *)
Definition survivors {A} (cap : Z) (all : list A) : list A :=
  skipn (List.length all - Z.to_nat cap) all.

(** ** rotating-token-store.ts *)

Module RotatingTokenStore.

Record CurrentToken := mkCurrent {
  token : string;
  tokenBuf : Buffer;
  expiresAt : Z
}.

Record PreviousToken := mkPrevious {
  prevBuf : Buffer;
  prevExpiresAt : Z
}.

Record Options := mkOptions {
  tokenTtlMs : Z;
  previousTokenTtlMs : Z;
  maxPreviousTokens : Z
}.

(** The variables the closure of [createRotatingTokenStore] captures. *)
Record Store := mkStore {
  world : World;
  current : CurrentToken;
  previous : list PreviousToken
}.

#[export] Instance Store_world : HasWorld Store := {
  the_world := world;
  with_world w s := mkStore w (current s) (previous s)
}.

Definition set_current (c : CurrentToken) (s : Store) : Store :=
  mkStore (world s) c (previous s).

Definition set_previous (p : list PreviousToken) (s : Store) : Store :=
  mkStore (world s) (current s) p.

Section WithOptions.
Variable options : Options.

Definition issueCurrent {S} `{HasWorld S} : State S CurrentToken :=
  tok <- issueToken ;;
  n <- now ;;
  ret (mkCurrent tok (Buffer_from tok) (n + tokenTtlMs options)).

Definition accepts (candidate : option string) : State Store bool :=
  if falsy candidate then ret false else
  let candidateBuf := Buffer_from (str candidate) in
  nowMs <- now ;;
  cur <- gets current ;;
  if (nowMs <=? expiresAt cur) && sameBuf candidateBuf (tokenBuf cur)
  then ret true
  else
    prev <- gets previous ;;
    ret (existsb (fun p => (nowMs <=? prevExpiresAt p)
                           && sameBuf candidateBuf (prevBuf p)) prev).

Definition rotate : State Store unit :=
  cur <- gets current ;;
  n <- now ;;
  modify (fun s => set_previous
            (previous s ++ [mkPrevious (tokenBuf cur) (n + previousTokenTtlMs options)]) s) ;;;
  modify (fun s => set_previous (cap_oldest (maxPreviousTokens options) (previous s)) s) ;;;
  c <- issueCurrent ;;
  modify (set_current c).

Definition prune : State Store unit :=
  nowMs <- now ;;
  modify (fun s => set_previous
            (prune_down (fun p => nowMs >? prevExpiresAt p)
                        (List.length (previous s)) (previous s)) s).

Definition previousTokenCount : State Store nat :=
  gets (fun s => List.length (previous s)).

End WithOptions.

(** [createRotatingTokenStore(options)] given the injected clock and
    generator. *)
Definition create (options : Options) (w : World) : Store :=
  let (c, w') := @issueCurrent options World
                   {| the_world := fun w => w; with_world := fun w _ => w |} w in
  mkStore w' c [].

End RotatingTokenStore.

(** ** refresh-session-store.ts *)

Module RefreshSessionStore.

Record RefreshEntry := mkEntry {
  tokenBuf : Buffer;
  expiresAt : Z
}.

Record Options := mkOptions {
  ttlMs : Z;
  maxTokens : Z
}.

Record Store := mkStore {
  world : World;
  entries : list RefreshEntry
}.

#[export] Instance Store_world : HasWorld Store := {
  the_world := world;
  with_world w s := mkStore w (entries s)
}.

Definition set_entries (l : list RefreshEntry) (s : Store) : Store :=
  mkStore (world s) l.

(** The scan of [exchange]: the first index whose entry is unexpired
    and holds the candidate's bytes. *)
Fixpoint findIdx (nowMs : Z) (candidateBuf : Buffer) (entries : list RefreshEntry)
  : option nat :=
  match entries with
  | [] => None
  | entry :: rest =>
      if nowMs >? expiresAt entry then option_map S (findIdx nowMs candidateBuf rest)
      else if negb (Nat.eqb (String.length candidateBuf) (String.length (tokenBuf entry)))
      then option_map S (findIdx nowMs candidateBuf rest)
      else if negb (timingSafeEqual candidateBuf (tokenBuf entry))
      then option_map S (findIdx nowMs candidateBuf rest)
      else Some O
  end.

Section WithOptions.
Variable options : Options.

Definition prune : State Store unit :=
  nowMs <- now ;;
  modify (fun s => set_entries
            (prune_down (fun e => nowMs >? expiresAt e)
                        (List.length (entries s)) (entries s)) s).

Definition issue : State Store string :=
  prune ;;;
  tok <- issueToken ;;
  n <- now ;;
  modify (fun s => set_entries
            (entries s ++ [mkEntry (Buffer_from tok) (n + ttlMs options)]) s) ;;;
  modify (fun s => set_entries (cap_oldest (maxTokens options) (entries s)) s) ;;;
  ret tok.

Definition exchange (candidate : option string) : State Store (option string) :=
  if falsy candidate then ret None else
  prune ;;;
  let candidateBuf := Buffer_from (str candidate) in
  nowMs <- now ;;
  es <- gets entries ;;
  match findIdx nowMs candidateBuf es with
  | None => ret None
  | Some foundIdx =>
      (* One-time use: consume old refresh token and issue a replacement. *)
      modify (fun s => set_entries (splice_out foundIdx (entries s)) s) ;;;
      tok <- issue ;;
      ret (Some tok)
  end.

Definition count : State Store nat :=
  gets (fun s => List.length (entries s)).

End WithOptions.

(** [createRefreshSessionStore(options)] *)
Definition create (w : World) : Store := mkStore w [].

End RefreshSessionStore.

(** ** server.ts *)

Module Server.

Definition AgentId := string.
Definition TaskId := string.

(** *** protocol.ts

    Modelled from the spec: the transport message shapes of section 6
    ([protocol.ts] is not part of the sources at hand;
    [parseClientMessage] yields one of the client shapes or null). *)

Inductive AgentStatus := running | exited.

Record RemoteAgent := mkAgent {
  agentId : AgentId;
  taskId : TaskId;
  taskName : string;
  status : AgentStatus;
  exitCode : option Z;
  lastLine : string
}.

Record TokenPayload := mkPayload {
  token : string;
  tokenExpiresAt : Z;
  refreshToken : option string;  (* the key is absent when [None] *)
  url : string;
  wifiUrl : option string;
  tailscaleUrl : option string
}.

Inductive ServerMessage :=
| MsgAgents (list_ : list RemoteAgent)
| MsgStatus (agent : AgentId) (status_ : AgentStatus) (exitCode_ : option Z)
| MsgToken (payload : TokenPayload)
| MsgScrollback (agent : AgentId) (data : string) (cols_ : Z)
| MsgOutput (agent : AgentId) (data : string).

Inductive ClientMessage :=
| Auth (token_ : string)
| Input (agent : AgentId) (data : string)
| Resize (agent : AgentId) (cols_ rows_ : Z)
| Kill (agent : AgentId)
| Subscribe (agent : AgentId)
| Unsubscribe (agent : AgentId).

(** *** WebSockets and callbacks *)

(** A [WebSocket] object, by identity. *)
Definition Ws := nat.
Bind Scope nat_scope with Ws.

Inductive ReadyState := CONNECTING | OPEN | CLOSING | CLOSED.

Definition isOpen (r : ReadyState) : bool :=
  match r with OPEN => true | _ => false end.

(** The closure [cb] that a [subscribe] message creates: a fresh
    function object that captures [ws] and [msg.agentId]. *)
Record Callback := mkCallback {
  cb_id : nat;
  cb_ws : Ws;
  cb_agent : AgentId
}.

Definition same_cb (a b : Callback) : bool := Nat.eqb (cb_id a) (cb_id b).

(** *** ../ipc/pty.js

    Modelled from the spec: the PTY supervisor of section 6, a table
    of the live sessions with their scrollback and their byte
    callbacks ([pty.ts] is not part of the sources at hand).  The
    supervisor invokes the callbacks of a session and the gateway's
    calls add and remove them (section 3); a session that is spawned
    joins the table and one that exits leaves it (sections 4.5 and
    7), and its callbacks go with it. *)

Record Session := mkSession {
  sessId : AgentId;
  sessTask : TaskId;
  scrollback : string;
  cols : Z;
  subscribers : list Callback
}.

Definition Pty := list Session.

Definition findSession (id : AgentId) (pty : Pty) : option Session :=
  find (fun s => String.eqb (sessId s) id) pty.

Definition updateSession (id : AgentId) (f : Session -> Session) (pty : Pty) : Pty :=
  map (fun s => if String.eqb (sessId s) id then f s else s) pty.

Definition getActiveAgentIds (pty : Pty) : list AgentId := map sessId pty.

Definition getAgentMeta (id : AgentId) (pty : Pty) : option TaskId :=
  option_map sessTask (findSession id pty).

Definition getAgentScrollback (id : AgentId) (pty : Pty) : option string :=
  option_map scrollback (findSession id pty).

Definition getAgentCols (id : AgentId) (pty : Pty) : Z :=
  match findSession id pty with Some s => cols s | None => 80 end.

Definition addSubscriber (cb : Callback) (s : Session) : Session :=
  mkSession (sessId s) (sessTask s) (scrollback s) (cols s)
    (if existsb (same_cb cb) (subscribers s) then subscribers s
     else subscribers s ++ [cb]).

Definition removeSubscriber (cb : Callback) (s : Session) : Session :=
  mkSession (sessId s) (sessTask s) (scrollback s) (cols s)
    (filter (fun c => negb (same_cb cb c)) (subscribers s)).

Definition subscribeToAgent (id : AgentId) (cb : Callback) (pty : Pty) : bool * Pty :=
  match findSession id pty with
  | None => (false, pty)
  | Some _ => (true, updateSession id (addSubscriber cb) pty)
  end.

Definition unsubscribeFromAgent (id : AgentId) (cb : Callback) (pty : Pty) : Pty :=
  updateSession id (removeSubscriber cb) pty.

(** A spawn: the new session joins the table, without scrollback and
    without callbacks; an id that is live is not given out again. *)
Definition spawnAgent (id : AgentId) (task : TaskId) (cols_ : Z) (pty : Pty) : Pty :=
  match findSession id pty with
  | Some _ => pty
  | None => pty ++ [mkSession id task "" cols_ []]
  end.

(** An exit: the session leaves the table. *)
Definition dropAgent (id : AgentId) (pty : Pty) : Pty :=
  filter (fun s => negb (String.eqb (sessId s) id)) pty.

(** The callbacks registered with the supervisor for a session. *)
Definition registered (id : AgentId) (pty : Pty) : list Callback :=
  match findSession id pty with Some s => subscribers s | None => [] end.

(** *** The gateway *)

Definition TOKEN_TTL_MS : Z := 10 * 60 * 1000.
Definition TOKEN_EXPIRY_CHECK_MS : Z := 5 * 1000.
Definition TOKEN_GRACE_MS : Z := 60 * 1000.
Definition MAX_PREVIOUS_TOKENS : Z := 1.
Definition REFRESH_TOKEN_TTL_MS : Z := 24 * 60 * 60 * 1000.
Definition MAX_REFRESH_TOKENS : Z := 64.

Definition tokenOptions : RotatingTokenStore.Options :=
  RotatingTokenStore.mkOptions TOKEN_TTL_MS TOKEN_GRACE_MS MAX_PREVIOUS_TOKENS.

Definition refreshOptions : RefreshSessionStore.Options :=
  RefreshSessionStore.mkOptions REFRESH_TOKEN_TTL_MS MAX_REFRESH_TOKENS.

Record AgentInfo := mkInfo {
  info_status : AgentStatus;
  info_exitCode : option Z;
  info_lastLine : string
}.

(** The argument of [startRemoteServer]. *)
Record Opts := mkOpts {
  port : N;
  allowExternal : bool;
  getTaskName : TaskId -> string;
  getAgentStatus : AgentId -> AgentInfo
}.

(** The result of [getNetworkIps()]. *)
Record NetworkIps := mkIps {
  wifi : option string;
  tailscale : option string
}.

(** The upgrade request of a handshake: its path, its Authorization
    header, the entries of its Sec-WebSocket-Protocol header (split at
    commas, trimmed, empty ones dropped) and its [token] query
    parameter. *)
Record Handshake := mkHandshake {
  pathname : string;
  authorization : option string;
  protocols : list string;
  queryToken : option string
}.

(** What the runtime delivers after the data chunks of a request
    body: ['end'], or ['error']. *)
Inductive BodyEnd := Ended | Errored.

Record RefreshRequest := mkRequest {
  chunks : list string;
  bodyEnd : BodyEnd
}.

Inductive Json :=
| ErrorBody (error : string)
| TokenBody (payload : TokenPayload).

(** What the gateway does to the outside, in order. *)
Inductive Effect :=
| Send (ws : Ws) (msg : ServerMessage)               (* ws.send *)
| Close (ws : Ws) (code : Z) (reason : string)       (* ws.close *)
| RejectHandshake (code : Z) (message : string)      (* cb(false, ...) *)
| SetAuthTimeout (ws : Ws) (delayMs : Z)             (* setTimeout *)
| SetRosterTimeout (delayMs : Z)                     (* setTimeout *)
| DestroyRequest                                     (* req.destroy *)
| WriteJson (status_ : Z) (headers : list (string * string)) (body : Json)
            (socketDestroyed : bool)                 (* writeJson *)
| WriteToAgent (agent : AgentId) (data : string)
| ResizeAgent (agent : AgentId) (cols_ rows_ : Z)
| KillAgent (agent : AgentId)
| SubscribeToAgent (agent : AgentId) (cb : Callback) (ok : bool)
| UnsubscribeFromAgent (agent : AgentId) (cb : Callback).

(** A member of [wss.clients] with the variables that its
    ['connection'] handler closes over and its entry of [clientSubs]. *)
Record Connection := mkConnection {
  conn_ws : Ws;
  readyState : ReadyState;
  authed : bool;
  authTimeout : bool;                     (* the timer is pending *)
  subs : list (AgentId * Callback)        (* Map, in insertion order *)
}.

Record Gateway := mkGateway {
  world : World;
  current : RotatingTokenStore.CurrentToken;
  previous : list RotatingTokenStore.PreviousToken;
  entries : list RefreshSessionStore.RefreshEntry;
  clients : list Connection;              (* wss.clients *)
  authedClients : list Ws;
  pty : Pty;
  ips : NetworkIps;
  objects : nat;                          (* identities handed out *)
  log : list Effect
}.

#[export] Instance Gateway_world : HasWorld Gateway := {
  the_world := world;
  with_world w g :=
    mkGateway w (current g) (previous g) (entries g) (clients g)
      (authedClients g) (pty g) (ips g) (objects g) (log g)
}.

Definition set_clients (cs : list Connection) (g : Gateway) : Gateway :=
  mkGateway (world g) (current g) (previous g) (entries g) cs
    (authedClients g) (pty g) (ips g) (objects g) (log g).

Definition set_authedClients (a : list Ws) (g : Gateway) : Gateway :=
  mkGateway (world g) (current g) (previous g) (entries g) (clients g)
    a (pty g) (ips g) (objects g) (log g).

Definition set_pty (p : Pty) (g : Gateway) : Gateway :=
  mkGateway (world g) (current g) (previous g) (entries g) (clients g)
    (authedClients g) p (ips g) (objects g) (log g).

Definition emit (e : Effect) : State Gateway unit :=
  modify (fun g =>
    mkGateway (world g) (current g) (previous g) (entries g) (clients g)
      (authedClients g) (pty g) (ips g) (objects g) (log g ++ [e])).

(** A fresh object identity. *)
Definition fresh : State Gateway nat :=
  fun g => (objects g,
    mkGateway (world g) (current g) (previous g) (entries g) (clients g)
      (authedClients g) (pty g) (ips g) (S (objects g)) (log g)).

(** [tokenStore.f(...)]: the store runs on the gateway's clock. *)
Definition tokenStore {A} (m : State RotatingTokenStore.Store A) : State Gateway A :=
  fun g =>
    let (a, st) := m (RotatingTokenStore.mkStore (world g) (current g) (previous g)) in
    (a, mkGateway (RotatingTokenStore.world st) (RotatingTokenStore.current st)
          (RotatingTokenStore.previous st) (entries g) (clients g)
          (authedClients g) (pty g) (ips g) (objects g) (log g)).

(** [refreshStore.f(...)] *)
Definition refreshStore {A} (m : State RefreshSessionStore.Store A) : State Gateway A :=
  fun g =>
    let (a, st) := m (RefreshSessionStore.mkStore (world g) (entries g)) in
    (a, mkGateway (RefreshSessionStore.world st) (current g) (previous g)
          (RefreshSessionStore.entries st) (clients g)
          (authedClients g) (pty g) (ips g) (objects g) (log g)).

Definition findConn (ws : Ws) (cs : list Connection) : option Connection :=
  find (fun c => Nat.eqb (conn_ws c) ws) cs.

Definition updateConn (ws : Ws) (f : Connection -> Connection) : State Gateway unit :=
  modify (fun g => set_clients
    (map (fun c => if Nat.eqb (conn_ws c) ws then f c else c) (clients g)) g).

Definition set_readyState (r : ReadyState) (c : Connection) : Connection :=
  mkConnection (conn_ws c) r (authed c) (authTimeout c) (subs c).

Definition set_authed (b : bool) (c : Connection) : Connection :=
  mkConnection (conn_ws c) (readyState c) b (authTimeout c) (subs c).

Definition set_authTimeout (b : bool) (c : Connection) : Connection :=
  mkConnection (conn_ws c) (readyState c) (authed c) b (subs c).

Definition set_subs (m : list (AgentId * Callback)) (c : Connection) : Connection :=
  mkConnection (conn_ws c) (readyState c) (authed c) (authTimeout c) m.

(** [ws.readyState] *)
Definition readyStateOf (ws : Ws) : State Gateway ReadyState :=
  gets (fun g => match findConn ws (clients g) with
                 | Some c => readyState c
                 | None => CLOSED
                 end).

(** [ws.send(JSON.stringify(msg))]: the frame goes out on an open
    socket and is dropped on any other. *)
Definition ws_send (ws : Ws) (msg : ServerMessage) : State Gateway unit :=
  r <- readyStateOf ws ;;
  when (isOpen r) (emit (Send ws msg)).

(** [ws.close(code, reason)] starts the closing handshake of an open
    socket. *)
Definition ws_close (ws : Ws) (code : Z) (reason : string) : State Gateway unit :=
  r <- readyStateOf ws ;;
  when (isOpen r)
    (emit (Close ws code reason) ;;;
     updateConn ws (set_readyState CLOSING)).

(** [Map] operations on a subscription table. *)
Definition subs_get (id : AgentId) (m : list (AgentId * Callback)) : option Callback :=
  option_map snd (find (fun kv => String.eqb (fst kv) id) m).

Definition subs_has (id : AgentId) (m : list (AgentId * Callback)) : bool :=
  existsb (fun kv => String.eqb (fst kv) id) m.

Definition subs_delete (id : AgentId) (m : list (AgentId * Callback))
  : list (AgentId * Callback) :=
  filter (fun kv => negb (String.eqb (fst kv) id)) m.

Definition subs_set (id : AgentId) (cb : Callback) (m : list (AgentId * Callback))
  : list (AgentId * Callback) :=
  if subs_has id m
  then map (fun kv => if String.eqb (fst kv) id then (id, cb) else kv) m
  else m ++ [(id, cb)].

(** [Set.add] *)
Definition set_add (ws : Ws) (s : list Ws) : list Ws :=
  if existsb (Nat.eqb ws) s then s else s ++ [ws].

(** [Set.delete] *)
Definition set_delete (ws : Ws) (s : list Ws) : list Ws :=
  filter (fun x => negb (Nat.eqb ws x)) s.

(** A value that is neither null nor the empty string. *)
Definition truthy (x : option string) : bool := negb (falsy x).

(** [s.slice(n)] *)
Definition slice (n : nat) (s : string) : string :=
  substring n (String.length s - n) s.

Definition getWsProtocolToken (req : Handshake) : option string :=
  option_map (slice (String.length "pc-token."))
    (find (String.prefix "pc-token.") (protocols req)).

Definition getWsHandshakeToken (req : Handshake) : option string :=
  match authorization req with
  | Some auth =>
      if String.prefix "Bearer " auth then Some (slice 7 auth)
      else
        let protocolToken := getWsProtocolToken req in
        if truthy protocolToken then protocolToken else queryToken req
  | None =>
      let protocolToken := getWsProtocolToken req in
      if truthy protocolToken then protocolToken else queryToken req
  end.

Definition SECURITY_HEADERS : list (string * string) :=
  [("X-Content-Type-Options", "nosniff");
   ("X-Frame-Options", "DENY");
   ("Referrer-Policy", "no-referrer")].

Section WithOpts.
Variable opts : Opts.

(** [JSON.parse(raw).refreshToken] inside the [try]: [None] when the
    parse or the property access throws, else the property when it
    is a string and null otherwise. *)
Variable JSON_refreshToken : string -> option (option string).

(** [byTask.get/set] inside [buildAgentList] *)
Definition byTask_put (agent : RemoteAgent)
    (byTask : list (TaskId * RemoteAgent)) : list (TaskId * RemoteAgent) :=
  match find (fun kv => String.eqb (fst kv) (taskId agent)) byTask with
  | None => byTask ++ [(taskId agent, agent)]
  | Some (_, existing) =>
      match status agent, status existing with
      | running, exited =>
          map (fun kv => if String.eqb (fst kv) (taskId agent)
                         then (taskId agent, agent) else kv) byTask
      | _, _ => byTask
      end
  end.

Definition buildAgentList (p : Pty) : list RemoteAgent :=
  map snd
    (fold_left
       (fun byTask id =>
          match getAgentMeta id p with
          | None => byTask
          | Some task =>
              let info := getAgentStatus opts id in
              byTask_put
                (mkAgent id task (getTaskName opts task) (info_status info)
                         (info_exitCode info) (info_lastLine info))
                byTask
          end)
       (getActiveAgentIds p) []).

Definition portText : string := NilEmpty.string_of_uint (N.to_uint (port opts)).

Definition urlFor (ip tok : string) : string :=
  ("http://" ++ ip ++ ":" ++ portText ++ "/?token=" ++ tok)%string.

Definition currentUrls : State Gateway (string * option string * option string) :=
  net <- gets ips ;;
  tok <- gets (fun g => RotatingTokenStore.token (current g)) ;;
  let localUrl := urlFor "127.0.0.1" tok in
  let primaryIp :=
    if allowExternal opts then
      match wifi net, tailscale net with
      | Some ip, _ => ip
      | None, Some ip => ip
      | None, None => "127.0.0.1"
      end
    else "127.0.0.1" in
  let url_ := urlFor primaryIp tok in
  let wifiUrl_ := if allowExternal opts && truthy (wifi net)
                  then Some (urlFor (str (wifi net)) tok) else None in
  let tailscaleUrl_ := if allowExternal opts && truthy (tailscale net)
                       then Some (urlFor (str (tailscale net)) tok) else None in
  ret (if allowExternal opts then url_ else localUrl, wifiUrl_, tailscaleUrl_).

Definition writeJson (status_ : Z) (payload : Json) (socketDestroyed : bool)
  : State Gateway unit :=
  emit (WriteJson status_ (SECURITY_HEADERS ++ [("Content-Type", "application/json")])
                  payload socketDestroyed).

Definition issueTokenPayload (includeRefreshToken : bool) : State Gateway TokenPayload :=
  urls <- currentUrls ;;
  tok <- gets (fun g => RotatingTokenStore.token (current g)) ;;
  exp <- gets (fun g => RotatingTokenStore.expiresAt (current g)) ;;
  refresh <- (if includeRefreshToken
              then r <- refreshStore (RefreshSessionStore.issue refreshOptions) ;;
                   ret (Some r)
              else ret None) ;;
  ret (mkPayload tok exp refresh (fst (fst urls)) (snd (fst urls)) (snd urls)).

Definition sendTokenMessage (ws : Ws) (includeRefreshToken : bool) : State Gateway unit :=
  payload <- issueTokenPayload includeRefreshToken ;;
  ws_send ws (MsgToken payload).

Fixpoint forEach {A} (l : list A) (body : A -> State Gateway unit) : State Gateway unit :=
  match l with
  | [] => ret tt
  | x :: rest => body x ;;; forEach rest body
  end.

Definition rotateToken : State Gateway unit :=
  tokenStore (RotatingTokenStore.rotate tokenOptions) ;;;
  targets <- gets authedClients ;;
  forEach targets (fun client =>
    r <- readyStateOf client ;;
    when (isOpen r) (sendTokenMessage client false)).

(** The callback of [setInterval(..., TOKEN_EXPIRY_CHECK_MS)]. *)
Definition tokenExpiryTimer : State Gateway unit :=
  n <- now ;;
  exp <- gets (fun g => RotatingTokenStore.expiresAt (current g)) ;;
  when (n >? exp) rotateToken ;;;
  tokenStore RotatingTokenStore.prune ;;;
  refreshStore RefreshSessionStore.prune.

Definition broadcast (msg : ServerMessage) : State Gateway unit :=
  targets <- gets clients ;;
  forEach targets (fun client =>
    r <- readyStateOf (conn_ws client) ;;
    when (isOpen r) (emit (Send (conn_ws client) msg))).

Definition broadcastAgents : State Gateway unit :=
  p <- gets pty ;;
  broadcast (MsgAgents (buildAgentList p)).

(** [onPtyEvent("spawn", ...)] and [onPtyEvent("list-changed", ...)] *)
Definition onSpawn : State Gateway unit := broadcastAgents.
Definition onListChanged : State Gateway unit := broadcastAgents.

(** [onPtyEvent("exit", ...)] *)
Definition onExit (id : AgentId) (code : option Z) : State Gateway unit :=
  broadcast (MsgStatus id exited code) ;;;
  (* Clean stale subscription entries from all connected clients *)
  modify (fun g => set_clients
            (map (fun c => set_subs (subs_delete id (subs c)) c) (clients g)) g) ;;;
  emit (SetRosterTimeout 100).

(** The callback of the timer that [onExit] sets. *)
Definition rosterTimeout : State Gateway unit := broadcastAgents.

(** The supervisor delivers bytes of a session: it invokes the
    callbacks registered for it, each of which is the closure [cb]
    of the [subscribe] case. *)
Definition onOutput (id : AgentId) (encoded : string) : State Gateway unit :=
  p <- gets pty ;;
  forEach (registered id p) (fun cb =>
    r <- readyStateOf (cb_ws cb) ;;
    when (isOpen r) (ws_send (cb_ws cb) (MsgOutput (cb_agent cb) encoded))).

(** What the supervisor does to its table when it spawns a session,
    before it emits ["spawn"], and when a session has exited, after it
    has emitted ["exit"]. *)
Definition ptySpawned (id : AgentId) (task : TaskId) (cols_ : Z) : State Gateway unit :=
  modify (fun g => set_pty (spawnAgent id task cols_ (pty g)) g).

Definition ptyExited (id : AgentId) : State Gateway unit :=
  modify (fun g => set_pty (dropAgent id (pty g)) g).

(** [verifyClient]: [None] is [cb(true)]. *)
Definition verifyClient (req : Handshake) : State Gateway (option (Z * string)) :=
  if negb (String.eqb (pathname req) "/ws") then ret (Some (404, "Not found")) else
  n <- gets (fun g => List.length (clients g)) ;;
  if (10 <=? n)%nat then ret (Some (429, "Too many connections")) else
  ok <- tokenStore (RotatingTokenStore.accepts (getWsHandshakeToken req)) ;;
  if negb ok then ret (Some (401, "Unauthorized")) else ret None.

Definition sendAgentList (ws : Ws) : State Gateway unit :=
  p <- gets pty ;;
  ws_send ws (MsgAgents (buildAgentList p)).

(** [wss.on("connection", ...)], up to the registration of the
    message and close handlers. *)
Definition onConnection (ws : Ws) (req : Handshake) : State Gateway unit :=
  ok <- tokenStore (RotatingTokenStore.accepts (getWsHandshakeToken req)) ;;
  updateConn ws (set_authed ok) ;;;
  emit (SetAuthTimeout ws 10000) ;;;
  updateConn ws (set_authTimeout true) ;;;
  when ok
    (modify (fun g => set_authedClients (set_add ws (authedClients g)) g) ;;;
     updateConn ws (set_authTimeout false) ;;;
     sendAgentList ws ;;;
     sendTokenMessage ws true) ;;;
  updateConn ws (set_subs []).

(** An upgrade request: [verifyClient], and on success the new
    socket joins [wss.clients] and ['connection'] is emitted. *)
Definition onUpgrade (req : Handshake) : State Gateway (option Ws) :=
  verdict <- verifyClient req ;;
  match verdict with
  | Some (code, message) => emit (RejectHandshake code message) ;;; ret None
  | None =>
      ws <- fresh ;;
      modify (fun g => set_clients
                (clients g ++ [mkConnection ws OPEN false false []]) g) ;;;
      onConnection ws req ;;;
      ret (Some ws)
  end.

(** The callback of [authTimeout]. *)
Definition onAuthTimeout (ws : Ws) : State Gateway unit :=
  c <- gets (fun g => findConn ws (clients g)) ;;
  match c with
  | None => ret tt
  | Some c =>
      if authTimeout c then
        updateConn ws (set_authTimeout false) ;;;
        when (negb (authed c) && isOpen (readyState c))
             (ws_close ws 4001 "Auth timeout")
      else ret tt
  end.

Definition subsOf (ws : Ws) : State Gateway (list (AgentId * Callback)) :=
  gets (fun g => match findConn ws (clients g) with
                 | Some c => subs c
                 | None => []
                 end).

(** The [subscribe] case. *)
Definition onSubscribe (ws : Ws) (id : AgentId) : State Gateway unit :=
  m <- subsOf ws ;;
  if subs_has id m then ret tt else
  p <- gets pty ;;
  let scrollback_ := getAgentScrollback id p in
  when (truthy scrollback_)
       (ws_send ws (MsgScrollback id (str scrollback_) (getAgentCols id p))) ;;;
  n <- fresh ;;
  let cb := mkCallback n ws id in
  p <- gets pty ;;
  let (ok, p') := subscribeToAgent id cb p in
  modify (set_pty p') ;;;
  emit (SubscribeToAgent id cb ok) ;;;
  when ok (updateConn ws (fun c => set_subs (subs_set id cb (subs c)) c)).

(** The [unsubscribe] case. *)
Definition onUnsubscribe (ws : Ws) (id : AgentId) : State Gateway unit :=
  m <- subsOf ws ;;
  match subs_get id m with
  | None => ret tt
  | Some cb =>
      modify (fun g => set_pty (unsubscribeFromAgent id cb (pty g)) g) ;;;
      emit (UnsubscribeFromAgent id cb) ;;;
      updateConn ws (fun c => set_subs (subs_delete id (subs c)) c)
  end.

(** [ws.on("message", ...)] with the result of [parseClientMessage]. *)
Definition onMessage (ws : Ws) (msg : option ClientMessage) : State Gateway unit :=
  match msg with
  | None => ret tt
  | Some msg =>
      c <- gets (fun g => findConn ws (clients g)) ;;
      match c with
      | None => ret tt
      | Some c =>
          if negb (authed c) then
            ok <- match msg with
                  | Auth tok => tokenStore (RotatingTokenStore.accepts (Some tok))
                  | _ => ret false
                  end ;;
            if negb ok then ws_close ws 4001 "Unauthorized" else
            updateConn ws (set_authed true) ;;;
            modify (fun g => set_authedClients (set_add ws (authedClients g)) g) ;;;
            updateConn ws (set_authTimeout false) ;;;
            sendAgentList ws ;;;
            sendTokenMessage ws true
          else
            match msg with
            | Auth _ =>
                (* Ignore duplicate auth frames after a client is authenticated. *)
                ret tt
            | Input id data => emit (WriteToAgent id data)
            | Resize id c r => emit (ResizeAgent id c r)
            | Kill id => emit (KillAgent id)
            | Subscribe id => onSubscribe ws id
            | Unsubscribe id => onUnsubscribe ws id
            end
      end
  end.

(** [ws.on("close", ...)]; the socket has left [wss.clients]. *)
Definition onClose (ws : Ws) : State Gateway unit :=
  m <- subsOf ws ;;
  modify (fun g => set_clients
            (filter (fun c => negb (Nat.eqb (conn_ws c) ws)) (clients g)) g) ;;;
  modify (fun g => set_authedClients (set_delete ws (authedClients g)) g) ;;;
  forEach m (fun kv =>
    modify (fun g => set_pty (unsubscribeFromAgent (fst kv) (snd kv) (pty g)) g) ;;;
    emit (UnsubscribeFromAgent (fst kv) (snd kv))).

(** [chunk.toString("utf8")] on the bytes of a [Buffer]: the decoder
    of the runtime, which reads well-formed UTF-8 sequences and puts
    U+FFFD in the place of every maximal ill-formed one.  A JavaScript
    string is kept here as the UTF-8 bytes of its text, so a
    well-formed sequence is kept as it is and U+FFFD is the three
    bytes EF BF BD. *)
Definition REPLACEMENT : string :=
  String (ascii_of_nat 239) (String (ascii_of_nat 191) (String (ascii_of_nat 189) "")).

(** What the first byte of a sequence announces: a character by
    itself, the number of bytes that follow with the bounds of the
    next one, or no sequence at all. *)
Inductive LeadByte :=
| Single
| Lead (needed lower upper : nat)
| Stray.

Definition leadByte (b : nat) : LeadByte :=
  (if b <=? 127 then Single
   else if (194 <=? b) && (b <=? 223) then Lead 1 128 191
   else if (224 <=? b) && (b <=? 239)
        then Lead 2 (if b =? 224 then 160 else 128) (if b =? 237 then 159 else 191)
   else if (240 <=? b) && (b <=? 244)
        then Lead 3 (if b =? 240 then 144 else 128) (if b =? 244 then 143 else 191)
   else Stray)%nat.

(** [toString_from pending needed lower upper bytes]: the decoder in
    the middle of a sequence whose bytes so far are [pending], with
    [needed] bytes to come, the next one within [lower..upper]. *)
Fixpoint toString_from (pending : string) (needed lower upper : nat)
    (bytes : string) : string :=
  match bytes with
  | EmptyString => match needed with O => "" | S _ => REPLACEMENT end
  | String b rest =>
      let first :=
        match leadByte (nat_of_ascii b) with
        | Single => String b (toString_from "" 0 128 191 rest)
        | Lead k lo hi => toString_from (String b "") k lo hi rest
        | Stray => (REPLACEMENT ++ toString_from "" 0 128 191 rest)%string
        end in
      match needed with
      | O => first
      | S k =>
          if ((lower <=? nat_of_ascii b) && (nat_of_ascii b <=? upper))%nat then
            match k with
            | O => (pending ++ String b (toString_from "" 0 128 191 rest))%string
            | S _ => toString_from (pending ++ String b "") k 128 191 rest
            end
          else (REPLACEMENT ++ first)%string
      end
  end.

Definition toString_utf8 (chunk : string) : string := toString_from "" 0 128 191 chunk.

(** [s.length]: the number of UTF-16 code units of the text, one for
    a character of up to three bytes and two for one of four. *)
Fixpoint length_utf16 (s : string) : nat :=
  match s with
  | EmptyString => O
  | String b rest =>
      ((if nat_of_ascii b <? 128 then 1
        else if nat_of_ascii b <? 192 then 0
        else if nat_of_ascii b <? 240 then 1
        else 2) + length_utf16 rest)%nat
  end.

(** The ['data'] handler over the chunks of a body:
    [raw += chunk.toString("utf8"); if (raw.length > 8 * 1024) req.destroy();].
    A destroyed request delivers no further chunk. *)
Fixpoint receive (raw : string) (body : list string) : string * bool :=
  match body with
  | [] => (raw, false)
  | chunk :: rest =>
      let raw' := (raw ++ toString_utf8 chunk)%string in
      if (8 * 1024 <? length_utf16 raw')%nat then (raw', true)
      else receive raw' rest
  end.

(** The ['end'] handler. *)
Definition onBodyEnd (raw : string) : State Gateway unit :=
  match JSON_refreshToken raw with
  | None => writeJson 400 (ErrorBody "invalid json") false
  | Some refreshToken_ =>
      nextRefreshToken <- refreshStore
        (RefreshSessionStore.exchange refreshOptions refreshToken_) ;;
      if falsy nextRefreshToken then writeJson 401 (ErrorBody "unauthorized") false else
      n <- now ;;
      exp <- gets (fun g => RotatingTokenStore.expiresAt (current g)) ;;
      when (n >? exp) rotateToken ;;;
      urls <- currentUrls ;;
      tok <- gets (fun g => RotatingTokenStore.token (current g)) ;;
      exp <- gets (fun g => RotatingTokenStore.expiresAt (current g)) ;;
      writeJson 200
        (TokenBody (mkPayload tok exp nextRefreshToken
                      (fst (fst urls)) (snd (fst urls)) (snd urls)))
        false
  end.

(** [POST /api/auth/refresh].  [req.destroy()] tears down the socket
    of the request: the runtime then delivers no ['end'], and what
    the ['error'] handler writes, if it runs, goes to a destroyed
    socket. *)
Definition onRefreshRequest (req : RefreshRequest) : State Gateway unit :=
  let (raw, destroyed) := receive "" (chunks req) in
  when destroyed (emit DestroyRequest) ;;;
  match bodyEnd req with
  | Errored => writeJson 400 (ErrorBody "bad request") destroyed
  | Ended => if destroyed then ret tt else onBodyEnd raw
  end.

End WithOpts.

(** [startRemoteServer(opts)], up to [server.listen]. *)
Definition startRemoteServer (w : World) (p : Pty) (net : NetworkIps) : Gateway :=
  let st := RotatingTokenStore.create tokenOptions w in
  mkGateway (RotatingTokenStore.world st) (RotatingTokenStore.current st)
    (RotatingTokenStore.previous st) [] [] [] p net 0 [].

(** *** The rest of [server.ts] *)

(** An address of [os.networkInterfaces()]. *)
Record NetworkInterfaceInfo := mkAddress {
  family : string;
  internal : bool;
  address : string
}.

(** [x ??= v] *)
Definition assign_if_nullish (x : option string) (v : string) : option string :=
  match x with Some _ => x | None => Some v end.

(** [getNetworkIps()] over [Object.values(networkInterfaces())], each
    value an array of addresses or undefined. *)
Definition getNetworkIps (nets : list (option (list NetworkInterfaceInfo))) : NetworkIps :=
  fold_left
    (fun acc addrs =>
       fold_left
         (fun acc addr =>
            if negb (String.eqb (family addr) "IPv4") || internal addr then acc
            else if String.prefix "100." (address addr)
            then mkIps (wifi acc) (assign_if_nullish (tailscale acc) (address addr))
            else if negb (String.prefix "172." (address addr))
            then mkIps (assign_if_nullish (wifi acc) (address addr)) (tailscale acc)
            else acc)
         (match addrs with Some l => l | None => [] end) acc)
    nets (mkIps None None).

(** [checkAuthHeader(req)] on [req.headers.authorization] *)
Definition checkAuthHeader (auth : option string) : State Gateway bool :=
  match auth with
  | Some auth =>
      if String.prefix "Bearer " auth
      then tokenStore (RotatingTokenStore.accepts (Some (slice 7 auth)))
      else ret false
  | None => ret false
  end.

(** A request as the handler of [createServer] reads it:
    [req.method], [url.pathname] and [req.headers.authorization]. *)
Record HttpRequest := mkHttpRequest {
  method : string;
  path : string;
  bearer : option string
}.

(** What the JSON routes other than the refresh route write. *)
Inductive ApiBody :=
| ApiError (error : string)
| ApiAgents (list_ : list RemoteAgent)
| ApiAgent (agent : AgentId) (scrollback_ : string) (status_ : AgentStatus)
           (exitCode_ : option Z).

(** Where a request ends: in the refresh handler ([onRefreshRequest]),
    in a [writeJson] of the other API routes, or in the static file
    server. *)
Inductive Routed :=
| ToRefresh
| Replied (status_ : Z) (headers : list (string * string)) (body : ApiBody)
| ToStatic.

(** [url.pathname.match(/^\/api\/agents\/([^/]+)$/)]: the capture. *)
Definition agentMatch (pathname_ : string) : option AgentId :=
  if String.prefix "/api/agents/" pathname_ then
    let rest := slice (String.length "/api/agents/") pathname_ in
    if String.eqb rest "" || existsb (Ascii.eqb "/") (list_ascii_of_string rest)
    then None else Some rest
  else None.

Section Http.
Variable opts : Opts.

Definition reply (status_ : Z) (body : ApiBody) : State Gateway Routed :=
  ret (Replied status_ (SECURITY_HEADERS ++ [("Content-Type", "application/json")]) body).

(** The request handler of [createServer], up to the route taken. *)
Definition onRequest (req : HttpRequest) : State Gateway Routed :=
  if String.prefix "/api/" (path req) then
    if String.eqb (path req) "/api/auth/refresh" && String.eqb (method req) "POST"
    then ret ToRefresh else
    ok <- checkAuthHeader (bearer req) ;;
    if negb ok then reply 401 (ApiError "unauthorized") else
    if String.eqb (path req) "/api/agents" && String.eqb (method req) "GET" then
      p <- gets pty ;;
      reply 200 (ApiAgents (buildAgentList opts p))
    else
      match agentMatch (path req) with
      | Some agentId_ =>
          if String.eqb (method req) "GET" then
            p <- gets pty ;;
            match getAgentScrollback agentId_ p with
            | None => reply 404 (ApiError "agent not found")
            | Some scrollback_ =>
                let info := option_map (fun _ => getAgentStatus opts agentId_)
                                       (getAgentMeta agentId_ p) in
                reply 200
                  (ApiAgent agentId_ scrollback_
                     (match info with Some i => info_status i | None => exited end)
                     (match info with Some i => info_exitCode i | None => None end))
            end
          else reply 404 (ApiError "not found")
      | None => reply 404 (ApiError "not found")
      end
  else ret ToStatic.

End Http.

End Server.

(** ** src/remote/auth.ts

    The token storage of the remote client. *)

Module RemoteAuth.

Definition TOKEN_KEY : string := "parallel-code-token".
Definition REFRESH_TOKEN_KEY : string := "parallel-code-refresh-token".

(** [localStorage]: keys with their values, in insertion order. *)
Definition Storage := list (string * string).

Definition getItem (key : string) (st : Storage) : option string :=
  option_map snd (find (fun kv => String.eqb (fst kv) key) st).

Definition setItem (key value : string) (st : Storage) : Storage :=
  if existsb (fun kv => String.eqb (fst kv) key) st
  then map (fun kv => if String.eqb (fst kv) key then (key, value) else kv) st
  else st ++ [(key, value)].

Definition removeItem (key : string) (st : Storage) : Storage :=
  filter (fun kv => negb (String.eqb (fst kv) key)) st.

(** [initAuth()] given [hashParams.get("token")] and
    [queryParams.get("token")]; the rewriting of the address bar is
    left out. *)
Definition initAuth (hashToken queryToken : option string)
  : State Storage (option string) :=
  let urlToken := match hashToken with Some t => Some t | None => queryToken end in
  if falsy urlToken then gets (getItem TOKEN_KEY)
  else modify (setItem TOKEN_KEY (str urlToken)) ;;; ret urlToken.

Definition getToken : State Storage (option string) := gets (getItem TOKEN_KEY).

Definition setToken (token : string) : State Storage unit :=
  modify (setItem TOKEN_KEY token).

Definition getRefreshToken : State Storage (option string) :=
  gets (getItem REFRESH_TOKEN_KEY).

Definition setRefreshToken (token : string) : State Storage unit :=
  modify (setItem REFRESH_TOKEN_KEY token).

Definition clearToken : State Storage unit := modify (removeItem TOKEN_KEY).

Definition clearRefreshToken : State Storage unit :=
  modify (removeItem REFRESH_TOKEN_KEY).



(** [authHeaders()]: the Authorization header, if any. *)
Definition authHeaders : State Storage (option string) :=
  token <- getToken ;;
  ret (if falsy token then None else Some ("Bearer " ++ str token)%string).

End RemoteAuth.

(** ** electron/ipc/register.ts

    The options that the [StartRemoteServer] handler passes to
    [startRemoteServer]. *)

Module Register.
Import Server.

(** [taskNames.get(taskId) ?? taskId] *)
Definition taskNameOr (taskNames : list (TaskId * string)) (task : TaskId) : string :=
  match find (fun kv => String.eqb (fst kv) task) taskNames with
  | Some kv => snd kv
  | None => task
  end.

(** The argument of [startRemoteServer] for a port and an
    [allowExternal] that is [args.allowExternal === true]; the
    status resolver asks the supervisor for the metadata of the
    session. *)
Definition remoteOptions (port_ : N) (allowExternal_ : bool)
    (taskNames : list (TaskId * string)) (p : Pty) : Opts :=
  mkOpts port_ allowExternal_ (taskNameOr taskNames)
    (fun agentId_ =>
       mkInfo (match getAgentMeta agentId_ p with
               | Some _ => running
               | None => exited
               end) None "").

End Register.

(** ** A gateway to run scenarios on *)

Module Fixture.
Import Server.

Definition opts : Opts :=
  mkOpts 7777%N false (fun task => task) (fun _ => mkInfo running None "").

(** Two sessions: one with scrollback, one without. *)
Definition sessions : Pty :=
  [mkSession "a1" "T1" "hello" 80 []; mkSession "a2" "T2" "" 120 []].

(** A gateway started at clock reading 1000 whose access tokens are
    tok0, tok1, ... *)
Definition started : Gateway :=
  startRemoteServer (test_world (fun _ => 1000) "tok") sessions (mkIps None None).

Definition handshake (tok : string) : Handshake :=
  mkHandshake "/ws" None [] (Some tok).

(** The gateway after one client connected with the current token:
    socket 0, authenticated. *)
Definition connected : Gateway := snd (onUpgrade opts (handshake "tok0") started).

(** A gateway whose clock passes the expiry of tok0 between the two
    checks of one handshake: [verifyClient] reads 601000, the
    ['connection'] handler 601001. *)
Definition racing_world : World :=
  test_world (fun i => match i with
                       | O => 1000
                       | S O => 601000
                       | _ => 601001
                       end) "tok".

Definition racing : Gateway :=
  startRemoteServer racing_world sessions (mkIps None None).

(** Socket 0, admitted by [verifyClient] and not authenticated. *)
Definition pending : Gateway := snd (onUpgrade opts (handshake "tok0") racing).

(** A stand-in for [JSON.parse] on three kinds of body: [{}] (no
    refresh token), [rt=<token>] (a body carrying that token), and
    anything else (not JSON). *)
Definition parse (raw : string) : option (option string) :=
  if String.eqb raw "{}" then Some None
  else if String.prefix "rt=" raw then Some (Some (slice 3 raw))
  else None.

Fixpoint replicate (n : nat) (a : ascii) : string :=
  match n with
  | O => EmptyString
  | S k => String a (replicate k a)
  end.

End Fixture.

(** ** What the RefreshSessionStore is specified with *)

Module RefreshSpec.
Import RefreshSessionStore.

Definition tokens (es : list RefreshEntry) : list Buffer := map tokenBuf es.

(** [!(nowMs > entry.expiresAt)] *)
Definition alive (nowMs : Z) (e : RefreshEntry) : bool := negb (nowMs >? expiresAt e).

(** The i-th clock reading after the ones already consumed. *)
Definition reading (s : Store) (i : nat) : Z :=
  clock (world s) (ticks (world s) + i).

Definition next_token (s : Store) : string :=
  entropy (world s) (draws (world s)).

(** Every stored token was generated, and no token is stored twice. *)
Definition wf (s : Store) : Prop :=
  NoDup (tokens (entries s)) /\
  forall c, In c (tokens (entries s)) ->
            exists i, (i < draws (world s))%nat /\ entropy (world s) i = c.

(** [c] was generated and is no longer stored. *)
Definition spent (c : string) (s : Store) : Prop :=
  ~ In c (tokens (entries s)) /\
  exists i, (i < draws (world s))%nat /\ entropy (world s) i = c.

(** [c] is stored and unexpired at both clock readings that the next
    [exchange] takes before it looks for it. *)
Definition exchangeable (c : string) (s : Store) : Prop :=
  exists e, In e (entries s) /\ tokenBuf e = c /\
            reading s 0 <= expiresAt e /\ reading s 1 <= expiresAt e.

(** Callers of the store. *)
Inductive Call :=
| CallIssue
| CallExchange (candidate : option string)
| CallPrune.

Definition call (o : Options) (c : Call) (s : Store) : Store :=
  match c with
  | CallIssue => snd (issue o s)
  | CallExchange candidate => snd (exchange o candidate s)
  | CallPrune => snd (prune s)
  end.

Definition calls (o : Options) (cs : list Call) (s : Store) : Store :=
  fold_left (fun s c => call o c s) cs s.

(** [n] consecutive calls of [issue()], with the tokens they return. *)
Fixpoint issue_n (o : Options) (n : nat) (s : Store) : list string * Store :=
  match n with
  | O => ([], s)
  | S k => let (t, s1) := issue o s in
           let (ts, s2) := issue_n o k s1 in
           (t :: ts, s2)
  end.

(** The clock and the generator are the environment's: a call only
    consumes readings and tokens. *)
Definition same_env (s s' : Store) : Prop :=
  clock (world s') = clock (world s) /\ entropy (world s') = entropy (world s).

(** The store never holds more than its cap. *)
Definition within_cap (o : Options) (s : Store) : Prop :=
  (List.length (entries s) <= Z.to_nat (maxTokens o))%nat.

End RefreshSpec.

(** ** What the AccessTokenStore is specified with *)

Module RotatingSpec.
Import RotatingTokenStore.

Definition reading (s : Store) (i : nat) : Z :=
  clock (world s) (ticks (world s) + i).

Definition next_token (s : Store) : string :=
  entropy (world s) (draws (world s)).

(** The test of [accepts] at one clock reading. *)
Definition accepted_at (nowMs : Z) (c : string) (s : Store) : bool :=
  (nowMs <=? expiresAt (current s)) && sameBuf c (tokenBuf (current s))
  || existsb (fun p => (nowMs <=? prevExpiresAt p) && sameBuf c (prevBuf p))
             (previous s).

Definition generated (s : Store) (c : string) : Prop :=
  exists i, (i < draws (world s))%nat /\ entropy (world s) i = c.

(** The current and the retained tokens were generated and are
    pairwise distinct. *)
Definition wf (s : Store) : Prop :=
  NoDup (tokenBuf (current s) :: map prevBuf (previous s)) /\
  forall c, In c (tokenBuf (current s) :: map prevBuf (previous s)) -> generated s c.

Inductive Call :=
| CallAccepts (candidate : option string)
| CallRotate
| CallPrune.

Definition call (o : Options) (k : Call) (s : Store) : Store :=
  match k with
  | CallAccepts candidate => snd (accepts candidate s)
  | CallRotate => snd (rotate o s)
  | CallPrune => snd (prune s)
  end.

Definition calls (o : Options) (ks : list Call) (s : Store) : Store :=
  fold_left (fun s k => call o k s) ks s.

Definition is_rotate (k : Call) : bool :=
  match k with CallRotate => true | _ => false end.

(** No rotation among the calls. *)
Definition quiet (ks : list Call) : Prop := forallb (fun k => negb (is_rotate k)) ks = true.

(** [c] is not the current token, and every retained copy of it
    expires by [g]. *)
Definition lapsing (c : string) (g : Z) (st : Store) : Prop :=
  tokenBuf (current st) <> c /\
  (forall q, In q (previous st) -> prevBuf q = c -> prevExpiresAt q <= g) /\
  generated st c /\ fresh_source (world st).

End RotatingSpec.

(** ** What the gateway is specified with *)

Module GatewaySpec.
Import Server.

(** What a [subscribe] replays: the scrollback message, when the
    scrollback is neither null nor empty and the socket is open. *)
Definition replay (ws : Ws) (r : ReadyState) (id : AgentId) (p : Pty) : list Effect :=
  match getAgentScrollback id p with
  | None => []
  | Some data =>
      if String.eqb data "" then []
      else if isOpen r then [Send ws (MsgScrollback id data (getAgentCols id p))]
      else []
  end.

Definition noteSubscription (ws : Ws) (id : AgentId) (cb : Callback)
    (cs : list Connection) : list Connection :=
  map (fun c => if Nat.eqb (conn_ws c) ws
                then set_subs (subs_set id cb (subs c)) c else c) cs.

Definition add_log (l : list Effect) (g : Gateway) : Gateway :=
  mkGateway (world g) (current g) (previous g) (entries g) (clients g)
    (authedClients g) (pty g) (ips g) (objects g) (log g ++ l).

(** [ws.readyState] as the gateway sees it. *)
Definition readyStateIn (g : Gateway) (ws : Ws) : ReadyState :=
  match findConn ws (clients g) with
  | Some c => readyState c
  | None => CLOSED
  end.


(** The payload of a token message in a given state of the gateway. *)
Definition payloadOf (opts : Opts) (g : Gateway) (refresh : option string)
  : TokenPayload :=
  let urls := fst (currentUrls opts g) in
  mkPayload (RotatingTokenStore.token (current g))
            (RotatingTokenStore.expiresAt (current g))
            refresh (fst (fst urls)) (snd (fst urls)) (snd urls).

Definition tokenFrame (opts : Opts) (g : Gateway) (refresh : option string)
           (ws : Ws) : list Effect :=
  if isOpen (readyStateIn g ws)
  then [Send ws (MsgToken (payloadOf opts g refresh))] else [].

Definition agentsFrame (opts : Opts) (g : Gateway) (ws : Ws) : list Effect :=
  if isOpen (readyStateIn g ws)
  then [Send ws (MsgAgents (buildAgentList opts (pty g)))] else [].

(** The body exceeded the cap and the request was destroyed. *)
Definition oversized (req : RefreshRequest) : bool := snd (receive "" (chunks req)).

(** The request takes the path that ends in the 200 reply. *)
Definition succeeds (JSON_refreshToken : string -> option (option string))
           (req : RefreshRequest) (g : Gateway) : bool :=
  negb (oversized req) &&
  match bodyEnd req with
  | Errored => false
  | Ended =>
      match JSON_refreshToken (fst (receive "" (chunks req))) with
      | None => false
      | Some refreshToken_ =>
          negb (falsy (fst (refreshStore
                              (RefreshSessionStore.exchange refreshOptions refreshToken_) g)))
      end
  end.

Definition jsonHeaders : list (string * string) :=
  SECURITY_HEADERS ++ [("Content-Type", "application/json")].

Definition isLiveReply (e : Effect) : bool :=
  match e with WriteJson _ _ _ d => negb d | _ => false end.

(** What a handler adds to the log of a gateway. *)
Definition added (g g' : Gateway) : list Effect :=
  skipn (List.length (log g)) (log g').

(** A message that does not authenticate: any other kind, or an
    [auth] whose token the store does not accept. *)
Definition rejected (msg : ClientMessage) (g : Gateway) : Prop :=
  match msg with
  | Auth tok => fst (tokenStore (RotatingTokenStore.accepts (Some tok)) g) = false
  | _ => True
  end.

(** The events that the runtime delivers to the gateway. *)
Inductive Event :=
| Upgrade (req : Handshake)                       (* an upgrade request *)
| Message (ws : Ws) (msg : option ClientMessage)  (* 'message', parsed *)
| SocketClosed (ws : Ws)                          (* 'close' *)
| AuthDeadline (ws : Ws)                          (* the authTimeout timer *)
| ExpiryTick                                      (* the tokenExpiryTimer interval *)
| PtySpawn (agent : AgentId) (task : TaskId) (cols_ : Z)
| PtyListChanged
| PtyExit (agent : AgentId) (code : option Z)
| RosterDue                                       (* the timer set by an exit *)
| PtyOutput (agent : AgentId) (encoded : string)
| RefreshPost (req : RefreshRequest).             (* POST /api/auth/refresh *)

Definition step (opts : Opts) (JSON_refreshToken : string -> option (option string))
           (ev : Event) (g : Gateway) : Gateway :=
  match ev with
  | Upgrade req => snd (onUpgrade opts req g)
  | Message ws msg => snd (onMessage opts ws msg g)
  | SocketClosed ws => snd (onClose ws g)
  | AuthDeadline ws => snd (onAuthTimeout ws g)
  | ExpiryTick => snd (tokenExpiryTimer opts g)
  | PtySpawn id task cols_ => snd ((ptySpawned id task cols_ ;;; onSpawn opts) g)
  | PtyListChanged => snd (onListChanged opts g)
  | PtyExit id code => snd ((onExit id code ;;; ptyExited id) g)
  | RosterDue => snd (rosterTimeout opts g)
  | PtyOutput id encoded => snd (onOutput id encoded g)
  | RefreshPost req => snd (onRefreshRequest opts JSON_refreshToken req g)
  end.

Definition run (opts : Opts) (JSON_refreshToken : string -> option (option string))
           (evs : list Event) (g : Gateway) : Gateway :=
  fold_left (fun g ev => step opts JSON_refreshToken ev g) evs g.

(** The protocol state of a connection: its socket, [readyState],
    [authed], and whether its auth deadline is pending. *)
Definition Flags : Type := Ws * (ReadyState * (bool * bool)).

Definition flags (c : Connection) : Flags :=
  (conn_ws c, (readyState c, (authed c, authTimeout c))).

(** An open connection that is not authenticated has its deadline
    pending. *)
Definition pendingF (f : Flags) : Prop :=
  fst (snd (snd f)) = false -> fst (snd f) = OPEN -> snd (snd (snd f)) = true.

(** The sockets of [wss.clients] are distinct objects that exist, and
    every open unauthenticated one has its deadline pending. *)
Definition InvF (fl : list Flags) (n : nat) : Prop :=
  NoDup (map fst fl) /\
  (forall f, In f fl -> (fst f < n)%nat) /\
  (forall f, In f fl -> pendingF f).

Definition Inv (g : Gateway) : Prop := InvF (map flags (clients g)) (objects g).

Definition pendingC (c : Connection) : Prop :=
  authed c = false -> readyState c = OPEN -> authTimeout c = true.

(** The same, on the connections. *)
Definition InvC (cs : list Connection) (n : nat) : Prop :=
  NoDup (map conn_ws cs) /\
  (forall c, In c cs -> (conn_ws c < n)%nat) /\
  (forall c, In c cs -> pendingC c).

(** The connections after [updateConn ws f]. *)
Definition updated (ws : Ws) (f : Connection -> Connection)
           (cs : list Connection) : list Connection :=
  map (fun c => if Nat.eqb (conn_ws c) ws then f c else c) cs.

(** A state change that leaves the protocol state of every connection
    alone, takes no identity back and only adds to the log. *)
Definition same_flags (g g' : Gateway) : Prop :=
  map flags (clients g') = map flags (clients g) /\
  (objects g <= objects g')%nat /\
  exists l, log g' = log g ++ l.

Definition framed {A} (m : State Gateway A) : Prop :=
  forall g, same_flags g (snd (m g)).

End GatewaySpec.

(** ** What the rest of the server is specified with *)

Module ServerSpec.
Import Server.

(** A chunk of ASCII bytes. *)
Definition isAscii (chunk : string) : bool :=
  forallb (fun b => (nat_of_ascii b <? 128)%nat) (list_ascii_of_string chunk).

(** An IPv4 address of an interface that is not internal. *)
Definition external (a : NetworkInterfaceInfo) : bool :=
  String.eqb (family a) "IPv4" && negb (internal a).

(** The addresses of all interfaces, in the order of the iteration. *)
Definition addresses (nets : list (option (list NetworkInterfaceInfo)))
  : list NetworkInterfaceInfo :=
  flat_map (fun addrs => match addrs with Some l => l | None => [] end) nets.

(** The agents of the sessions that have metadata, one per session,
    before [buildAgentList] collapses them by task. *)
Definition candidates (opts : Opts) (p : Pty) : list RemoteAgent :=
  flat_map
    (fun id =>
       match getAgentMeta id p with
       | None => []
       | Some task =>
           let info := getAgentStatus opts id in
           [mkAgent id task (getTaskName opts task) (info_status info)
                    (info_exitCode info) (info_lastLine info)]
       end)
    (getActiveAgentIds p).

Definition isRunning (a : RemoteAgent) : bool :=
  match status a with running => true | exited => false end.

Definition ofTask (task : TaskId) (a : RemoteAgent) : bool :=
  String.eqb (taskId a) task.

(** The first running agent of a task, and its first agent when none
    is running. *)
Definition chosen (task : TaskId) (l : list RemoteAgent) : option RemoteAgent :=
  match find (fun a => ofTask task a && isRunning a) l with
  | Some a => Some a
  | None => find (ofTask task) l
  end.

(** [byTask.get(task)] *)
Definition lookupTask (task : TaskId) (tbl : list (TaskId * RemoteAgent))
  : option RemoteAgent :=
  option_map snd (find (fun kv => String.eqb (fst kv) task) tbl).

(** The keys of [byTask] are distinct and each is the task of its
    agent. *)
Definition keyed (tbl : list (TaskId * RemoteAgent)) : Prop :=
  NoDup (map fst tbl) /\ forall kv, In kv tbl -> fst kv = taskId (snd kv).

(** A call into the PTY supervisor. *)
Definition isSupervisorCall (e : Effect) : bool :=
  match e with
  | WriteToAgent _ _ | ResizeAgent _ _ _ | KillAgent _
  | SubscribeToAgent _ _ _ | UnsubscribeFromAgent _ _ => true
  | _ => false
  end.

(** A property of the gateway that a handler keeps. *)
Definition stable {A} (P : Gateway -> Prop) (m : State Gateway A) : Prop :=
  forall g, P g -> P (snd (m g)).

(** [wss.clients.size] is within the limit of [verifyClient]. *)
Definition withinLimit (g : Gateway) : Prop := (List.length (clients g) <= 10)%nat.

(** Both stores of the gateway are within their caps. *)
Definition storesBounded (g : Gateway) : Prop :=
  (List.length (entries g) <= Z.to_nat MAX_REFRESH_TOKENS)%nat /\
  (List.length (previous g) <= Z.to_nat MAX_PREVIOUS_TOKENS)%nat.

(** A set of sockets that holds exactly the sockets of the connections
    whose [authed] is set, each once. *)
Definition exactC (cs : list Connection) (a : list Ws) : Prop :=
  NoDup a /\
  forall ws, In ws a <->
             exists c, In c cs /\ conn_ws c = ws /\ authed c = true.

(** [authedClients] is the set of the authenticated connections. *)
Definition authedExact (g : Gateway) : Prop := exactC (clients g) (authedClients g).

(** From [g] to [g'] the clock is the same one and has only been read
    further, and the access token is the same unless a clock reading
    taken in between has passed its expiry. *)
Definition rotatedLate (g g' : Gateway) : Prop :=
  clock (world g') = clock (world g) /\
  (ticks (world g) <= ticks (world g'))%nat /\
  (current g' = current g \/
   exists i, (ticks (world g) <= i < ticks (world g'))%nat /\
             clock (world g) i > RotatingTokenStore.expiresAt (current g)).

Definition lawful {A} (m : State Gateway A) : Prop :=
  forall g, rotatedLate g (snd (m g)).

(** The refresh store and the token store inside the gateway. *)
Definition refreshOf (g : Gateway) : RefreshSessionStore.Store :=
  RefreshSessionStore.mkStore (world g) (entries g).

Definition tokensOf (g : Gateway) : RotatingTokenStore.Store :=
  RotatingTokenStore.mkStore (world g) (current g) (previous g).

(** *** Subscription tables and the supervisor's callbacks *)

(** [clientSubs], socket by socket. *)
Definition Tables : Type := list (Ws * list (AgentId * Callback)).

Definition tablesOf (cs : list Connection) : Tables :=
  map (fun c => (conn_ws c, subs c)) cs.

(** The table of the socket maps the session to the callback. *)
Definition tabled (t : Tables) (ws : Ws) (id : AgentId) (cb : Callback) : Prop :=
  exists m, In (ws, m) t /\ In (id, cb) m.

(** The table of one socket changes. *)
Definition retable (ws : Ws)
    (f : list (AgentId * Callback) -> list (AgentId * Callback)) (t : Tables) : Tables :=
  map (fun e => if Nat.eqb (fst e) ws then (fst e, f (snd e)) else e) t.

(** The subscription tables and the supervisor agree: the sockets are
    distinct objects that exist and their tables are maps; an entry
    of a table is a closure of its socket for its session, made
    earlier, and the supervisor has it on every session of that id,
    of which there is one; no two entries are the same object; and
    every callback that the supervisor has, it has once, and the
    table of its socket has it for that session. *)
Definition SubsInv (t : Tables) (p : Pty) (n : nat) : Prop :=
  NoDup (map fst t) /\
  (forall ws m, In (ws, m) t -> (ws < n)%nat /\ NoDup (map fst m)) /\
  (forall ws id cb, tabled t ws id cb ->
     cb_ws cb = ws /\ cb_agent cb = id /\ (cb_id cb < n)%nat /\
     findSession id p <> None /\
     forall s, In s p -> sessId s = id -> In cb (subscribers s)) /\
  (forall ws1 id1 cb1 ws2 id2 cb2,
     tabled t ws1 id1 cb1 -> tabled t ws2 id2 cb2 ->
     cb_id cb1 = cb_id cb2 -> cb1 = cb2) /\
  (forall s, In s p ->
     NoDup (subscribers s) /\
     forall cb, In cb (subscribers s) -> tabled t (cb_ws cb) (sessId s) cb).

Definition subsExact (g : Gateway) : Prop :=
  SubsInv (tablesOf (clients g)) (pty g) (objects g).

(** The tables and the supervisor are [t] and [p], and no identity
    has been taken back since [n]. *)
Definition sameSubs (t : Tables) (p : Pty) (n : nat) (g : Gateway) : Prop :=
  tablesOf (clients g) = t /\ pty g = p /\ (n <= objects g)%nat.

(** The generator never repeats itself, the access token is one that
    it has yielded, and so are the refresh tokens of the store, each
    held once. *)
Definition minted (g : Gateway) : Prop :=
  fresh_source (world g) /\
  (exists i, (i < draws (world g))%nat /\
             entropy (world g) i = RotatingTokenStore.token (current g)) /\
  RefreshSpec.wf (refreshOf g).

End ServerSpec.

(** * Properties *)

(** ** Arrays *)

Section ArrayFacts.
Context {A : Type}.
Implicit Types (l : list A) (dead : A -> bool).

Lemma firstn_len_app l r : firstn (List.length l) (l ++ r) = l.
Proof. induction l; simpl; congruence. Qed.

Lemma skipn_len_app l r : skipn (List.length l) (l ++ r) = r.
Proof. induction l; simpl; congruence. Qed.

Lemma firstn_Slen_app l e r : firstn (S (List.length l)) (l ++ e :: r) = l ++ [e].
Proof. induction l; simpl in *; [destruct r|]; congruence. Qed.

Lemma skipn_Slen_app l e r : skipn (S (List.length l)) (l ++ e :: r) = r.
Proof. induction l; simpl in *; congruence. Qed.

Lemma splice_out_len_app l e r : splice_out (List.length l) (l ++ e :: r) = l ++ r.
Proof. induction l; simpl; congruence. Qed.

Lemma prune_down_prefix dead n l :
  (n <= List.length l)%nat ->
  prune_down dead n l = filter (fun e => negb (dead e)) (firstn n l) ++ skipn n l.
Proof.
  revert l; induction n as [|i IH]; intros l Hn; [reflexivity|].
  simpl prune_down.
  destruct (nth_error l i) as [e|] eqn:He;
    [|apply nth_error_None in He; lia].
  destruct (nth_error_split l i He) as (l1 & l2 & -> & Hl1). subst i.
  rewrite firstn_Slen_app, skipn_Slen_app, filter_app. simpl filter.
  destruct (dead e) eqn:Hd; simpl.
  - rewrite splice_out_len_app, IH by (rewrite length_app; lia).
    now rewrite firstn_len_app, skipn_len_app, app_nil_r.
  - rewrite IH by (rewrite length_app; lia).
    now rewrite firstn_len_app, skipn_len_app, <- app_assoc.
Qed.

(** The pruning loop keeps exactly the elements that are not dead, in
    their order. *)
Lemma prune_down_filter dead l :
  prune_down dead (List.length l) l = filter (fun e => negb (dead e)) l.
Proof.
  rewrite prune_down_prefix by lia.
  now rewrite firstn_all, skipn_all, app_nil_r.
Qed.

Lemma In_splice_out l i x : In x (splice_out i l) -> In x l.
Proof.
  revert i; induction l as [|y l IH]; intros [|i]; simpl; auto.
  intros [->|H]; eauto.
Qed.

Lemma In_skipn_list n l x : In x (skipn n l) -> In x l.
Proof.
  revert l; induction n as [|n IH]; intros [|y l]; simpl; auto.
Qed.

Lemma In_cap_oldest cap l x : In x (cap_oldest cap l) -> In x l.
Proof.
  unfold cap_oldest, splice_front.
  destruct (_ >? _); auto. apply In_skipn_list.
Qed.

Lemma cap_oldest_skipn cap l :
  cap_oldest cap l = skipn (List.length l - Z.to_nat cap) l.
Proof.
  unfold cap_oldest, splice_front.
  destruct (Z.gtb_spec (Z.of_nat (List.length l)) cap) as [H|H].
  - destruct (Z.ltb_spec cap 0) as [Hc|Hc].
    + rewrite !skipn_all2 by lia. reflexivity.
    + f_equal. lia.
  - replace (List.length l - Z.to_nat cap)%nat with 0%nat by lia. reflexivity.
Qed.

(** With room for at least one element the newest one survives the cap. *)
Lemma cap_oldest_last cap l x :
  1 <= cap -> In x (cap_oldest cap (l ++ [x])).
Proof.
  intros Hc. rewrite cap_oldest_skipn, length_app. simpl.
  rewrite skipn_app. apply in_or_app. right.
  replace (List.length l + 1 - Z.to_nat cap - List.length l)%nat with 0%nat by lia.
  simpl. auto.
Qed.
End ArrayFacts.

Lemma sameBuf_eq a b : sameBuf a b = true <-> a = b.
Proof.
  unfold sameBuf, timingSafeEqual. rewrite andb_true_iff, String.eqb_eq.
  split; [tauto|]. intros ->. split; auto. apply Nat.eqb_refl.
Qed.

Lemma sameBuf_neq a b : a <> b -> sameBuf a b = false.
Proof.
  intros H. destruct (sameBuf a b) eqn:E; auto. apply sameBuf_eq in E. tauto.
Qed.

Lemma falsy_Some c : c <> "" -> falsy (Some c) = false.
Proof. intros H. simpl. now apply String.eqb_neq. Qed.

Section MapFacts.
Context {A B : Type} (f : A -> B).

Lemma NoDup_map_filter p l : NoDup (map f l) -> NoDup (map f (filter p l)).
Proof.
  induction l as [|x l IH]; simpl; intros H; auto.
  inversion H as [|? ? Hx Hl]; subst.
  destruct (p x); simpl; auto.
  constructor; auto.
  intros Hin. apply Hx. apply in_map_iff in Hin as (y & Hy & Hin).
  apply filter_In in Hin as [Hin _]. apply in_map_iff. eauto.
Qed.

Lemma NoDup_map_skipn n l : NoDup (map f l) -> NoDup (map f (skipn n l)).
Proof.
  revert l; induction n as [|n IH]; intros [|x l]; simpl; auto.
  intros H. inversion H; subst. auto.
Qed.

Lemma NoDup_map_splice_out i l : NoDup (map f l) -> NoDup (map f (splice_out i l)).
Proof.
  revert i; induction l as [|x l IH]; intros [|i]; simpl; auto; intros H;
    inversion H as [|? ? Hx Hl]; subst; auto.
  constructor; auto.
  intros Hin. apply Hx. apply in_map_iff in Hin as (y & Hy & Hin).
  apply In_splice_out in Hin. apply in_map_iff. eauto.
Qed.

(** Removing the element at [i] removes its key when keys are unique. *)
Lemma NoDup_map_splice_out_gone i l x :
  NoDup (map f l) -> nth_error l i = Some x ->
  ~ In (f x) (map f (splice_out i l)).
Proof.
  revert i; induction l as [|y l IH]; intros [|i]; simpl; try discriminate;
    intros H E; inversion H as [|? ? Hy Hl]; subst.
  - now inversion E; subst.
  - intros [Heq|Hin].
    + apply Hy. rewrite Heq. apply in_map. eapply nth_error_In; eauto.
    + eapply IH; eauto.
Qed.
End MapFacts.

(** ** The generator of the tests *)

Lemma string_of_uint_inj d d' :
  NilEmpty.string_of_uint d = NilEmpty.string_of_uint d' -> d = d'.
Proof.
  revert d'; induction d; destruct d'; simpl; intros H;
    try discriminate; try reflexivity; inversion H; f_equal; auto.
Qed.

Lemma numbered_inj prefix i j : numbered prefix i = numbered prefix j -> i = j.
Proof.
  unfold numbered. intros H. apply Unsigned.to_uint_inj, string_of_uint_inj.
  induction prefix; simpl in H; [assumption|]. inversion H. auto.
Qed.

Lemma test_world_fresh clk a prefix n d :
  fresh_source (mkWorld clk n (numbered (String a prefix)) d).
Proof.
  split; simpl.
  - intros i j. apply numbered_inj.
  - intros i. unfold numbered. simpl. discriminate.
Qed.

(** ** RefreshSessionStore *)

Module RefreshFacts.
Import RefreshSpec.
Import RefreshSessionStore.

Lemma refresh_prune_eq s :
  prune s = (tt, mkStore (tick (world s))
                   (filter (alive (reading s 0)) (entries s))).
Proof.
  unfold prune, bind, now, modify, reading. simpl.
  rewrite prune_down_filter, Nat.add_0_r. reflexivity.
Qed.

Lemma issue_eq o s :
  issue o s =
  (next_token s,
   mkStore (tick (draw (tick (world s))))
     (cap_oldest (maxTokens o)
        (filter (alive (reading s 0)) (entries s)
         ++ [mkEntry (next_token s) (reading s 1 + ttlMs o)]))).
Proof.
  unfold issue, bind. rewrite refresh_prune_eq.
  unfold issueToken, now, modify, ret, reading, next_token, Buffer_from. simpl.
  rewrite Nat.add_1_r. reflexivity.
Qed.

Lemma exchange_falsy o c s : falsy c = true -> exchange o c s = (None, s).
Proof. intros H. unfold exchange. now rewrite H. Qed.

Lemma exchange_eq o c s :
  falsy c = false ->
  exchange o c s =
  let es := filter (alive (reading s 0)) (entries s) in
  match findIdx (reading s 1) (str c) es with
  | None => (None, mkStore (tick (tick (world s))) es)
  | Some i =>
      let (tok, s') := issue o (mkStore (tick (tick (world s))) (splice_out i es)) in
      (Some tok, s')
  end.
Proof.
  intros H. unfold exchange. rewrite H. unfold bind at 1. rewrite refresh_prune_eq.
  unfold bind, now, gets, modify, ret, reading, Buffer_from. simpl.
  rewrite Nat.add_1_r.
  destruct (findIdx _ _ _); reflexivity.
Qed.

Lemma findIdx_None nowMs c es :
  (forall e, In e es -> tokenBuf e = c -> nowMs > expiresAt e) ->
  findIdx nowMs c es = None.
Proof.
  induction es as [|e es IH]; simpl; intros H; auto.
  rewrite IH by auto.
  destruct (Z.gtb_spec nowMs (expiresAt e)); auto.
  destruct (Nat.eqb _ _) eqn:E1; auto. simpl.
  destruct (timingSafeEqual _ _) eqn:E2; auto. simpl.
  apply String.eqb_eq in E2. specialize (H e (or_introl eq_refl) (eq_sym E2)). lia.
Qed.

Lemma findIdx_Some_inv nowMs c es i :
  findIdx nowMs c es = Some i ->
  exists e, nth_error es i = Some e /\ tokenBuf e = c /\ nowMs <= expiresAt e.
Proof.
  revert i; induction es as [|e es IH]; simpl; intros i; [discriminate|].
  assert (Hrec : option_map S (findIdx nowMs c es) = Some i ->
                 exists e0, nth_error (e :: es) i = Some e0 /\ tokenBuf e0 = c
                            /\ nowMs <= expiresAt e0).
  { destruct (findIdx nowMs c es) as [j|]; simpl; [|discriminate].
    intros [= <-]. destruct (IH j eq_refl) as (e0 & ? & ? & ?). eauto. }
  destruct (Z.gtb_spec nowMs (expiresAt e)); auto.
  destruct (Nat.eqb _ _) eqn:E1; simpl; auto.
  destruct (timingSafeEqual _ _) eqn:E2; simpl; auto.
  intros [= <-]. exists e. apply String.eqb_eq in E2. simpl. repeat split; auto; lia.
Qed.

Lemma findIdx_Some nowMs c es e :
  In e es -> tokenBuf e = c -> nowMs <= expiresAt e ->
  exists i, findIdx nowMs c es = Some i.
Proof.
  intros Hin Hc Hn.
  destruct (findIdx nowMs c es) as [i|] eqn:E; eauto.
  exfalso.
  induction es as [|x es IH]; simpl in *; [tauto|].
  destruct (Z.gtb_spec nowMs (expiresAt x)) as [Hx|Hx].
  - destruct Hin as [->|Hin]; [lia|].
    destruct (findIdx nowMs c es); [discriminate|auto].
  - destruct (Nat.eqb _ _) eqn:E1; simpl in E.
    + destruct (timingSafeEqual _ _) eqn:E2; simpl in E; [discriminate|].
      destruct Hin as [->|Hin].
      * subst c. unfold timingSafeEqual in E2. now rewrite String.eqb_refl in E2.
      * destruct (findIdx nowMs c es); [discriminate|auto].
    + destruct Hin as [->|Hin].
      * subst c. now rewrite Nat.eqb_refl in E1.
      * destruct (findIdx nowMs c es); [discriminate|auto].
Qed.

(** *** What a call leaves in the store *)

Lemma tokens_filter p es x : In x (tokens (filter p es)) -> In x (tokens es).
Proof.
  unfold tokens. rewrite !in_map_iff. intros (e & ? & He).
  apply filter_In in He as [? _]. eauto.
Qed.

Lemma tokens_splice_out i es x : In x (tokens (splice_out i es)) -> In x (tokens es).
Proof.
  unfold tokens. rewrite !in_map_iff. intros (e & ? & He).
  apply In_splice_out in He. eauto.
Qed.

Lemma tokens_cap_oldest cap es x : In x (tokens (cap_oldest cap es)) -> In x (tokens es).
Proof.
  unfold tokens. rewrite !in_map_iff. intros (e & ? & He).
  apply In_cap_oldest in He. eauto.
Qed.

Lemma tokens_issue o s x :
  In x (tokens (entries (snd (issue o s)))) ->
  In x (tokens (entries s)) \/ x = next_token s.
Proof.
  rewrite issue_eq. simpl. intros H. apply tokens_cap_oldest in H.
  unfold tokens in H. rewrite map_app in H. apply in_app_or in H as [H|H].
  - left. eapply tokens_filter; eauto.
  - right. simpl in H. destruct H as [<-|[]]. reflexivity.
Qed.

Lemma generated_fresh s c :
  fresh_source (world s) ->
  (exists i, (i < draws (world s))%nat /\ entropy (world s) i = c) ->
  c <> next_token s.
Proof.
  intros [Hinj _] (i & Hi & <-) E. apply Hinj in E. lia.
Qed.

Lemma wf_fresh s :
  fresh_source (world s) -> wf s -> ~ In (next_token s) (tokens (entries s)).
Proof.
  intros Hf [_ Hg] Hin. eapply generated_fresh; eauto.
Qed.

Lemma wf_shrink s w es :
  wf s ->
  entropy w = entropy (world s) -> (draws (world s) <= draws w)%nat ->
  NoDup (tokens es) ->
  (forall x, In x (tokens es) -> In x (tokens (entries s))) ->
  wf (mkStore w es).
Proof.
  intros [_ Hg] He Hd Hnd Hsub. split; auto. simpl.
  intros c Hc. destruct (Hg c (Hsub c Hc)) as (i & Hi & <-).
  exists i. rewrite He. split; auto; lia.
Qed.

Lemma wf_prune s : wf s -> wf (snd (prune s)).
Proof.
  intros H. rewrite refresh_prune_eq. simpl.
  apply (wf_shrink s); auto.
  - apply NoDup_map_filter, H.
  - intros x. apply tokens_filter.
Qed.

Lemma wf_issue o s : fresh_source (world s) -> wf s -> wf (snd (issue o s)).
Proof.
  intros Hf Hwf. pose proof (wf_fresh s Hf Hwf) as Hnew.
  destruct Hwf as [Hnd Hg]. split.
  - rewrite issue_eq. simpl. rewrite cap_oldest_skipn. apply NoDup_map_skipn.
    rewrite map_app. simpl. apply NoDup_app.
    + apply NoDup_map_filter, Hnd.
    + constructor; [simpl; tauto|constructor].
    + intros a Ha [<-|[]]. apply Hnew. eapply tokens_filter; eauto.
  - intros c Hc. apply tokens_issue in Hc. rewrite issue_eq. simpl.
    destruct Hc as [Hc| ->].
    + destruct (Hg c Hc) as (i & Hi & <-). exists i. split; auto.
    + exists (draws (world s)). split; auto.
Qed.

Lemma spent_issue o s c :
  fresh_source (world s) -> spent c s -> spent c (snd (issue o s)).
Proof.
  intros Hf [Hout Hgen]. split.
  - intros Hin. apply tokens_issue in Hin as [Hin|Hin]; auto.
    eapply generated_fresh; eauto.
  - destruct Hgen as (i & Hi & <-). rewrite issue_eq. simpl. exists i. split; auto.
Qed.

Lemma same_env_issue o s : same_env s (snd (issue o s)).
Proof. rewrite issue_eq. split; reflexivity. Qed.

Lemma same_env_prune s : same_env s (snd (prune s)).
Proof. rewrite refresh_prune_eq. split; reflexivity. Qed.

Lemma same_env_exchange o c s : same_env s (snd (exchange o c s)).
Proof.
  destruct (falsy c) eqn:F.
  - rewrite exchange_falsy by auto. split; reflexivity.
  - rewrite exchange_eq by auto. cbv zeta.
    destruct (findIdx _ _ _); [|split; reflexivity].
    rewrite issue_eq. split; reflexivity.
Qed.

Lemma fresh_source_env s s' :
  same_env s s' -> fresh_source (world s) -> fresh_source (world s').
Proof. intros [_ He] [H1 H2]. unfold fresh_source. rewrite He. auto. Qed.

Lemma wf_exchange o c s :
  fresh_source (world s) -> wf s -> wf (snd (exchange o c s)).
Proof.
  intros Hf Hwf. destruct (falsy c) eqn:F.
  - now rewrite exchange_falsy.
  - rewrite exchange_eq by auto. cbv zeta.
    set (es := filter _ _).
    assert (Hes : wf (mkStore (tick (tick (world s))) es)).
    { apply (wf_shrink s); auto.
      - apply NoDup_map_filter, Hwf.
      - intros x. apply tokens_filter. }
    destruct (findIdx _ _ _) as [i|]; auto.
    pose proof (wf_issue o (mkStore (tick (tick (world s))) (splice_out i es))) as Hi.
    destruct (issue o _) as [tok s']. simpl in *. apply Hi; auto.
    apply (wf_shrink (mkStore (tick (tick (world s))) es)); auto.
    + apply NoDup_map_splice_out, Hes.
    + intros x. apply tokens_splice_out.
Qed.

Lemma spent_prune s c : spent c s -> spent c (snd (prune s)).
Proof.
  intros [Hout Hgen]. rewrite refresh_prune_eq. split; simpl; auto.
  intros Hin. apply Hout. eapply tokens_filter; eauto.
Qed.

Lemma spent_exchange o c' s c :
  fresh_source (world s) -> spent c s -> spent c (snd (exchange o c' s)).
Proof.
  intros Hf Hs. destruct (falsy c') eqn:F.
  - now rewrite exchange_falsy.
  - rewrite exchange_eq by auto. cbv zeta.
    set (es := filter _ _).
    assert (Hout : ~ In c (tokens es))
      by (intros Hin; apply Hs; eapply tokens_filter; eauto).
    destruct (findIdx _ _ _) as [i|].
    + pose proof (spent_issue o (mkStore (tick (tick (world s))) (splice_out i es)) c) as Hi.
      destruct (issue o _) as [tok s']. simpl in *. apply Hi; auto.
      split; simpl; [|apply Hs].
      intros Hin. apply Hout. eapply tokens_splice_out; eauto.
    + split; simpl; auto. apply Hs.
Qed.

Lemma same_env_call o k s : same_env s (call o k s).
Proof.
  destruct k; simpl;
    [apply same_env_issue | apply same_env_exchange | apply same_env_prune].
Qed.

Lemma spent_call o k s c :
  fresh_source (world s) -> spent c s -> spent c (call o k s).
Proof.
  destruct k; simpl; intros;
    [apply spent_issue | apply spent_exchange | apply spent_prune]; auto.
Qed.

Lemma spent_calls o ks s c :
  fresh_source (world s) -> spent c s ->
  fresh_source (world (calls o ks s)) /\ spent c (calls o ks s).
Proof.
  revert s; induction ks as [|k ks IH]; intros s Hf Hs; simpl; auto.
  apply IH.
  - eapply fresh_source_env; [apply same_env_call|auto].
  - now apply spent_call.
Qed.

(** A spent token is never found again. *)
Lemma exchange_spent o c s : spent c s -> fst (exchange o (Some c) s) = None.
Proof.
  intros [Hout _]. destruct (falsy (Some c)) eqn:F.
  - now rewrite exchange_falsy.
  - rewrite exchange_eq by auto. cbv zeta. rewrite findIdx_None; auto.
    intros e He Hc. exfalso. apply Hout. simpl in Hc. subst c.
    apply filter_In in He as [He _]. now apply in_map.
Qed.

Lemma wf_nonempty s c :
  fresh_source (world s) -> wf s -> In c (tokens (entries s)) -> falsy (Some c) = false.
Proof.
  intros [_ Hne] [_ Hg] Hin. destruct (Hg c Hin) as (i & _ & <-).
  apply falsy_Some, Hne.
Qed.

Lemma exchange_miss o c s :
  c <> "" -> ~ In c (tokens (entries s)) ->
  exchange o (Some c) s =
  (None, mkStore (tick (tick (world s))) (filter (alive (reading s 0)) (entries s))).
Proof.
  intros Hc Hout. rewrite exchange_eq by now apply falsy_Some.
  cbv zeta. simpl str. rewrite findIdx_None; auto.
  intros e He Hc'. exfalso. apply Hout. subst c.
  apply filter_In in He as [He _]. now apply in_map.
Qed.

(** One successful exchange: the stored, unexpired token is consumed
    and its replacement is the next token of the generator. *)
Lemma exchange_live o s T :
  fresh_source (world s) -> wf s -> exchangeable T s ->
  exists s1,
    exchange o (Some T) s = (Some (next_token s), s1) /\
    next_token s <> T /\ wf s1 /\ spent T s1 /\ same_env s s1 /\
    ticks (world s1) = (ticks (world s) + 4)%nat /\
    draws (world s1) = S (draws (world s)) /\
    (1 <= maxTokens o ->
     In (mkEntry (next_token s) (reading s 3 + ttlMs o)) (entries s1)).
Proof.
  intros Hf Hwf (e & He & HT & H0 & H1).
  assert (Hin : In T (tokens (entries s))) by (subst T; now apply in_map).
  assert (Hgen : exists i, (i < draws (world s))%nat /\ entropy (world s) i = T)
    by (apply Hwf, Hin).
  pose proof (wf_exchange o (Some T) s Hf Hwf) as Hwf1.
  pose proof (same_env_exchange o (Some T) s) as Henv.
  rewrite exchange_eq in * by (eapply wf_nonempty; eauto).
  cbv zeta in *. simpl str in *. set (es := filter _ _) in *.
  assert (He' : In e es).
  { apply filter_In. split; auto. unfold alive.
    destruct (Z.gtb_spec (reading s 0) (expiresAt e)); auto; lia. }
  destruct (findIdx_Some (reading s 1) T es e He' HT H1) as (i & Hi).
  rewrite Hi in *.
  destruct (findIdx_Some_inv _ _ _ _ Hi) as (e' & Hnth & HT' & _).
  rewrite issue_eq in *. simpl in *.
  eexists. split; [reflexivity|].
  assert (Hneq : next_token s <> T)
    by (intros E; eapply generated_fresh; eauto).
  split; [exact Hneq|]. split; [exact Hwf1|]. split; [|split; [exact Henv|]].
  - split.
    + intros Hin'. apply tokens_cap_oldest in Hin'.
      unfold tokens in Hin'. rewrite map_app in Hin'.
      apply in_app_or in Hin' as [Hin'|[Hin'|[]]];
        [|apply Hneq; exact Hin'].
      apply tokens_filter in Hin'. rewrite <- HT' in Hin'.
      revert Hin'. apply NoDup_map_splice_out_gone; auto.
      apply NoDup_map_filter, Hwf.
    + destruct Hgen as (j & Hj & <-). exists j. simpl. split; auto.
  - split; [simpl; lia|]. split; [reflexivity|].
    intros HM. simpl entries.
    match goal with
    | |- In ?x (cap_oldest _ (_ ++ [?y])) =>
        replace x with y; [now apply cap_oldest_last|]
    end.
    unfold reading, next_token, Buffer_from. simpl. do 3 f_equal. lia.
Qed.

Lemma reading_shift s s' n i :
  clock (world s') = clock (world s) ->
  ticks (world s') = (ticks (world s) + n)%nat ->
  reading s' i = reading s (n + i).
Proof.
  intros Hc Ht. unfold reading. rewrite Hc, Ht. f_equal. lia.
Qed.

(** C1 (as amended). A refresh token that the store still holds
    (generated by it, not evicted by the cap) and that is unexpired at
    the clock readings of the exchange is single-use: the first
    [exchange(T)] succeeds and returns a replacement [T'] distinct from
    [T]; after any further calls of the store [exchange(T)] returns
    none; and, when the cap is at least one and [T'] is still within
    its time to live, the chain continues: [exchange(T)] returns none
    and [exchange(T')] then succeeds with a token distinct from both. *)
Theorem refresh_token_single_use o s T :
  fresh_source (world s) -> wf s -> exchangeable T s ->
  exists T' s1,
    exchange o (Some T) s = (Some T', s1) /\ T' <> T /\
    (forall ks, fst (exchange o (Some T) (calls o ks s1)) = None) /\
    (1 <= maxTokens o ->
     (forall i, (4 <= i <= 7)%nat -> reading s i <= reading s 3 + ttlMs o) ->
     exists s2 T'' s3,
       exchange o (Some T) s1 = (None, s2) /\
       exchange o (Some T') s2 = (Some T'', s3) /\ T'' <> T' /\ T'' <> T).
Proof.
  intros Hf Hwf Hlive.
  destruct (exchange_live o s T Hf Hwf Hlive)
    as (s1 & Hex & Hneq & Hwf1 & Hsp & Henv & Htk & Hdr & Hnew).
  assert (Hf1 : fresh_source (world s1)) by (eapply fresh_source_env; eauto).
  exists (next_token s), s1. split; [exact Hex|]. split; [exact Hneq|]. split.
  - intros ks. apply exchange_spent. now apply spent_calls.
  - intros HM Httl. specialize (Hnew HM).
    assert (HTne : T <> "").
    { destruct Hsp as [_ (i & _ & <-)]. apply Hf1. }
    pose proof (exchange_miss o T s1 HTne (proj1 Hsp)) as Hmiss.
    set (s2 := mkStore _ _) in Hmiss.
    assert (Hwf2 : wf s2).
    { replace s2 with (snd (exchange o (Some T) s1)) by now rewrite Hmiss.
      now apply wf_exchange. }
    assert (Hlive2 : exchangeable (next_token s) s2).
    { exists (mkEntry (next_token s) (reading s 3 + ttlMs o)).
      destruct Henv as [Hc _].
      assert (R : forall k, reading s1 k = reading s (4 + k))
        by (intros; now apply reading_shift).
      assert (R2 : forall k, reading s2 k = reading s (6 + k)).
      { intros k. unfold reading, s2. simpl. rewrite Hc, Htk. f_equal. lia. }
      split; [|split; [reflexivity|]].
      - apply filter_In. split; auto. unfold alive. simpl. rewrite R.
        destruct (Z.gtb_spec (reading s (4 + 0)) (reading s 3 + ttlMs o)) as [G|G]; auto.
        specialize (Httl 4%nat). simpl in G. lia.
      - simpl expiresAt. rewrite !R2. split; apply Httl; lia. }
    destruct (exchange_live o s2 (next_token s)) as (s3 & Hex3 & Hneq3 & _); auto.
    exists s2, (next_token s2), s3. split; [exact Hmiss|]. split; [exact Hex3|].
    split; [exact Hneq3|].
    intros E. apply (generated_fresh s2 T); auto.
    destruct Hsp as [_ (i & Hi & Hgen)]. exists i. unfold s2. simpl. split; auto.
Qed.

Lemma refresh_wf_create w : wf (create w).
Proof. split; simpl; [constructor|tauto]. Qed.

(** The chain of the specification's scenario, with the generator of
    the tests: issue() -> r0, exchange(r0) -> r1, exchange(r0) -> none,
    exchange(r1) -> r2. *)
Example refresh_exchange_chain :
  let o := mkOptions 86400000 64 in
  let s0 := create (test_world (fun _ => 1000) "r") in
  let (t0, s1) := issue o s0 in
  let (t1, s2) := exchange o (Some "r0") s1 in
  let (t2, s3) := exchange o (Some "r0") s2 in
  let (t3, _) := exchange o (Some "r1") s3 in
  (t0, t1, t2, t3) = ("r0", Some "r1", None, Some "r2").
Proof. vm_compute. reflexivity. Qed.

Lemma refresh_token_single_use_witness :
  let o := mkOptions 86400000 64 in
  let s := snd (issue o (create (test_world (fun _ => 1000) "r"))) in
  exists T' s1,
    exchange o (Some "r0") s = (Some T', s1) /\ T' <> "r0" /\
    (forall ks, fst (exchange o (Some "r0") (calls o ks s1)) = None) /\
    (1 <= maxTokens o ->
     (forall i, (4 <= i <= 7)%nat -> reading s i <= reading s 3 + ttlMs o) ->
     exists s2 T'' s3,
       exchange o (Some "r0") s1 = (None, s2) /\
       exchange o (Some T') s2 = (Some T'', s3) /\ T'' <> T' /\ T'' <> "r0").
Proof.
  intros o s. apply (refresh_token_single_use o s "r0").
  - apply test_world_fresh.
  - apply wf_issue; [apply test_world_fresh | apply refresh_wf_create].
  - exists (mkEntry "r0" 86401000). vm_compute. intuition discriminate.
Defined.

(** C1 (as stated) fails: with a cap of one, a second [issue()] evicts
    the first token, and [exchange] of that issued, unexpired token
    returns none. *)
Lemma unexpired_token_evicted_by_cap :
  let o := mkOptions 86400000 1 in
  let s0 := create (test_world (fun _ => 1000) "r") in
  let (r0, s1) := issue o s0 in
  let (r1, s2) := issue o s1 in
  r0 = "r0" /\ r1 = "r1" /\
  reading s2 0 <= 1000 + ttlMs o /\ reading s2 1 <= 1000 + ttlMs o /\
  fst (exchange o (Some r0) s2) = None.
Proof. vm_compute. intuition discriminate. Qed.

(** *** Eviction at the cap *)

Lemma tokens_cap_oldest_eq cap es :
  tokens (cap_oldest cap es) = survivors cap (tokens es).
Proof.
  unfold tokens, survivors. now rewrite cap_oldest_skipn, skipn_map, length_map.
Qed.

Lemma skipn_app_le {A} k (a b : list A) :
  (k <= List.length a)%nat -> skipn k a ++ b = skipn k (a ++ b).
Proof.
  intros H. rewrite skipn_app.
  replace (k - List.length a)%nat with 0%nat by lia. reflexivity.
Qed.

Lemma survivors_app {A} cap (a b : list A) :
  survivors cap (survivors cap a ++ b) = survivors cap (a ++ b).
Proof.
  unfold survivors.
  rewrite skipn_app_le by lia. rewrite skipn_skipn. f_equal.
  rewrite length_skipn, !length_app. lia.
Qed.

Lemma filter_alive_id nowMs es :
  (forall e, In e es -> nowMs <= expiresAt e) -> filter (alive nowMs) es = es.
Proof.
  intros H. apply forallb_filter_id, forallb_forall. intros e He.
  unfold alive. specialize (H e He).
  destruct (Z.gtb_spec nowMs (expiresAt e)); auto; lia.
Qed.

Lemma length_cap_oldest {A} cap (l : list A) :
  (List.length (cap_oldest cap l) <= Z.to_nat cap)%nat.
Proof. rewrite cap_oldest_skipn, length_skipn. lia. Qed.

Lemma within_cap_issue o s : within_cap o (snd (issue o s)).
Proof. rewrite issue_eq. apply length_cap_oldest. Qed.

Lemma issue_all_alive o s :
  (forall e, In e (entries s) -> reading s 0 <= expiresAt e) ->
  issue o s =
  (next_token s,
   mkStore (tick (draw (tick (world s))))
     (cap_oldest (maxTokens o)
        (entries s ++ [mkEntry (next_token s) (reading s 1 + ttlMs o)]))).
Proof. intros H. rewrite issue_eq, filter_alive_id; auto. Qed.

Lemma issue_n_S o n s :
  issue_n o (S n) s =
  let (t, s1) := issue o s in
  let (ts, s2) := issue_n o n s1 in (t :: ts, s2).
Proof. reflexivity. Qed.

Lemma issue_n_spec o m n : forall s,
  fresh_source (world s) -> wf s -> within_cap o s ->
  (forall e, In e (entries s) ->
             forall i, (i < 2 * n + m)%nat -> reading s i <= expiresAt e) ->
  (forall i j, (i < 2 * n + m)%nat -> (j < 2 * n + m)%nat ->
               reading s i <= reading s j + ttlMs o) ->
  exists ts s',
    issue_n o n s = (ts, s') /\
    (forall c, In c ts -> c <> "") /\
    tokens (entries s') = survivors (maxTokens o) (tokens (entries s) ++ ts) /\
    wf s' /\ fresh_source (world s') /\
    (forall e, In e (entries s') ->
               forall i, (i < m)%nat -> reading s' i <= expiresAt e).
Proof.
  induction n as [|n IH]; intros s Hf Hwf Hcap Hold Httl.
  - exists [], s. simpl. rewrite app_nil_r. unfold survivors.
    replace (_ - _)%nat with 0%nat
      by (unfold within_cap, tokens in *; rewrite length_map; lia).
    repeat (split; auto).
  - pose proof (wf_issue o s Hf Hwf) as Hwf1.
    pose proof (within_cap_issue o s) as Hcap1.
    rewrite issue_n_S.
    rewrite issue_all_alive in * by (intros e He; apply (Hold e He); lia).
    set (new := mkEntry _ _) in *. set (s1 := mkStore _ _) in *.
    simpl snd in *.
    assert (R : forall i, reading s1 i = reading s (2 + i)).
    { intros i. unfold reading, s1. simpl. f_equal. lia. }
    destruct (IH s1) as (ts & s2 & Hrun & Hne & Htok & Hwf2 & Hf2 & Hold2); auto.
    + intros e He i Hi. rewrite R. apply In_cap_oldest, in_app_or in He.
      destruct He as [He|[<-|[]]].
      * apply (Hold e He). lia.
      * simpl. apply Httl; lia.
    + intros i j Hi Hj. rewrite !R. apply Httl; lia.
    + rewrite Hrun. exists (next_token s :: ts), s2.
      split; [reflexivity|]. split; [|split; [|auto]].
      * intros c [<-|Hc]; [apply Hf | auto].
      * rewrite Htok. unfold s1. simpl entries.
        rewrite tokens_cap_oldest_eq, survivors_app.
        unfold tokens. rewrite map_app, <- app_assoc. reflexivity.
Qed.

(** C7. Capacity eviction is oldest-first: after [n] calls of
    [issue()] during which nothing expires, the store holds exactly
    the most recent [maxTokens] of all tokens in insertion order (the
    ones it held before followed by the ones issued); each of those is
    exchangeable, and every earlier one is refused although it is
    unexpired. *)
Theorem capacity_eviction_oldest_first o n s :
  fresh_source (world s) -> wf s -> within_cap o s ->
  (forall e, In e (entries s) ->
             forall i, (i < 2 * n + 2)%nat -> reading s i <= expiresAt e) ->
  (forall i j, (i < 2 * n + 2)%nat -> (j < 2 * n + 2)%nat ->
               reading s i <= reading s j + ttlMs o) ->
  exists issued s',
    issue_n o n s = (issued, s') /\
    let all := tokens (entries s) ++ issued in
    tokens (entries s') = survivors (maxTokens o) all /\
    (forall c, In c (survivors (maxTokens o) all) ->
               exists c' s'', exchange o (Some c) s' = (Some c', s'')) /\
    (forall c, In c all -> ~ In c (survivors (maxTokens o) all) ->
               fst (exchange o (Some c) s') = None).
Proof.
  intros Hf Hwf Hcap Hold Httl.
  destruct (issue_n_spec o 2 n s Hf Hwf Hcap Hold Httl)
    as (ts & s' & Hrun & Hne & Htok & Hwf' & Hf' & Hold').
  exists ts, s'. split; [exact Hrun|]. cbv zeta. split; [exact Htok|]. split.
  - intros c Hc. rewrite <- Htok in Hc.
    apply in_map_iff in Hc as (e & He & Hin).
    destruct (exchange_live o s' c) as (s'' & Hex & _); eauto.
    exists e. repeat split; auto; apply Hold'; auto.
  - intros c Hall Hout. rewrite <- Htok in Hout.
    assert (Hc : c <> "").
    { apply in_app_or in Hall as [Hin|Hin]; auto.
      destruct Hwf as [_ Hg]. destruct (Hg c Hin) as (i & _ & <-). apply Hf. }
    now rewrite exchange_miss.
Qed.

Lemma capacity_eviction_oldest_first_witness :
  let o := mkOptions 86400000 2 in
  let s := create (test_world (fun _ => 1000) "r") in
  exists issued s',
    issue_n o 3 s = (issued, s') /\
    let all := tokens (entries s) ++ issued in
    tokens (entries s') = survivors (maxTokens o) all /\
    (forall c, In c (survivors (maxTokens o) all) ->
               exists c' s'', exchange o (Some c) s' = (Some c', s'')) /\
    (forall c, In c all -> ~ In c (survivors (maxTokens o) all) ->
               fst (exchange o (Some c) s') = None).
Proof.
  intros o s. apply (capacity_eviction_oldest_first o 3 s).
  - apply test_world_fresh.
  - apply refresh_wf_create.
  - unfold within_cap. simpl. lia.
  - simpl. tauto.
  - intros i j _ _. unfold reading. simpl. lia.
Defined.

(** With a cap of two, the third [issue()] evicts the first token and
    keeps the last two. *)
Example eviction_scenario :
  let o := mkOptions 86400000 2 in
  let (ts, s) := issue_n o 3 (create (test_world (fun _ => 1000) "r")) in
  ts = ["r0"; "r1"; "r2"] /\ tokens (entries s) = ["r1"; "r2"] /\
  fst (exchange o (Some "r0") s) = None /\
  fst (exchange o (Some "r1") s) = Some "r3" /\
  fst (exchange o (Some "r2") s) = Some "r3".
Proof. vm_compute. auto. Qed.
End RefreshFacts.

(** ** AccessTokenStore *)

Module RotatingFacts.
Import RotatingSpec.
Import RotatingTokenStore.

Lemma accepts_falsy c s : falsy c = true -> accepts c s = (false, s).
Proof. intros H. unfold accepts. now rewrite H. Qed.

Lemma accepts_eq c s :
  falsy c = false ->
  accepts c s = (accepted_at (reading s 0) (str c) s,
                 mkStore (tick (world s)) (current s) (previous s)).
Proof.
  intros H. unfold accepts. rewrite H.
  unfold bind, now, gets, ret, accepted_at, reading, Buffer_from. simpl.
  rewrite Nat.add_0_r.
  destruct (_ && _); reflexivity.
Qed.

Lemma rotate_eq o s :
  rotate o s =
  (tt, mkStore (tick (draw (tick (world s))))
         (mkCurrent (next_token s) (Buffer_from (next_token s))
                    (reading s 1 + tokenTtlMs o))
         (cap_oldest (maxPreviousTokens o)
            (previous s ++ [mkPrevious (tokenBuf (current s))
                                       (reading s 0 + previousTokenTtlMs o)]))).
Proof.
  unfold rotate, issueCurrent, bind, gets, now, issueToken, modify, ret,
    reading, next_token. simpl.
  rewrite Nat.add_0_r, Nat.add_1_r. reflexivity.
Qed.

Lemma rotating_prune_eq s :
  prune s =
  (tt, mkStore (tick (world s)) (current s)
         (filter (fun p => negb (reading s 0 >? prevExpiresAt p)) (previous s))).
Proof.
  unfold prune, bind, now, modify, reading. simpl.
  rewrite prune_down_filter, Nat.add_0_r. reflexivity.
Qed.

Lemma sameBuf_refl c : sameBuf c c = true.
Proof. now apply sameBuf_eq. Qed.

Lemma accepted_previous nowMs p s :
  In p (previous s) -> nowMs <= prevExpiresAt p ->
  accepted_at nowMs (prevBuf p) s = true.
Proof.
  intros Hin Hn. unfold accepted_at. apply orb_true_iff. right.
  apply existsb_exists. exists p. split; auto.
  rewrite sameBuf_refl, andb_true_r. now apply Z.leb_le.
Qed.

(** *** Within the grace window *)

(** While only [accepts] and [prune] are called and no clock reading
    passes its expiry, a retained token stays retained and accepted. *)
Lemma quiet_accepts o p ks : forall st,
  In p (previous st) -> prevBuf p <> "" -> quiet ks ->
  (forall i, (i <= List.length ks)%nat -> reading st i <= prevExpiresAt p) ->
  fst (accepts (Some (prevBuf p)) (calls o ks st)) = true.
Proof.
  induction ks as [|k ks IH]; intros st Hin Hne Hq Hclk.
  - simpl. rewrite accepts_eq by now apply falsy_Some. simpl.
    apply accepted_previous; [exact Hin | apply Hclk; simpl; lia].
  - unfold quiet in Hq. simpl in Hq. apply andb_true_iff in Hq as [Hk Hq].
    simpl calls. apply IH; auto.
    + destruct k as [cand| |]; simpl in Hk; try discriminate; unfold call.
      * destruct (falsy cand) eqn:F;
          [now rewrite accepts_falsy | now rewrite accepts_eq].
      * rewrite rotating_prune_eq. simpl. apply filter_In. split; auto.
        specialize (Hclk 0%nat ltac:(lia)).
        destruct (Z.gtb_spec (reading st 0) (prevExpiresAt p)); auto; lia.
    + intros i Hi.
      assert (H1 : reading st i <= prevExpiresAt p) by (apply Hclk; simpl; lia).
      assert (H2 : reading st (S i) <= prevExpiresAt p) by (apply Hclk; simpl; lia).
      assert (E : forall w c pr, reading (mkStore (tick w) c pr) i
                                 = clock w (ticks w + S i)).
      { intros. unfold reading. simpl. f_equal. lia. }
      destruct k as [cand| |]; simpl in Hk; try discriminate; unfold call.
      * destruct (falsy cand) eqn:F;
          [now rewrite accepts_falsy | rewrite accepts_eq by auto].
        simpl. rewrite E. exact H2.
      * rewrite rotating_prune_eq. simpl. rewrite E. exact H2.
Qed.

(** *** After the grace window *)

Lemma lapsing_call o c g k st : lapsing c g st -> lapsing c g (call o k st).
Proof.
  intros (Hcur & Hprev & Hgen & Hf).
  destruct k as [cand| |]; unfold call.
  - destruct (falsy cand) eqn:F;
      [rewrite accepts_falsy by auto | rewrite accepts_eq by auto];
      (split; [|split; [|split]]); simpl; auto.
  - rewrite rotate_eq. split; [|split; [|split]]; simpl.
    + unfold Buffer_from. destruct Hgen as (i & Hi & <-). intros E.
      apply Hf in E. unfold next_token in *. lia.
    + intros q Hq Hc. apply In_cap_oldest, in_app_or in Hq.
      destruct Hq as [Hq|[<-|[]]]; auto. simpl in Hc. tauto.
    + destruct Hgen as (i & Hi & <-). exists i. simpl. split; auto.
    + exact Hf.
  - rewrite rotating_prune_eq. split; [|split; [|split]]; simpl; auto.
    intros q Hq. apply filter_In in Hq as [Hq _]. auto.
Qed.

Lemma lapsing_calls o c g ks : forall st,
  lapsing c g st -> lapsing c g (calls o ks st).
Proof.
  induction ks as [|k ks IH]; intros st H; simpl; auto.
  apply IH. now apply lapsing_call.
Qed.

Lemma lapsing_rejected c g st :
  lapsing c g st -> reading st 0 > g -> fst (accepts (Some c) st) = false.
Proof.
  intros (Hcur & Hprev & _ & _) Hn.
  destruct (falsy (Some c)) eqn:F; [now rewrite accepts_falsy|].
  rewrite accepts_eq by auto. simpl. unfold accepted_at.
  rewrite (sameBuf_neq c (tokenBuf (current st))) by congruence.
  rewrite andb_false_r. simpl.
  destruct (existsb _ _) eqn:E; auto.
  apply existsb_exists in E as (q & Hq & Hqa).
  apply andb_true_iff in Hqa as [Hle Hsame].
  apply Z.leb_le in Hle. apply sameBuf_eq in Hsame.
  specialize (Hprev q Hq (eq_sym Hsame)). lia.
Qed.

Lemma NoDup_map_inj {A B} (f : A -> B) l a b :
  NoDup (map f l) -> In a l -> In b l -> f a = f b -> a = b.
Proof.
  induction l as [|x l IH]; simpl; [tauto|].
  intros H Ha Hb E. inversion H as [|? ? Hx Hl]; subst.
  destruct Ha as [->|Ha], Hb as [->|Hb]; auto.
  - exfalso. apply Hx. rewrite E. now apply in_map.
  - exfalso. apply Hx. rewrite <- E. now apply in_map.
Qed.

Lemma NoDup_snoc {A} (x : A) l : NoDup (x :: l) -> NoDup (l ++ [x]).
Proof.
  intros H. inversion H; subst. apply NoDup_app; auto.
  - constructor; [simpl; tauto|constructor].
  - intros a Ha [<-|[]]. auto.
Qed.

(** Right after a rotation every retained token is on its way out:
    it is not the new current token and is retained once. *)
Lemma rotate_lapsing o s p :
  fresh_source (world s) -> wf s ->
  In p (previous (snd (rotate o s))) ->
  lapsing (prevBuf p) (prevExpiresAt p) (snd (rotate o s)).
Proof.
  intros Hf [Hnd Hgen]. rewrite rotate_eq. simpl. intros Hp.
  set (demoted := mkPrevious _ _) in *.
  assert (Hall : forall q, In q (cap_oldest (maxPreviousTokens o) (previous s ++ [demoted])) ->
                           In q (previous s ++ [demoted]))
    by (intros q; apply In_cap_oldest).
  assert (Hnd' : NoDup (map prevBuf (previous s ++ [demoted])))
    by (rewrite map_app; simpl; now apply NoDup_snoc).
  assert (Hg : generated s (prevBuf p)).
  { apply Hgen. apply Hall, in_app_or in Hp as [Hp|[<-|[]]].
    - right. now apply in_map.
    - left. reflexivity. }
  split; [|split; [|split]]; simpl.
  - unfold Buffer_from. destruct Hg as (i & Hi & <-). intros E.
    apply Hf in E. unfold next_token in *. lia.
  - intros q Hq E.
    rewrite (NoDup_map_inj prevBuf _ q p Hnd'); auto; lia.
  - destruct Hg as (i & Hi & <-). exists i. simpl. split; auto.
  - exact Hf.
Qed.

Lemma rotating_wf_create o a prefix clk :
  wf (create o (test_world clk (String a prefix))).
Proof.
  split; simpl.
  - constructor; [simpl; tauto|constructor].
  - intros c [<-|[]]. exists 0%nat. simpl. split; [lia|reflexivity].
Qed.

(** C2 (as amended). A rotation demotes the current token and keeps
    the most recent [maxPreviousTokens] of the retained ones; older
    ones are evicted whatever their grace window.  With a cap of at
    least one the token that was current is retained.  Every token
    retained after the rotation stays accepted, through calls of
    [accepts] and [prune], as long as no clock reading has passed its
    own grace expiry (which a rotation sets once and never extends),
    and is rejected, whatever calls come in between, at every reading
    past that expiry. *)
Theorem rotation_continuity o s :
  fresh_source (world s) -> wf s ->
  let s' := snd (rotate o s) in
  let demoted := mkPrevious (tokenBuf (current s))
                            (reading s 0 + previousTokenTtlMs o) in
  previous s' = survivors (maxPreviousTokens o) (previous s ++ [demoted]) /\
  (1 <= maxPreviousTokens o -> In demoted (previous s')) /\
  (forall p, In p (previous s') ->
     (forall ks, quiet ks ->
        (forall i, (i <= List.length ks)%nat -> reading s' i <= prevExpiresAt p) ->
        fst (accepts (Some (prevBuf p)) (calls o ks s')) = true) /\
     (forall ks, reading (calls o ks s') 0 > prevExpiresAt p ->
        fst (accepts (Some (prevBuf p)) (calls o ks s')) = false)).
Proof.
  intros Hf Hwf s' demoted.
  assert (Hprev : previous s' = cap_oldest (maxPreviousTokens o) (previous s ++ [demoted]))
    by (unfold s'; rewrite rotate_eq; reflexivity).
  split; [|split].
  - rewrite Hprev. apply cap_oldest_skipn.
  - intros HM. rewrite Hprev. now apply cap_oldest_last.
  - intros p Hp.
    pose proof (rotate_lapsing o s p Hf Hwf Hp) as Hl. fold s' in Hl.
    split.
    + intros ks Hq Hclk. apply quiet_accepts; auto.
      destruct Hl as (_ & _ & (i & _ & <-) & Hf'). apply Hf'.
    + intros ks Hn. apply (lapsing_rejected _ (prevExpiresAt p)); auto.
      now apply lapsing_calls.
Qed.

Lemma rotation_continuity_witness :
  let o := mkOptions 100 1000 1 in
  let s := create o (test_world (fun _ => 1000) "token-") in
  let s' := snd (rotate o s) in
  let demoted := mkPrevious (tokenBuf (current s))
                            (reading s 0 + previousTokenTtlMs o) in
  previous s' = survivors (maxPreviousTokens o) (previous s ++ [demoted]) /\
  (1 <= maxPreviousTokens o -> In demoted (previous s')) /\
  (forall p, In p (previous s') ->
     (forall ks, quiet ks ->
        (forall i, (i <= List.length ks)%nat -> reading s' i <= prevExpiresAt p) ->
        fst (accepts (Some (prevBuf p)) (calls o ks s')) = true) /\
     (forall ks, reading (calls o ks s') 0 > prevExpiresAt p ->
        fst (accepts (Some (prevBuf p)) (calls o ks s')) = false)).
Proof.
  intros o s. apply (rotation_continuity o s).
  - apply test_world_fresh.
  - apply rotating_wf_create.
Defined.

(** C2 (as stated) fails under the reference cap of one retained
    token: a previous token that [accepts] takes immediately before a
    rotation is evicted by that rotation and refused immediately after
    it, inside its grace window. *)
Lemma previous_token_evicted_within_grace :
  let o := mkOptions 600000 60000 1 in
  let s0 := create o (test_world (fun _ => 1000) "token-") in
  let s1 := snd (rotate o s0) in
  let (before, s2) := accepts (Some "token-0") s1 in
  let s3 := snd (rotate o s2) in
  let (after, _) := accepts (Some "token-0") s3 in
  previous s1 = [mkPrevious "token-0" 61000] /\
  before = true /\ reading s3 0 <= 61000 /\ after = false.
Proof. vm_compute. intuition discriminate. Qed.

(** The scenario of the specification: tokenTtl = 100 ms, grace =
    1000 ms; accepts(initial); 150 ms later rotate() and
    accepts(initial); 1100 ms later prune() and accepts(initial). *)
Example rotation_under_load :
  let o := mkOptions 100 1000 1 in
  let clk := fun i : nat => if (i <? 2)%nat then 1000
                            else if (i <? 5)%nat then 1150 else 2250 in
  let s0 := create o (test_world clk "token-") in
  let (a0, s1) := accepts (Some "token-0") s0 in
  let s2 := snd (rotate o s1) in
  let (a1, s3) := accepts (Some "token-0") s2 in
  let s4 := snd (prune s3) in
  let (a2, _) := accepts (Some "token-0") s4 in
  (a0, a1, a2, List.length (previous s4)) = (true, true, false, 0%nat).
Proof. vm_compute. reflexivity. Qed.
End RotatingFacts.

(** ** Strings and request bodies *)

Module TextFacts.
Import ServerSpec.
Import Server.

Lemma length_append a b :
  String.length (a ++ b) = (String.length a + String.length b)%nat.
Proof. induction a as [|x a IH]; simpl; [reflexivity|now rewrite IH]. Qed.

Lemma append_nil_r a : (a ++ "")%string = a.
Proof. induction a as [|x a IH]; simpl; [reflexivity|now rewrite IH]. Qed.

Lemma append_assoc a b c : ((a ++ b) ++ c)%string = (a ++ b ++ c)%string.
Proof. induction a as [|x a IH]; simpl; [reflexivity|now rewrite IH]. Qed.

Lemma prefix_append p t : String.prefix p (p ++ t) = true.
Proof.
  induction p as [|x p IH]; simpl; [now destruct t|].
  destruct (ascii_dec x x); [exact IH|contradiction].
Qed.

Lemma substring_all t : substring 0 (String.length t) t = t.
Proof. induction t as [|x t IH]; simpl; [reflexivity|now rewrite IH]. Qed.

Lemma slice_append p t : slice (String.length p) (p ++ t) = t.
Proof.
  unfold slice. rewrite length_append.
  replace (String.length p + String.length t - String.length p)%nat
    with (String.length t) by lia.
  induction p as [|x p IH]; simpl; [apply substring_all|exact IH].
Qed.

Lemma concat_cons x xs :
  String.concat "" (x :: xs) = (x ++ String.concat "" xs)%string.
Proof. destruct xs; simpl; [now rewrite append_nil_r|reflexivity]. Qed.

Lemma length_utf16_append a b :
  length_utf16 (a ++ b) = (length_utf16 a + length_utf16 b)%nat.
Proof.
  induction a as [|x a IH]; [reflexivity|].
  cbn [append length_utf16]. rewrite IH. lia.
Qed.

Lemma toString_ascii s : isAscii s = true -> toString_utf8 s = s.
Proof.
  unfold toString_utf8, isAscii.
  induction s as [|b s IH]; [reflexivity|].
  cbn [list_ascii_of_string forallb]. intros H.
  apply andb_true_iff in H as [Hb Hs].
  cbn [toString_from]. unfold leadByte.
  apply Nat.ltb_lt in Hb.
  destruct (Nat.leb_spec (nat_of_ascii b) 127) as [_|Hgt]; [|lia].
  now rewrite IH.
Qed.

Lemma length_utf16_ascii s : isAscii s = true -> length_utf16 s = String.length s.
Proof.
  unfold isAscii. induction s as [|b s IH]; [reflexivity|].
  cbn [list_ascii_of_string forallb]. intros H.
  apply andb_true_iff in H as [Hb Hs].
  cbn [length_utf16 String.length]. rewrite Hb, IH by exact Hs. reflexivity.
Qed.

Lemma isAscii_append a b : isAscii a = true -> isAscii b = true -> isAscii (a ++ b) = true.
Proof.
  unfold isAscii. induction a as [|x a IH]; [auto|].
  cbn [append list_ascii_of_string forallb]. intros H Hb.
  apply andb_true_iff in H as [Hx Ha]. rewrite Hx. now apply IH.
Qed.

Lemma isAscii_concat chunks :
  forallb isAscii chunks = true -> isAscii (String.concat "" chunks) = true.
Proof.
  induction chunks as [|x xs IH]; [reflexivity|].
  cbn [forallb]. intros H. apply andb_true_iff in H as [Hx Hxs].
  rewrite concat_cons. apply isAscii_append; auto.
Qed.

Lemma map_toString_ascii chunks :
  forallb isAscii chunks = true -> map toString_utf8 chunks = chunks.
Proof.
  induction chunks as [|x xs IH]; [reflexivity|].
  cbn [forallb map]. intros H. apply andb_true_iff in H as [Hx Hxs].
  now rewrite toString_ascii, IH.
Qed.

(** The ['data'] handler stops at the first chunk that takes the
    decoded text past the cap, and the text only grows. *)
Lemma receive_spec chunks : forall raw,
  (length_utf16 raw <= 8 * 1024)%nat ->
  snd (receive raw chunks)
  = (8 * 1024 <? length_utf16 (raw ++ String.concat "" (map toString_utf8 chunks)))%nat /\
  (snd (receive raw chunks) = false ->
   fst (receive raw chunks) = (raw ++ String.concat "" (map toString_utf8 chunks))%string).
Proof.
  induction chunks as [|chunk rest IH]; intros raw Hraw.
  - cbn [receive snd fst String.concat map]. rewrite append_nil_r.
    split; [|reflexivity]. symmetry. apply Nat.ltb_ge. exact Hraw.
  - cbn [map]. rewrite concat_cons, <- append_assoc. cbn [receive].
    destruct (8 * 1024 <? length_utf16 (raw ++ toString_utf8 chunk))%nat eqn:E.
    + cbn [snd fst]. split; [|discriminate].
      symmetry. apply Nat.ltb_lt. apply Nat.ltb_lt in E.
      rewrite length_utf16_append. lia.
    + apply IH. now apply Nat.ltb_ge.
Qed.

End TextFacts.

(** ** ConnectionGateway *)

Module GatewayFacts.
Import GatewaySpec.
Import Server.

Lemma onMessage_authed opts ws msg g c :
  findConn ws (clients g) = Some c -> authed c = true ->
  onMessage opts ws (Some msg) g =
  match msg with
  | Auth _ => (tt, g)
  | Input id data => emit (WriteToAgent id data) g
  | Resize id c r => emit (ResizeAgent id c r) g
  | Kill id => emit (KillAgent id) g
  | Subscribe id => onSubscribe ws id g
  | Unsubscribe id => onUnsubscribe ws id g
  end.
Proof.
  intros Hc Ha. unfold onMessage, bind, gets. rewrite Hc, Ha.
  destruct msg; reflexivity.
Qed.


Lemma onSubscribe_new ws id g c :
  findConn ws (clients g) = Some c -> subs_has id (subs c) = false ->
  onSubscribe ws id g =
  (tt,
   let cb := mkCallback (objects g) ws id in
   let res := subscribeToAgent id cb (pty g) in
   mkGateway (world g) (current g) (previous g) (entries g)
     (if fst res then noteSubscription ws id cb (clients g) else clients g)
     (authedClients g) (snd res) (ips g) (S (objects g))
     (log g ++ replay ws (readyState c) id (pty g)
            ++ [SubscribeToAgent id cb (fst res)])).
Proof.
  intros Hc Hs. unfold onSubscribe, bind, subsOf, gets. rewrite Hc, Hs.
  unfold replay, ws_send, readyStateOf, bind, gets, truthy, falsy.
  destruct (getAgentScrollback id (pty g)) as [data|]; simpl.
  - destruct (String.eqb data ""); simpl.
    + destruct (subscribeToAgent _ _ _) as [[] p']; reflexivity.
    + rewrite Hc. destruct (isOpen (readyState c)); simpl;
        destruct (subscribeToAgent _ _ _) as [[] p']; simpl;
        rewrite <- ?app_assoc; reflexivity.
  - destruct (subscribeToAgent _ _ _) as [[] p']; reflexivity.
Qed.

(** C10. A [subscribe] for a session the connection is not yet
    subscribed to sends the scrollback message only when the buffered
    scrollback is neither unavailable nor empty, and in any case goes
    on to attempt the installation of the live callback; the
    scrollback message, when there is one, precedes that attempt. *)
Theorem subscribe_scrollback_then_callback opts g ws c id :
  findConn ws (clients g) = Some c -> authed c = true ->
  subs_has id (subs c) = false ->
  let g' := snd (onMessage opts ws (Some (Subscribe id)) g) in
  let cb := mkCallback (objects g) ws id in
  log g' =
  log g
  ++ (match getAgentScrollback id (pty g) with
      | None => []
      | Some data =>
          if String.eqb data "" then []
          else if isOpen (readyState c)
          then [Send ws (MsgScrollback id data (getAgentCols id (pty g)))]
          else []
      end)
  ++ [SubscribeToAgent id cb (fst (subscribeToAgent id cb (pty g)))].
Proof.
  intros Hc Ha Hs. cbv zeta.
  rewrite (onMessage_authed opts ws _ g c Hc Ha).
  rewrite (onSubscribe_new ws id g c Hc Hs). reflexivity.
Qed.

Example connected_client :
  findConn 0 (clients Fixture.connected)
  = Some (mkConnection 0 OPEN true false []).
Proof. vm_compute. reflexivity. Qed.

Example pending_client :
  findConn 0 (clients Fixture.pending)
  = Some (mkConnection 0 OPEN false true []).
Proof. vm_compute. reflexivity. Qed.

Lemma subscribe_scrollback_then_callback_witness :
  let g := Fixture.connected in
  let g' := snd (onMessage Fixture.opts 0 (Some (Subscribe "a1")) g) in
  let cb := mkCallback (objects g) 0 "a1" in
  log g' =
  log g
  ++ (match getAgentScrollback "a1" (pty g) with
      | None => []
      | Some data =>
          if String.eqb data "" then []
          else if isOpen (readyState (mkConnection 0 OPEN true false []))
          then [Send 0 (MsgScrollback "a1" data (getAgentCols "a1" (pty g)))]
          else []
      end)
  ++ [SubscribeToAgent "a1" cb (fst (subscribeToAgent "a1" cb (pty g)))].
Proof.
  apply (subscribe_scrollback_then_callback Fixture.opts Fixture.connected 0
           (mkConnection 0 OPEN true false []) "a1");
    [apply connected_client | reflexivity | reflexivity].
Defined.

(** The three cases of the replay on the fixture: scrollback "hello",
    empty scrollback, unknown session. *)
Example subscribe_replay_cases :
  let new g id := skipn (List.length (log g))
                    (log (snd (onMessage Fixture.opts 0 (Some (Subscribe id)) g))) in
  new Fixture.connected "a1"
  = [Send 0 (MsgScrollback "a1" "hello" 80);
     SubscribeToAgent "a1" (mkCallback 1 0 "a1") true] /\
  new Fixture.connected "a2"
  = [SubscribeToAgent "a2" (mkCallback 1 0 "a2") true] /\
  new Fixture.connected "zz"
  = [SubscribeToAgent "zz" (mkCallback 1 0 "zz") false].
Proof. vm_compute. auto. Qed.

(** *** The log *)

Lemma add_log_nil g : add_log [] g = g.
Proof. destruct g. unfold add_log. simpl. now rewrite app_nil_r. Qed.

Lemma add_log_app l1 l2 g : add_log l2 (add_log l1 g) = add_log (l1 ++ l2) g.
Proof. unfold add_log. simpl. now rewrite app_assoc. Qed.

Lemma emit_eq e g : emit e g = (tt, add_log [e] g).
Proof. reflexivity. Qed.

Lemma ws_send_eq ws msg g :
  ws_send ws msg g =
  (tt, add_log (if isOpen (readyStateIn g ws) then [Send ws msg] else []) g).
Proof.
  unfold ws_send, readyStateOf, bind, gets, readyStateIn.
  destruct (isOpen _); simpl; [reflexivity | now rewrite add_log_nil].
Qed.

(** A loop whose body only writes to the log, and writes the same
    whatever the log holds. *)
Lemma forEach_log {A} (out : A -> Gateway -> list Effect)
      (body : A -> State Gateway unit) (l : list A) :
  (forall x g, body x g = (tt, add_log (out x g) g)) ->
  (forall x g k, out x (add_log k g) = out x g) ->
  forall g, forEach l body g = (tt, add_log (flat_map (fun x => out x g) l) g).
Proof.
  intros Hb Hout. induction l as [|x l IH]; intros g; simpl.
  - now rewrite add_log_nil.
  - unfold bind. rewrite Hb, IH, add_log_app. do 2 f_equal.
    f_equal. apply flat_map_ext. intros a. apply Hout.
Qed.


(** *** Subscriptions *)

Lemma findConn_map ws f cs c :
  (forall x, conn_ws (f x) = conn_ws x) ->
  findConn ws cs = Some c ->
  findConn ws (map (fun x => if Nat.eqb (conn_ws x) ws then f x else x) cs)
  = Some (f c).
Proof.
  intros Hf. unfold findConn. induction cs as [|x cs IH]; simpl; [discriminate|].
  destruct (Nat.eqb (conn_ws x) ws) eqn:E.
  - intros [= ->]. simpl. now rewrite Hf, E.
  - intros H. simpl. rewrite E. auto.
Qed.






(** *** Token messages *)

Lemma currentUrls_pure opts g : snd (currentUrls opts g) = g.
Proof. reflexivity. Qed.

Lemma sendTokenMessage_false opts ws g :
  sendTokenMessage opts ws false g = (tt, add_log (tokenFrame opts g None ws) g).
Proof.
  unfold sendTokenMessage, issueTokenPayload, bind, gets, ret.
  simpl. rewrite ws_send_eq. reflexivity.
Qed.

Lemma rotateToken_eq opts g :
  rotateToken opts g =
  (tt,
   let g1 := snd (tokenStore (RotatingTokenStore.rotate tokenOptions) g) in
   add_log (flat_map (tokenFrame opts g1 None) (authedClients g1)) g1).
Proof.
  unfold rotateToken, bind at 1.
  destruct (tokenStore _ g) as [[] g1]. unfold bind, gets. simpl snd.
  apply (forEach_log (fun ws g => tokenFrame opts g None ws)).
  - intros ws g0. unfold bind, readyStateOf, gets, when.
    fold (readyStateIn g0 ws).
    destruct (isOpen (readyStateIn g0 ws)) eqn:E.
    + apply sendTokenMessage_false.
    + unfold tokenFrame, ret. rewrite E. now rewrite add_log_nil.
  - reflexivity.
Qed.

Lemma issue_on_gateway g :
  refreshStore (RefreshSessionStore.issue refreshOptions) g =
  (entropy (world g) (draws (world g)),
   mkGateway (tick (draw (tick (world g)))) (current g) (previous g)
     (cap_oldest MAX_REFRESH_TOKENS
        (filter (RefreshSpec.alive (clock (world g) (ticks (world g)))) (entries g)
         ++ [RefreshSessionStore.mkEntry
               (entropy (world g) (draws (world g)))
               (clock (world g) (S (ticks (world g))) + REFRESH_TOKEN_TTL_MS)]))
     (clients g) (authedClients g) (pty g) (ips g) (objects g) (log g)).
Proof.
  unfold refreshStore. rewrite RefreshFacts.issue_eq.
  unfold RefreshSpec.next_token, RefreshSpec.reading. simpl.
  rewrite Nat.add_0_r, Nat.add_1_r. reflexivity.
Qed.

Lemma sendTokenMessage_true opts ws g :
  sendTokenMessage opts ws true g =
  (tt,
   let r := entropy (world g) (draws (world g)) in
   add_log (tokenFrame opts g (Some r) ws)
           (snd (refreshStore (RefreshSessionStore.issue refreshOptions) g))).
Proof.
  unfold sendTokenMessage, issueTokenPayload, currentUrls, bind, gets, ret.
  cbv beta iota zeta. rewrite issue_on_gateway. rewrite ws_send_eq. reflexivity.
Qed.

(** [accepts] only consumes a clock reading. *)
Lemma accepts_on_gateway c g :
  exists w',
    tokenStore (RotatingTokenStore.accepts c) g =
    (fst (tokenStore (RotatingTokenStore.accepts c) g),
     mkGateway w' (current g) (previous g) (entries g) (clients g)
       (authedClients g) (pty g) (ips g) (objects g) (log g)) /\
    clock w' = clock (world g) /\
    entropy w' = entropy (world g) /\ draws w' = draws (world g).
Proof.
  unfold tokenStore. destruct (falsy c) eqn:F.
  - rewrite RotatingFacts.accepts_falsy by auto. simpl.
    exists (world g). repeat split.
  - rewrite RotatingFacts.accepts_eq by auto. simpl.
    exists (tick (world g)). repeat split.
Qed.

(** What a connection is sent on entering Authenticated: the roster,
    then the credential pair with a refresh token issued for it. *)
Lemma announce_eq opts ws g :
  (sendAgentList opts ws ;;; sendTokenMessage opts ws true) g =
  (tt,
   let g1 := add_log (agentsFrame opts g ws) g in
   add_log (tokenFrame opts g1 (Some (entropy (world g) (draws (world g)))) ws)
           (snd (refreshStore (RefreshSessionStore.issue refreshOptions) g1))).
Proof.
  unfold bind at 1. unfold sendAgentList, bind, gets.
  rewrite ws_send_eq, sendTokenMessage_true. reflexivity.
Qed.


Lemma onMessage_auth opts ws tok g c :
  findConn ws (clients g) = Some c -> authed c = false ->
  fst (tokenStore (RotatingTokenStore.accepts (Some tok)) g) = true ->
  exists g2,
    onMessage opts ws (Some (Auth tok)) g =
    (sendAgentList opts ws ;;; sendTokenMessage opts ws true) g2 /\
    log g2 = log g /\ pty g2 = pty g /\ ips g2 = ips g /\ current g2 = current g /\
    entropy (world g2) = entropy (world g) /\
    draws (world g2) = draws (world g) /\
    readyStateIn g2 ws = readyState c.
Proof.
  intros Hc Ha Hok.
  destruct (accepts_on_gateway (Some tok) g) as (w' & Hacc & _ & He & Hd).
  unfold onMessage, bind at 1, gets at 1. rewrite Hc, Ha.
  change (negb false) with true. cbv iota.
  unfold bind at 1. rewrite Hacc, Hok.
  change (negb true) with false. cbv iota.
  unfold updateConn, modify. unfold bind at 1 2 3.
  eexists. split; [reflexivity|]. simpl.
  repeat split; auto.
  unfold readyStateIn. simpl.
  rewrite (findConn_map ws (set_authTimeout false) _ (set_authed true c)); auto.
  now apply (findConn_map ws (set_authed true)).
Qed.


Lemma flat_map_if {A B} (P : A -> bool) (f : A -> B) l :
  flat_map (fun x => if P x then [f x] else []) l = map f (filter P l).
Proof.
  induction l as [|x l IH]; simpl; auto.
  destruct (P x); simpl; now rewrite IH.
Qed.



Lemma log_add_log l g : log (add_log l g) = log g ++ l.
Proof. reflexivity. Qed.


(** *** POST /api/auth/refresh *)

Lemma exchange_refused o c s :
  (forall i, entropy (RefreshSessionStore.world s) i <> "") ->
  falsy (fst (RefreshSessionStore.exchange o c s)) = true ->
  draws (RefreshSessionStore.world (snd (RefreshSessionStore.exchange o c s)))
  = draws (RefreshSessionStore.world s) /\
  forall e, In e (RefreshSessionStore.entries (snd (RefreshSessionStore.exchange o c s))) ->
            In e (RefreshSessionStore.entries s).
Proof.
  intros Hne. destruct (falsy c) eqn:F.
  - rewrite RefreshFacts.exchange_falsy by auto. simpl. auto.
  - rewrite RefreshFacts.exchange_eq by auto. cbv zeta.
    destruct (RefreshSessionStore.findIdx _ _ _) as [i|].
    + rewrite RefreshFacts.issue_eq. simpl. intros H.
      apply String.eqb_eq in H. unfold RefreshSpec.next_token in H. simpl in H.
      now apply Hne in H.
    + simpl. intros _. split; auto. intros e He.
      now apply filter_In in He.
Qed.

Lemma onRefreshRequest_eq opts JSON_refreshToken req g :
  onRefreshRequest opts JSON_refreshToken req g =
  if oversized req then
    (tt, add_log (DestroyRequest ::
                  match bodyEnd req with
                  | Errored => [WriteJson 400 jsonHeaders (ErrorBody "bad request") true]
                  | Ended => []
                  end) g)
  else
    match bodyEnd req with
    | Errored => (tt, add_log [WriteJson 400 jsonHeaders (ErrorBody "bad request") false] g)
    | Ended => onBodyEnd opts JSON_refreshToken (fst (receive "" (chunks req))) g
    end.
Proof.
  unfold onRefreshRequest, oversized.
  destruct (receive "" (chunks req)) as [raw [|]]; simpl;
    destruct (bodyEnd req); try reflexivity.
  unfold bind, emit, writeJson, emit, modify, add_log. simpl.
  now rewrite <- app_assoc.
Qed.

Lemma onBodyEnd_invalid opts JSON_refreshToken raw g :
  JSON_refreshToken raw = None ->
  onBodyEnd opts JSON_refreshToken raw g =
  (tt, add_log [WriteJson 400 jsonHeaders (ErrorBody "invalid json") false] g).
Proof. intros H. unfold onBodyEnd. now rewrite H. Qed.

Lemma onBodyEnd_refused opts JSON_refreshToken raw g refreshToken_ :
  JSON_refreshToken raw = Some refreshToken_ ->
  falsy (fst (refreshStore
                (RefreshSessionStore.exchange refreshOptions refreshToken_) g)) = true ->
  onBodyEnd opts JSON_refreshToken raw g =
  (tt, add_log [WriteJson 401 jsonHeaders (ErrorBody "unauthorized") false]
         (snd (refreshStore
                 (RefreshSessionStore.exchange refreshOptions refreshToken_) g))).
Proof.
  intros H F. unfold onBodyEnd. rewrite H. unfold bind at 1.
  destruct (refreshStore _ g) as [r g1]. simpl in F. now rewrite F.
Qed.

(** C3 (as amended). A refresh request that does not take the path
    of the 200 reply issues nothing: the generator is not consulted,
    the refresh store gains no entry, the access-token store is not
    rotated, and whatever is written is a 400 or a 401 with an error
    body.  When the body is read to its end within the cap, exactly
    one such reply goes out on the live connection: 400 for a body
    that is not JSON, 401 for a missing, unknown, consumed or expired
    refresh token.  When the body exceeds the cap the request is
    destroyed, and no reply is written to a live connection. *)
Theorem refresh_failure_issues_nothing opts JSON_refreshToken req g :
  (forall i, entropy (world g) i <> "") ->
  succeeds JSON_refreshToken req g = false ->
  let g' := snd (onRefreshRequest opts JSON_refreshToken req g) in
  draws (world g') = draws (world g) /\
  (forall e, In e (entries g') -> In e (entries g)) /\
  current g' = current g /\ previous g' = previous g /\
  exists delta,
    log g' = log g ++ delta /\
    (forall e, In e delta ->
       e = DestroyRequest \/
       exists st err d,
         e = WriteJson st jsonHeaders (ErrorBody err) d /\ (st = 400 \/ st = 401)) /\
    (oversized req = false -> bodyEnd req = Ended ->
     delta = [match JSON_refreshToken (fst (receive "" (chunks req))) with
              | None => WriteJson 400 jsonHeaders (ErrorBody "invalid json") false
              | Some _ => WriteJson 401 jsonHeaders (ErrorBody "unauthorized") false
              end]) /\
    (oversized req = true -> filter isLiveReply delta = []).
Proof.
  intros Hne Hfail. cbv zeta.
  assert (Hreply : forall st err d, st = 400 \/ st = 401 ->
             forall e, In e [WriteJson st jsonHeaders (ErrorBody err) d] ->
               e = DestroyRequest \/
               exists st err d,
                 e = WriteJson st jsonHeaders (ErrorBody err) d /\ (st = 400 \/ st = 401)).
  { intros st err d Hst e [<-|[]]. right. eauto. }
  rewrite onRefreshRequest_eq. unfold succeeds in Hfail.
  destruct (oversized req) eqn:Hover; simpl negb in Hfail.
  - (* the body exceeded the cap *)
    cbn [snd]. repeat split; auto.
    eexists. split; [reflexivity|].
    split; [|split; [discriminate|]].
    + intros e [<-|He]; [now left|].
      destruct (bodyEnd req); [destruct He|].
      apply (Hreply 400 "bad request" true); auto.
    + intros _. destruct (bodyEnd req); reflexivity.
  - destruct (bodyEnd req) eqn:Hend.
    + (* 'end' *)
      destruct (JSON_refreshToken (fst (receive "" (chunks req))))
        as [refreshToken_|] eqn:Hjson.
      * simpl in Hfail. apply negb_false_iff in Hfail.
        rewrite (onBodyEnd_refused _ _ _ _ _ Hjson Hfail). cbn [snd].
        unfold refreshStore in *.
        pose proof (exchange_refused refreshOptions refreshToken_
                      (RefreshSessionStore.mkStore (world g) (entries g)) Hne) as Hex.
        destruct (RefreshSessionStore.exchange _ _ _) as [r st]. simpl in Hfail, Hex.
        destruct (Hex Hfail) as [Hd Hsub]. simpl.
        repeat split; auto.
        eexists. split; [reflexivity|].
        split; [apply (Hreply 401); auto|]. split; [reflexivity|discriminate].
      * rewrite (onBodyEnd_invalid _ _ _ _ Hjson). simpl. repeat split; auto.
        eexists. split; [reflexivity|].
        split; [apply (Hreply 400); auto|]. split; [reflexivity|discriminate].
    + (* 'error' *)
      simpl. repeat split; auto.
      eexists. split; [reflexivity|].
      split; [apply (Hreply 400); auto|]. split; [discriminate|discriminate].
Qed.

Lemma started_never_empty i : entropy (world Fixture.started) i <> "".
Proof. change (numbered "tok" i <> ""). unfold numbered. simpl. discriminate. Qed.

Lemma refresh_failure_issues_nothing_witness :
  let g := Fixture.started in
  let req := mkRequest ["{"; "}"] Ended in
  let g' := snd (onRefreshRequest Fixture.opts Fixture.parse req g) in
  draws (world g') = draws (world g) /\
  (forall e, In e (entries g') -> In e (entries g)) /\
  current g' = current g /\ previous g' = previous g /\
  exists delta,
    log g' = log g ++ delta /\
    (forall e, In e delta ->
       e = DestroyRequest \/
       exists st err d,
         e = WriteJson st jsonHeaders (ErrorBody err) d /\ (st = 400 \/ st = 401)) /\
    (oversized req = false -> bodyEnd req = Ended ->
     delta = [match Fixture.parse (fst (receive "" (chunks req))) with
              | None => WriteJson 400 jsonHeaders (ErrorBody "invalid json") false
              | Some _ => WriteJson 401 jsonHeaders (ErrorBody "unauthorized") false
              end]) /\
    (oversized req = true -> filter isLiveReply delta = []).
Proof.
  apply (refresh_failure_issues_nothing Fixture.opts Fixture.parse
           (mkRequest ["{"; "}"] Ended) Fixture.started).
  - apply started_never_empty.
  - reflexivity.
Defined.

(** The replies to the failing bodies that are read to their end, and
    the reply to a valid exchange, on a gateway that has issued the
    refresh token tok1 to its one client. *)
Example refresh_replies :
  let g := Fixture.connected in
  let reply body :=
    added g (snd (onRefreshRequest Fixture.opts Fixture.parse (mkRequest [body] Ended) g)) in
  reply "{}" = [WriteJson 401 jsonHeaders (ErrorBody "unauthorized") false] /\
  reply "rt=nope" = [WriteJson 401 jsonHeaders (ErrorBody "unauthorized") false] /\
  reply "rt=" = [WriteJson 401 jsonHeaders (ErrorBody "unauthorized") false] /\
  reply "garbage" = [WriteJson 400 jsonHeaders (ErrorBody "invalid json") false] /\
  reply "rt=tok1"
  = [WriteJson 200 jsonHeaders
       (TokenBody (mkPayload "tok0" 601000 (Some "tok2")
                     "http://127.0.0.1:7777/?token=tok0" None None)) false].
Proof. vm_compute. repeat split. Qed.

(** C3 (as stated) fails for an oversized body: the handler destroys
    the request and writes nothing; if the runtime then raises
    ['error'], the 400 is written to the destroyed socket.  Either way
    no 400 or 401 reaches the client. *)
Lemma oversized_refresh_gets_no_reply :
  let g := Fixture.started in
  let big := Fixture.replicate (8 * 1024 + 1) "a" in
  let reply ending :=
    added g (snd (onRefreshRequest Fixture.opts Fixture.parse (mkRequest [big] ending) g)) in
  reply Ended = [DestroyRequest] /\
  reply Errored
  = [DestroyRequest; WriteJson 400 jsonHeaders (ErrorBody "bad request") true] /\
  filter isLiveReply (reply Ended) = [] /\
  filter isLiveReply (reply Errored) = [].
Proof. vm_compute. repeat split. Qed.

(** *** Broadcasts *)

Lemma broadcast_eq msg g :
  broadcast msg g =
  (tt, add_log (map (fun c => Send (conn_ws c) msg)
                    (filter (fun c => isOpen (readyStateIn g (conn_ws c))) (clients g)))
               g).
Proof.
  unfold broadcast, bind at 1, gets at 1.
  rewrite <- flat_map_if.
  apply (forEach_log (fun c g => if isOpen (readyStateIn g (conn_ws c))
                                 then [Send (conn_ws c) msg] else [])).
  - intros c g0. unfold bind, readyStateOf, gets, when.
    fold (readyStateIn g0 (conn_ws c)).
    destruct (isOpen _); [reflexivity | now rewrite add_log_nil].
  - reflexivity.
Qed.

(** C4, at the failing input.  The handshake of socket 0 presents
    tok0 while the clock passes its expiry: [verifyClient] accepts it
    at 601000, the ['connection'] handler refuses it at 601001, and
    the connection is open and unauthenticated.  The roster broadcast
    of a spawn and the status broadcast of an exit are both sent to
    it, while a rotation, which goes by [authedClients], skips it. *)
Theorem broadcast_reaches_unauthenticated :
  let g := Fixture.pending in
  findConn 0 (clients g) = Some (mkConnection 0 OPEN false true []) /\
  authedClients g = [] /\
  added g (snd (onSpawn Fixture.opts g))
  = [Send 0 (MsgAgents [mkAgent "a1" "T1" "T1" running None "";
                        mkAgent "a2" "T2" "T2" running None ""])] /\
  added g (snd (onExit "a1" (Some 0) g))
  = [Send 0 (MsgStatus "a1" exited (Some 0)); SetRosterTimeout 100] /\
  added g (snd (rotateToken Fixture.opts g)) = [].
Proof. vm_compute. repeat split. Qed.

Lemma ws_close_open ws code reason g c :
  findConn ws (clients g) = Some c -> readyState c = OPEN ->
  ws_close ws code reason g =
  (tt, set_clients
         (map (fun x => if Nat.eqb (conn_ws x) ws then set_readyState CLOSING x else x)
              (clients g))
         (add_log [Close ws code reason] g)).
Proof.
  intros Hc Ho. unfold ws_close, readyStateOf, bind, gets. rewrite Hc, Ho. reflexivity.
Qed.

Lemma ws_close_state ws code reason g c :
  findConn ws (clients g) = Some c -> readyState c = OPEN ->
  log (snd (ws_close ws code reason g)) = log g ++ [Close ws code reason] /\
  readyStateIn (snd (ws_close ws code reason g)) ws = CLOSING.
Proof.
  intros Hc Ho. rewrite (ws_close_open ws code reason g c Hc Ho).
  split; [reflexivity|].
  unfold readyStateIn, set_clients. cbn [snd clients].
  now rewrite (findConn_map ws (set_readyState CLOSING) _ _ (fun _ => eq_refl) Hc).
Qed.

(** *** The event loop *)

Lemma same_flags_quiet g g' :
  map flags (clients g') = map flags (clients g) ->
  (objects g <= objects g')%nat -> log g' = log g -> same_flags g g'.
Proof.
  intros H1 H2 H3. split; [exact H1|split; [exact H2|]].
  exists []. now rewrite app_nil_r.
Qed.

Lemma same_flags_refl g : same_flags g g.
Proof. apply same_flags_quiet; auto. Qed.

Lemma same_flags_trans g1 g2 g3 :
  same_flags g1 g2 -> same_flags g2 g3 -> same_flags g1 g3.
Proof.
  intros (H1 & H2 & l1 & H3) (H4 & H5 & l2 & H6).
  split; [congruence|split; [lia|]].
  exists (l1 ++ l2). now rewrite H6, H3, app_assoc.
Qed.

Lemma framed_ret {A} (a : A) : framed (ret a).
Proof. intros g. apply same_flags_refl. Qed.

Lemma framed_bind {A B} (m : State Gateway A) (k : A -> State Gateway B) :
  framed m -> (forall a, framed (k a)) -> framed (bind m k).
Proof.
  intros Hm Hk g. unfold bind. specialize (Hm g).
  destruct (m g) as [a g1]. simpl in Hm.
  eapply same_flags_trans; [exact Hm | apply Hk].
Qed.

Lemma framed_gets {A} (f : Gateway -> A) : framed (gets f).
Proof. intros g. apply same_flags_refl. Qed.

Lemma framed_modify f : (forall g, same_flags g (f g)) -> framed (modify f).
Proof. intros H g. apply H. Qed.

Lemma framed_emit e : framed (emit e).
Proof.
  intros g. split; [reflexivity|split; [simpl; lia|]]. exists [e]. reflexivity.
Qed.

Lemma framed_now : framed (@now Gateway _).
Proof. intros g. apply same_flags_quiet; simpl; auto. Qed.

Lemma framed_fresh : framed fresh.
Proof. intros g. apply same_flags_quiet; simpl; auto. Qed.

Lemma framed_when b m : framed m -> framed (when b m).
Proof. intros H. destruct b; [exact H | apply framed_ret]. Qed.

Lemma framed_forEach {A} (l : list A) body :
  (forall x, framed (body x)) -> framed (forEach l body).
Proof.
  intros H. induction l as [|x l IH]; simpl.
  - apply framed_ret.
  - apply framed_bind; auto.
Qed.

Lemma framed_tokenStore {A} (m : State RotatingTokenStore.Store A) :
  framed (tokenStore m).
Proof.
  intros g. unfold tokenStore. destruct (m _) as [a st].
  apply same_flags_quiet; simpl; auto.
Qed.

Lemma framed_refreshStore {A} (m : State RefreshSessionStore.Store A) :
  framed (refreshStore m).
Proof.
  intros g. unfold refreshStore. destruct (m _) as [a st].
  apply same_flags_quiet; simpl; auto.
Qed.

Lemma framed_updateConn ws f :
  (forall c, flags (f c) = flags c) -> framed (updateConn ws f).
Proof.
  intros Hf g. apply same_flags_quiet; simpl; auto.
  rewrite map_map. apply map_ext. intros c. destruct (Nat.eqb _ _); auto.
Qed.

Create HintDb framed.

#[local] Hint Resolve framed_ret framed_gets framed_emit framed_now framed_fresh
  framed_tokenStore framed_refreshStore : framed.

(** Break a handler into its steps. *)
Ltac framed_step :=
  match goal with
  | |- framed (bind _ _) => apply framed_bind; [|intros]
  | |- framed (when _ _) => apply framed_when
  | |- framed (forEach _ _) => apply framed_forEach; intros
  | |- framed (modify _) =>
      apply framed_modify; intros; apply same_flags_quiet; simpl; auto
  | |- framed (updateConn _ _) => apply framed_updateConn; intros; reflexivity
  | |- framed (if ?b then _ else _) => destruct b
  | |- framed (match ?x with _ => _ end) => destruct x
  | |- framed _ => solve [auto with framed]
  end.

Ltac framed_tac := repeat framed_step.

Lemma framed_ws_send ws msg : framed (ws_send ws msg).
Proof. unfold ws_send, readyStateOf. framed_tac. Qed.

Lemma framed_sendAgentList opts ws : framed (sendAgentList opts ws).
Proof. unfold sendAgentList. framed_tac. apply framed_ws_send. Qed.

Lemma framed_sendTokenMessage opts ws b : framed (sendTokenMessage opts ws b).
Proof.
  unfold sendTokenMessage, issueTokenPayload, currentUrls. framed_tac;
    apply framed_ws_send.
Qed.

#[local] Hint Resolve framed_ws_send framed_sendAgentList framed_sendTokenMessage : framed.

Lemma framed_rotateToken opts : framed (rotateToken opts).
Proof. unfold rotateToken, readyStateOf. framed_tac. Qed.

Lemma framed_broadcast msg : framed (broadcast msg).
Proof. unfold broadcast, readyStateOf. framed_tac. Qed.

#[local] Hint Resolve framed_rotateToken framed_broadcast : framed.

Lemma framed_tokenExpiryTimer opts : framed (tokenExpiryTimer opts).
Proof. unfold tokenExpiryTimer. framed_tac. Qed.

Lemma framed_broadcastAgents opts : framed (broadcastAgents opts).
Proof. unfold broadcastAgents. framed_tac. Qed.

Lemma framed_onExit id code : framed (onExit id code).
Proof.
  unfold onExit. apply framed_bind; [auto with framed|intros].
  apply framed_bind; [|intros; auto with framed].
  apply framed_modify. intros g. apply same_flags_quiet; simpl; auto.
  rewrite map_map. reflexivity.
Qed.

Lemma framed_ptySpawned id task cols_ : framed (ptySpawned id task cols_).
Proof. unfold ptySpawned. framed_tac. Qed.

Lemma framed_ptyExited id : framed (ptyExited id).
Proof. unfold ptyExited. framed_tac. Qed.

Lemma framed_onOutput id encoded : framed (onOutput id encoded).
Proof. unfold onOutput, readyStateOf. framed_tac. Qed.

Lemma framed_onRefreshRequest opts JSON_refreshToken req :
  framed (onRefreshRequest opts JSON_refreshToken req).
Proof.
  unfold onRefreshRequest, onBodyEnd, writeJson, currentUrls. framed_tac.
Qed.

Lemma framed_onSubscribe ws id : framed (onSubscribe ws id).
Proof. unfold onSubscribe, subsOf. framed_tac. Qed.

Lemma framed_onUnsubscribe ws id : framed (onUnsubscribe ws id).
Proof. unfold onUnsubscribe, subsOf. framed_tac. Qed.

Lemma Inv_iff g : Inv g <-> InvC (clients g) (objects g).
Proof.
  unfold Inv, InvF, InvC. rewrite map_map. simpl.
  split; intros (Hnd & Hlt & Hp); (split; [exact Hnd|split]).
  - intros c Hc. apply (Hlt (flags c)). now apply in_map.
  - intros c Hc. apply (Hp (flags c)). now apply in_map.
  - intros f Hf. apply in_map_iff in Hf as (c & <- & Hc). now apply Hlt.
  - intros f Hf. apply in_map_iff in Hf as (c & <- & Hc). now apply Hp.
Qed.

Lemma Inv_same_flags g g' : same_flags g g' -> Inv g -> Inv g'.
Proof.
  intros (Hf & Ho & _) (Hnd & Hlt & Hp). unfold Inv. rewrite Hf.
  split; [exact Hnd|split; [|exact Hp]].
  intros f Hin. specialize (Hlt f Hin). lia.
Qed.

Lemma Inv_framed {A} (m : State Gateway A) g : framed m -> Inv g -> Inv (snd (m g)).
Proof. intros Hm. apply Inv_same_flags, Hm. Qed.

Lemma map_conn_ws_updated ws f cs :
  (forall c, conn_ws (f c) = conn_ws c) ->
  map conn_ws (updated ws f cs) = map conn_ws cs.
Proof.
  intros Hf. unfold updated. rewrite map_map. apply map_ext.
  intros c. destruct (Nat.eqb _ _); auto.
Qed.

Lemma InvC_updated cs n ws f :
  NoDup (map conn_ws cs) ->
  (forall c, In c cs -> (conn_ws c < n)%nat) ->
  (forall c, In c cs -> conn_ws c <> ws -> pendingC c) ->
  (forall c, conn_ws (f c) = conn_ws c) ->
  (forall c, In c cs -> conn_ws c = ws -> pendingC (f c)) ->
  InvC (updated ws f cs) n.
Proof.
  intros Hnd Hlt Hp Hf Hpf. split; [|split].
  - now rewrite map_conn_ws_updated.
  - intros c Hc. apply in_map_iff in Hc as (c0 & <- & Hc0).
    destruct (Nat.eqb _ _); [rewrite Hf|]; auto.
  - intros c Hc. apply in_map_iff in Hc as (c0 & <- & Hc0).
    destruct (Nat.eqb_spec (conn_ws c0) ws); auto.
Qed.

Lemma updated_updated ws f h cs :
  (forall c, conn_ws (f c) = conn_ws c) ->
  updated ws h (updated ws f cs) = updated ws (fun c => h (f c)) cs.
Proof.
  intros Hf. unfold updated. rewrite map_map. apply map_ext. intros c.
  destruct (Nat.eqb (conn_ws c) ws) eqn:E; [now rewrite Hf, E | now rewrite E].
Qed.

Lemma findConn_In ws cs c : findConn ws cs = Some c -> In c cs /\ conn_ws c = ws.
Proof.
  unfold findConn. intros H. apply find_some in H as [Hin He].
  split; auto. now apply Nat.eqb_eq.
Qed.

Lemma findConn_unique ws cs c x :
  NoDup (map conn_ws cs) -> findConn ws cs = Some c ->
  In x cs -> conn_ws x = ws -> x = c.
Proof.
  intros Hnd Hc Hx Hw. apply findConn_In in Hc as [Hc Hcw].
  apply (RotatingFacts.NoDup_map_inj conn_ws cs); auto. congruence.
Qed.

Lemma Inv_clients g cs :
  InvC cs (objects g) -> Inv (set_clients cs g).
Proof. intros H. now apply Inv_iff. Qed.

(** ['close'] *)
Lemma Inv_onClose ws g : Inv g -> Inv (snd (onClose ws g)).
Proof.
  intros H. unfold onClose, subsOf. unfold bind at 1, gets at 1.
  unfold bind at 1, modify at 1.
  apply Inv_framed; [framed_tac|].
  apply Inv_clients. apply Inv_iff in H as (Hnd & Hlt & Hp).
  split; [|split].
  - now apply NoDup_map_filter.
  - intros c Hc. apply filter_In in Hc as [Hc _]. auto.
  - intros c Hc. apply filter_In in Hc as [Hc _]. auto.
Qed.

(** The [authTimeout] timer *)
Lemma onAuthTimeout_eq ws g c :
  findConn ws (clients g) = Some c -> authTimeout c = true ->
  onAuthTimeout ws g =
  when (negb (authed c) && isOpen (readyState c))
       (ws_close ws 4001 "Auth timeout")
       (set_clients (updated ws (set_authTimeout false) (clients g)) g).
Proof.
  intros Hc Ht. unfold onAuthTimeout, bind at 1, gets at 1. rewrite Hc, Ht.
  reflexivity.
Qed.

Lemma Inv_onAuthTimeout ws g : Inv g -> Inv (snd (onAuthTimeout ws g)).
Proof.
  intros H.
  destruct (findConn ws (clients g)) as [c|] eqn:Hc;
    [|unfold onAuthTimeout, bind, gets; now rewrite Hc].
  destruct (authTimeout c) eqn:Ht;
    [|unfold onAuthTimeout, bind, gets; now rewrite Hc, Ht].
  rewrite (onAuthTimeout_eq ws g c Hc Ht).
  set (g1 := set_clients _ g).
  pose proof H as Hg. apply Inv_iff in Hg as (Hnd & Hlt & Hp).
  assert (Hc1 : findConn ws (clients g1) = Some (set_authTimeout false c))
    by (apply (findConn_map ws (set_authTimeout false)); auto).
  destruct (negb (authed c) && isOpen (readyState c)) eqn:Hclose; unfold when.
  - apply andb_true_iff in Hclose as [_ Ho].
    assert (Ho' : readyState c = OPEN) by (destruct (readyState c); auto; discriminate).
    rewrite (ws_close_open ws _ _ g1 _ Hc1 Ho'). cbn [snd].
    apply Inv_iff. unfold g1.
    change (InvC (updated ws (set_readyState CLOSING)
                    (updated ws (set_authTimeout false) (clients g))) (objects g)).
    rewrite updated_updated by auto.
    apply InvC_updated; auto. intros x _ _ _. simpl. discriminate.
  - cbn [snd ret]. apply Inv_clients. apply InvC_updated; auto.
    intros x Hx Hw. rewrite (findConn_unique ws _ c x Hnd Hc Hx Hw).
    intros Ha Ho. simpl in Ha, Ho. rewrite Ha, Ho in Hclose. discriminate.
Qed.

(** [ws.close] *)
Lemma Inv_ws_close ws code reason g : Inv g -> Inv (snd (ws_close ws code reason g)).
Proof.
  intros H. unfold ws_close, readyStateOf. unfold bind at 1, gets at 1.
  destruct (isOpen _); [|exact H]. unfold when, bind, emit, updateConn, modify.
  cbn [snd]. apply Inv_iff. cbn [clients objects set_clients].
  apply Inv_iff in H as (Hnd & Hlt & Hp).
  apply (InvC_updated _ _ ws (set_readyState CLOSING)); auto.
  intros x _ _ _. simpl. discriminate.
Qed.

(** ['message'] *)
Lemma Inv_onMessage opts ws msg g : Inv g -> Inv (snd (onMessage opts ws msg g)).
Proof.
  intros H. destruct msg as [msg|]; [|exact H].
  destruct (findConn ws (clients g)) as [c|] eqn:Hc;
    [|unfold onMessage, bind, gets; now rewrite Hc].
  destruct (authed c) eqn:Ha.
  - rewrite (onMessage_authed opts ws msg g c Hc Ha).
    destruct msg; try exact H; apply Inv_framed; auto with framed.
    + apply framed_onSubscribe.
    + apply framed_onUnsubscribe.
  - unfold onMessage, bind at 1, gets at 1. rewrite Hc, Ha.
    change (negb false) with true. cbv iota.
    assert (Hok : exists ok g1,
               (match msg with
                | Auth tok => tokenStore (RotatingTokenStore.accepts (Some tok))
                | _ => ret false
                end) g = (ok, g1) /\ Inv g1).
    { destruct msg as [tok| | | | |];
        try (exists false, g; split; [reflexivity|exact H]).
      exists (fst (tokenStore (RotatingTokenStore.accepts (Some tok)) g)),
             (snd (tokenStore (RotatingTokenStore.accepts (Some tok)) g)).
      split; [now destruct (tokenStore _ g)|].
      apply Inv_framed; auto with framed. }
    destruct Hok as (ok & g1 & Hrun & H1).
    unfold bind at 1. rewrite Hrun.
    destruct ok;
      [change (negb true) with false | change (negb false) with true];
      cbv iota; [|now apply Inv_ws_close].
    unfold bind at 1, updateConn at 1, modify at 1.
    unfold bind at 1, modify at 1.
    unfold bind at 1, updateConn at 1, modify at 1.
    apply Inv_framed; [framed_tac|].
    apply Inv_iff. cbn [clients objects set_clients set_authedClients].
    change (InvC (updated ws (set_authTimeout false)
                    (updated ws (set_authed true) (clients g1))) (objects g1)).
    rewrite updated_updated by auto.
    apply Inv_iff in H1 as (Hnd & Hlt & Hp).
    apply InvC_updated; auto. intros x _ _ Hx. simpl in Hx. discriminate.
Qed.

Lemma bind_assoc {S A B C} (m : State S A) (k : A -> State S B) (h : B -> State S C) s :
  bind (bind m k) h s = bind m (fun a => bind (k a) h) s.
Proof. unfold bind. destruct (m s). reflexivity. Qed.

(** ['connection'] for a socket that has just joined [wss.clients] *)
Lemma Inv_onConnection opts req g :
  Inv g ->
  let ws := objects g in
  Inv (snd (onConnection opts ws req
              (mkGateway (world g) (current g) (previous g) (entries g)
                 (clients g ++ [mkConnection ws OPEN false false []])
                 (authedClients g) (pty g) (ips g) (S (objects g)) (log g)))).
Proof.
  intros H ws. set (g2 := mkGateway _ _ _ _ _ _ _ _ _ _).
  apply Inv_iff in H as (Hnd & Hlt & Hp).
  assert (Hnd2 : NoDup (map conn_ws (clients g2))).
  { simpl. rewrite map_app. simpl. apply RotatingFacts.NoDup_snoc.
    constructor; auto. intros Hin. apply in_map_iff in Hin as (c & Hc & Hin).
    specialize (Hlt c Hin). unfold ws in *. lia. }
  assert (Hlt2 : forall c, In c (clients g2) -> (conn_ws c < objects g2)%nat).
  { simpl. intros c Hc. apply in_app_or in Hc as [Hc|[<-|[]]].
    - specialize (Hlt c Hc). lia.
    - simpl. unfold ws. lia. }
  assert (Hp2 : forall c, In c (clients g2) -> conn_ws c <> ws -> pendingC c).
  { simpl. intros c Hc Hw. apply in_app_or in Hc as [Hc|[<-|[]]]; auto.
    now elim Hw. }
  destruct (accepts_on_gateway (getWsHandshakeToken req) g2) as (w' & Hacc & _).
  unfold onConnection, bind at 1. rewrite Hacc.
  set (ok := fst (tokenStore _ g2)).
  unfold bind at 1, updateConn at 1, modify at 1.
  unfold bind at 1, emit at 1, modify at 1.
  unfold bind at 1, updateConn at 1, modify at 1.
  cbn [clients objects set_clients].
  change (map (fun c => if Nat.eqb (conn_ws c) ws then set_authTimeout true c else c)
              (map (fun c => if Nat.eqb (conn_ws c) ws then set_authed ok c else c)
                   (clients g2)))
    with (updated ws (set_authTimeout true) (updated ws (set_authed ok) (clients g2))).
  rewrite updated_updated by auto.
  destruct ok; unfold when.
  - rewrite bind_assoc. unfold bind at 1, modify at 1.
    rewrite bind_assoc. unfold bind at 1, updateConn at 1, modify at 1.
    apply Inv_framed; [framed_tac|].
    apply Inv_iff. cbn [clients objects set_clients set_authedClients].
    change (InvC (updated ws (set_authTimeout false)
                    (updated ws (fun c => set_authTimeout true (set_authed true c))
                             (clients g2))) (objects g2)).
    rewrite updated_updated by auto.
    apply InvC_updated; auto. intros x _ _ Hx. simpl in Hx. discriminate.
  - apply Inv_framed; [framed_tac|].
    apply Inv_iff. cbn [clients objects].
    apply InvC_updated; auto. intros x _ _ _ _. reflexivity.
Qed.

(** An upgrade request *)
Lemma Inv_onUpgrade opts req g : Inv g -> Inv (snd (onUpgrade opts req g)).
Proof.
  intros H. unfold onUpgrade, bind at 1.
  assert (H1 : Inv (snd (verifyClient req g))).
  { apply Inv_framed; auto. unfold verifyClient. framed_tac. }
  destruct (verifyClient req g) as [[[code message]|] g1]; cbn [snd] in H1.
  - apply Inv_framed; [framed_tac|exact H1].
  - unfold bind at 1, fresh at 1. unfold bind at 1, modify at 1.
    unfold bind at 1.
    pose proof (Inv_onConnection opts req g1 H1) as H2. cbv zeta in H2.
    unfold set_clients. cbn [world current previous entries clients authedClients
                               pty ips objects log].
    destruct (onConnection _ _ _ _) as [[] g3]. exact H2.
Qed.

(** From its start on the gateway keeps the deadline of every open
    unauthenticated connection pending. *)
Lemma Inv_step opts JSON_refreshToken ev g :
  Inv g -> Inv (step opts JSON_refreshToken ev g).
Proof.
  intros H. destruct ev; simpl.
  - now apply Inv_onUpgrade.
  - now apply Inv_onMessage.
  - now apply Inv_onClose.
  - now apply Inv_onAuthTimeout.
  - apply Inv_framed; auto. apply framed_tokenExpiryTimer.
  - apply Inv_framed; auto. apply framed_bind;
      [apply framed_ptySpawned | intros; apply framed_broadcastAgents].
  - apply Inv_framed; auto. apply framed_broadcastAgents.
  - apply Inv_framed; auto. apply framed_bind;
      [apply framed_onExit | intros; apply framed_ptyExited].
  - apply Inv_framed; auto. apply framed_broadcastAgents.
  - apply Inv_framed; auto. apply framed_onOutput.
  - apply Inv_framed; auto. apply framed_onRefreshRequest.
Qed.

Lemma Inv_run opts JSON_refreshToken evs : forall g,
  Inv g -> Inv (run opts JSON_refreshToken evs g).
Proof.
  induction evs as [|ev evs IH]; intros g H; simpl; auto.
  apply IH. now apply Inv_step.
Qed.

Lemma Inv_start w p net : Inv (startRemoteServer w p net).
Proof.
  unfold Inv, startRemoteServer. simpl. split; [constructor|split]; simpl; tauto.
Qed.

Lemma Inv_pending g c :
  Inv g -> In c (clients g) ->
  authed c = false -> readyState c = OPEN -> authTimeout c = true.
Proof. intros H Hc. apply Inv_iff in H as (_ & _ & Hp). now apply Hp. Qed.

(** *** The auth deadline *)

(** The ['connection'] handler arms the deadline with a delay of 10 s. *)
Lemma onConnection_arms opts ws req g :
  In (SetAuthTimeout ws 10000) (log (snd (onConnection opts ws req g))).
Proof.
  destruct (accepts_on_gateway (getWsHandshakeToken req) g) as (w' & Hacc & _).
  unfold onConnection, bind at 1. rewrite Hacc.
  set (ok := fst (tokenStore _ g)).
  unfold bind at 1, updateConn at 1, modify at 1.
  unfold bind at 1, emit at 1, modify at 1.
  unfold bind at 1, updateConn at 1, modify at 1.
  assert (Hgrow : forall (m : State Gateway unit) g0,
             framed m -> In (SetAuthTimeout ws 10000) (log g0) ->
             In (SetAuthTimeout ws 10000) (log (snd (m g0)))).
  { intros m g0 Hm Hin. destruct (Hm g0) as (_ & _ & l & ->).
    apply in_or_app. now left. }
  destruct ok; unfold when.
  - rewrite bind_assoc. unfold bind at 1, modify at 1.
    rewrite bind_assoc. unfold bind at 1, updateConn at 1, modify at 1.
    apply Hgrow; [framed_tac|]. simpl. apply in_or_app. right. now left.
  - apply Hgrow; [framed_tac|]. simpl. apply in_or_app. right. now left.
Qed.

Lemma onUpgrade_eq opts req g :
  onUpgrade opts req g =
  match verifyClient req g with
  | (Some (code, message), g1) => (None, add_log [RejectHandshake code message] g1)
  | (None, g1) =>
      let ws := objects g1 in
      (Some ws,
       snd (onConnection opts ws req
              (mkGateway (world g1) (current g1) (previous g1) (entries g1)
                 (clients g1 ++ [mkConnection ws OPEN false false []])
                 (authedClients g1) (pty g1) (ips g1) (S (objects g1)) (log g1))))
  end.
Proof.
  unfold onUpgrade, bind at 1.
  destruct (verifyClient req g) as [[[code message]|] g1]; [reflexivity|].
  unfold bind at 1, fresh at 1. unfold bind at 1, modify at 1. unfold bind at 1.
  unfold set_clients. cbn [world current previous entries clients authedClients
                             pty ips objects log].
  destruct (onConnection _ _ _ _) as [[] g3]. reflexivity.
Qed.

Lemma onUpgrade_arms opts req g ws :
  fst (onUpgrade opts req g) = Some ws ->
  In (SetAuthTimeout ws 10000) (log (snd (onUpgrade opts req g))).
Proof.
  rewrite onUpgrade_eq.
  destruct (verifyClient req g) as [[[code message]|] g1]; [discriminate|].
  cbv zeta. cbn [fst snd]. intros [= <-]. apply onConnection_arms.
Qed.

Lemma deadline_and_rejection opts g ws c :
  findConn ws (clients g) = Some c ->
  authed c = false -> readyState c = OPEN -> authTimeout c = true ->
  (let g' := snd (onAuthTimeout ws g) in
   log g' = log g ++ [Close ws 4001 "Auth timeout"] /\
   readyStateIn g' ws = CLOSING) /\
  (forall msg, rejected msg g ->
     let g' := snd (onMessage opts ws (Some msg) g) in
     log g' = log g ++ [Close ws 4001 "Unauthorized"] /\
     readyStateIn g' ws = CLOSING).
Proof.
  intros Hc Ha Ho Ht. split.
  - cbv zeta.
    set (g1 := set_clients
                 (map (fun x => if Nat.eqb (conn_ws x) ws
                                then set_authTimeout false x else x) (clients g)) g).
    assert (Hrun : onAuthTimeout ws g = ws_close ws 4001 "Auth timeout" g1).
    { unfold onAuthTimeout, bind at 1, gets at 1. rewrite Hc, Ht.
      unfold bind at 1, updateConn, modify. rewrite Ha, Ho. reflexivity. }
    assert (Hc1 : findConn ws (clients g1) = Some (set_authTimeout false c))
      by (apply (findConn_map ws (set_authTimeout false)); auto).
    rewrite Hrun.
    exact (ws_close_state ws 4001 "Auth timeout" g1 _ Hc1 Ho).
  - intros msg Hrej. cbv zeta.
    assert (Hrun : exists g1,
               onMessage opts ws (Some msg) g = ws_close ws 4001 "Unauthorized" g1 /\
               clients g1 = clients g /\ log g1 = log g).
    { unfold onMessage, bind at 1, gets at 1. rewrite Hc, Ha.
      change (negb false) with true. cbv iota.
      destruct msg as [tok| | | | |];
        try (exists g; split; [reflexivity|split; reflexivity]).
      simpl in Hrej.
      destruct (accepts_on_gateway (Some tok) g) as (w' & Hacc & _).
      unfold bind at 1. rewrite Hacc, Hrej. simpl negb. cbv iota.
      eexists. split; [reflexivity|]. split; reflexivity. }
    destruct Hrun as (g1 & -> & Hcl & Hlog).
    assert (Hc1 : findConn ws (clients g1) = Some c) by now rewrite Hcl.
    rewrite <- Hlog. exact (ws_close_state ws 4001 "Unauthorized" g1 _ Hc1 Ho).
Qed.

(** C5 (as amended). In every state that the gateway reaches from its
    start, whatever events it is given: a handshake that admits a
    connection arms an auth deadline of 10 s for it; every open
    connection that is not authenticated has its deadline pending; when
    the deadline fires for such a connection it is closed with close
    code 4001 and the reason "Auth timeout".  A rejected credential on
    such a connection closes it with the same code 4001 and the reason
    "Unauthorized": the reason text, not the close code, tells the
    timeout from the rejection. *)
Theorem auth_timeout_closes opts JSON_refreshToken w p net evs :
  let g := run opts JSON_refreshToken evs (startRemoteServer w p net) in
  (forall req ws,
     fst (onUpgrade opts req g) = Some ws ->
     In (SetAuthTimeout ws 10000) (log (snd (onUpgrade opts req g)))) /\
  (forall ws c,
     findConn ws (clients g) = Some c -> authed c = false -> readyState c = OPEN ->
     authTimeout c = true /\
     (let g' := snd (onAuthTimeout ws g) in
      log g' = log g ++ [Close ws 4001 "Auth timeout"] /\
      readyStateIn g' ws = CLOSING) /\
     (forall msg, rejected msg g ->
        let g' := snd (onMessage opts ws (Some msg) g) in
        log g' = log g ++ [Close ws 4001 "Unauthorized"] /\
        readyStateIn g' ws = CLOSING)).
Proof.
  intros g. split.
  - intros req ws. apply onUpgrade_arms.
  - intros ws c Hc Ha Ho.
    assert (Ht : authTimeout c = true).
    { apply (Inv_pending g c); auto.
      - apply Inv_run, Inv_start.
      - now apply findConn_In in Hc. }
    split; [exact Ht|].
    exact (deadline_and_rejection opts g ws c Hc Ha Ho Ht).
Qed.

Lemma auth_timeout_closes_witness :
  let g := run Fixture.opts Fixture.parse [Upgrade (Fixture.handshake "tok0")]
               (startRemoteServer Fixture.racing_world Fixture.sessions
                                  (mkIps None None)) in
  authTimeout (mkConnection 0 OPEN false true []) = true /\
  (let g' := snd (onAuthTimeout 0 g) in
   log g' = log g ++ [Close 0 4001 "Auth timeout"] /\
   readyStateIn g' 0 = CLOSING) /\
  (forall msg, rejected msg g ->
     let g' := snd (onMessage Fixture.opts 0 (Some msg) g) in
     log g' = log g ++ [Close 0 4001 "Unauthorized"] /\
     readyStateIn g' 0 = CLOSING).
Proof.
  pose proof (auth_timeout_closes Fixture.opts Fixture.parse
                Fixture.racing_world Fixture.sessions (mkIps None None)
                [Upgrade (Fixture.handshake "tok0")]) as H.
  cbv zeta in H. destruct H as [_ H].
  apply (H 0%nat (mkConnection 0 OPEN false true []));
    [vm_compute; reflexivity | reflexivity | reflexivity].
Defined.

(** C5 (as stated) fails: the close code of the auth timeout is not
    distinct from the close code of a rejected credential; both are
    4001.  On the pending connection of the fixture the deadline and
    an [auth] message with a wrong token give: *)
Lemma timeout_code_is_rejection_code :
  let g := Fixture.pending in
  added g (snd (onAuthTimeout 0 g)) = [Close 0 4001 "Auth timeout"] /\
  added g (snd (onMessage Fixture.opts 0 (Some (Auth "wrong")) g))
  = [Close 0 4001 "Unauthorized"].
Proof. vm_compute. split; reflexivity. Qed.

(** The deadline is armed, with a delay of 10 s, for the connection
    that the handshake admits without authenticating it, and not left
    pending for one that it authenticates. *)
Example auth_deadline_armed :
  Forall (fun e => e = SetAuthTimeout 0 10000) (log Fixture.pending) /\
  map authTimeout (clients Fixture.pending) = [true] /\
  map authTimeout (clients Fixture.connected) = [false].
Proof. vm_compute. repeat constructor. Qed.

(** *** Callbacks at close *)

Lemma findSession_updateSession id id' f p :
  (forall x, sessId (f x) = sessId x) ->
  findSession id (updateSession id' f p)
  = option_map (fun x => if String.eqb (sessId x) id' then f x else x)
               (findSession id p).
Proof.
  intros Hf. unfold findSession, updateSession.
  induction p as [|x p IH]; simpl; [reflexivity|].
  destruct (String.eqb (sessId x) id') eqn:E'; [rewrite Hf|];
    destruct (String.eqb (sessId x) id) eqn:E; simpl; auto; now rewrite E'.
Qed.

Lemma registered_unsubscribe id id' cb' p :
  registered id (unsubscribeFromAgent id' cb' p)
  = if String.eqb id id'
    then filter (fun c => negb (same_cb cb' c)) (registered id p)
    else registered id p.
Proof.
  unfold registered, unsubscribeFromAgent.
  rewrite findSession_updateSession by reflexivity.
  destruct (findSession id p) as [x|] eqn:Hx; simpl.
  - apply find_some in Hx as [_ Hid]. apply String.eqb_eq in Hid. rewrite Hid.
    destruct (String.eqb id id'); reflexivity.
  - now destruct (String.eqb id id').
Qed.

(** The supervisor's table after the ['close'] handler: the callbacks
    of the connection's subscription table are deregistered, one by
    one, and nothing else is. *)
Lemma onClose_pty ws g :
  pty (snd (onClose ws g))
  = fold_left (fun p kv => unsubscribeFromAgent (fst kv) (snd kv) p)
              (match findConn ws (clients g) with Some c => subs c | None => [] end)
              (pty g).
Proof.
  unfold onClose, subsOf. unfold bind at 1, gets at 1.
  unfold bind at 1, modify at 1. unfold bind at 1, modify at 1.
  set (m := match findConn ws (clients g) with Some c => subs c | None => [] end).
  set (g1 := set_authedClients _ _).
  change (pty g) with (pty g1). clearbody g1. clearbody m.
  revert g1. induction m as [|kv m IH]; intros g1; simpl; [reflexivity|].
  unfold bind at 1. unfold bind at 1, modify at 1, emit, modify.
  rewrite IH. reflexivity.
Qed.

(** The ['exit'] handler leaves the supervisor's table alone. *)
Lemma onExit_pty id code g : pty (snd (onExit id code g)) = pty g.
Proof.
  unfold onExit. unfold bind at 1. rewrite broadcast_eq. reflexivity.
Qed.

(** A callback that the subscription table of the closing connection
    does not hold stays registered. *)
Lemma orphan_survives_close ws g id cb :
  In cb (registered id (pty g)) ->
  (forall kv, In kv (match findConn ws (clients g) with
                     | Some c => subs c
                     | None => []
                     end) -> same_cb (snd kv) cb = false) ->
  In cb (registered id (pty (snd (onClose ws g)))).
Proof.
  rewrite onClose_pty.
  set (m := match findConn ws (clients g) with Some c => subs c | None => [] end).
  clearbody m. generalize (pty g) as p.
  induction m as [|kv m IH]; intros p Hin Hm; simpl; [exact Hin|].
  apply IH; [|intros kv' H'; apply Hm; now right].
  rewrite registered_unsubscribe. destruct (String.eqb id (fst kv)); auto.
  apply filter_In. split; auto. rewrite (Hm kv (or_introl eq_refl)). reflexivity.
Qed.

End GatewayFacts.

(** * Further properties of the stores *)

(** ** rotating-token-store.ts *)

Module RotatingLaws.
Import RotatingSpec.
Import RotatingTokenStore.
Import RotatingFacts.

Lemma existsb_filter_same {A} (keep test : A -> bool) l :
  (forall x, In x l -> test x = true -> keep x = true) ->
  existsb test (filter keep l) = existsb test l.
Proof.
  intros H. induction l as [|x l IH]; simpl; [reflexivity|].
  rewrite <- IH by (intros y Hy; apply H; now right).
  destruct (keep x) eqn:K; simpl; [reflexivity|].
  destruct (test x) eqn:T; [|reflexivity].
  rewrite H in K; [discriminate|now left|exact T].
Qed.

Lemma same_env_call_rot o k s :
  clock (world (call o k s)) = clock (world s) /\
  entropy (world (call o k s)) = entropy (world s) /\
  (draws (world s) <= draws (world (call o k s)))%nat.
Proof.
  destruct k as [c| |]; unfold call.
  - destruct (falsy c) eqn:F.
    + rewrite accepts_falsy by exact F. simpl. auto.
    + rewrite accepts_eq by exact F. simpl. auto.
  - rewrite rotate_eq. simpl. auto.
  - rewrite rotating_prune_eq. simpl. auto.
Qed.

Lemma generated_mono s s' c :
  entropy (world s') = entropy (world s) ->
  (draws (world s) <= draws (world s'))%nat ->
  generated s c -> generated s' c.
Proof.
  intros He Hd (i & Hi & E). exists i. rewrite He. split; [lia|exact E].
Qed.

Lemma wf_create o w : wf (create o w).
Proof.
  split; simpl.
  - constructor; [simpl; tauto|constructor].
  - intros c [<-|[]]. exists (draws w). simpl. split; [lia|reflexivity].
Qed.

Lemma wf_call o k s : fresh_source (world s) -> wf s -> wf (call o k s).
Proof.
  intros Hf [Hnd Hgen]. destruct k as [c| |]; unfold call.
  - destruct (falsy c) eqn:F.
    + rewrite accepts_falsy by exact F. split; assumption.
    + rewrite accepts_eq by exact F. split; [exact Hnd|].
      intros x Hx. destruct (Hgen x Hx) as (i & Hi & E). exists i. auto.
  - rewrite rotate_eq. simpl.
    set (demoted := mkPrevious _ _).
    assert (Hnd' : NoDup (map prevBuf (previous s ++ [demoted])))
      by (rewrite map_app; simpl; now apply NoDup_snoc).
    assert (Hin : forall x, In x (map prevBuf (cap_oldest (maxPreviousTokens o)
                                                   (previous s ++ [demoted]))) ->
                            generated s x).
    { intros x Hx. apply in_map_iff in Hx as (q & <- & Hq).
      apply In_cap_oldest, in_app_or in Hq as [Hq|[<-|[]]]; apply Hgen.
      - right. now apply in_map.
      - now left. }
    split; simpl.
    + constructor.
      * intros Hx. apply Hin in Hx as (i & Hi & E).
        unfold Buffer_from, next_token in E. apply Hf in E. lia.
      * rewrite cap_oldest_skipn. now apply NoDup_map_skipn.
    + intros x [<-|Hx].
      * exists (draws (world s)). simpl. split; [lia|reflexivity].
      * destruct (Hin x Hx) as (i & Hi & E). exists i. simpl. split; [lia|exact E].
  - rewrite rotating_prune_eq. simpl. inversion Hnd as [|? ? Hnot Hnd']; subst.
    split; simpl.
    + constructor.
      * intros Hx. apply Hnot. apply in_map_iff in Hx as (q & E & Hq).
        apply filter_In in Hq as [Hq _]. rewrite <- E. now apply in_map.
      * now apply NoDup_map_filter.
    + intros x [<-|Hx].
      * destruct (Hgen (tokenBuf (current s)) (or_introl eq_refl)) as (i & Hi & E).
        exists i. auto.
      * apply in_map_iff in Hx as (q & E & Hq). apply filter_In in Hq as [Hq _].
        destruct (Hgen x) as (i & Hi & E'); [right; rewrite <- E; now apply in_map|].
        exists i. auto.
Qed.

Lemma fresh_source_call o k s :
  fresh_source (world s) -> fresh_source (world (call o k s)).
Proof.
  intros [Hinj Hne]. destruct (same_env_call_rot o k s) as (_ & He & _).
  split; intros; rewrite He in *; auto.
Qed.

Lemma wf_calls o ks : forall s,
  fresh_source (world s) -> wf s ->
  fresh_source (world (calls o ks s)) /\ wf (calls o ks s).
Proof.
  induction ks as [|k ks IH]; intros s Hf Hwf; simpl; [auto|].
  apply IH; [now apply fresh_source_call | now apply wf_call].
Qed.

(** X1. [accepts] says yes to nothing but a non-empty candidate whose
    bytes are those of the current token or of a retained one, at a
    clock reading that has not passed the expiry of that token. *)
Theorem accepts_only_known_unexpired c s :
  fst (accepts c s) = true <->
  exists t, c = Some t /\ t <> "" /\
    ((tokenBuf (current s) = t /\ reading s 0 <= expiresAt (current s)) \/
     (exists p, In p (previous s) /\ prevBuf p = t /\
                reading s 0 <= prevExpiresAt p)).
Proof.
  destruct (falsy c) eqn:F.
  - rewrite accepts_falsy by exact F. simpl. split; [discriminate|].
    intros (t & -> & Hne & _). simpl in F. apply String.eqb_eq in F. contradiction.
  - rewrite accepts_eq by exact F. simpl. unfold accepted_at.
    destruct c as [t|]; [|discriminate]. simpl in *.
    apply String.eqb_neq in F.
    rewrite orb_true_iff, andb_true_iff, existsb_exists, Z.leb_le, sameBuf_eq.
    split.
    + intros [[Hn E]|(p & Hp & H)]; exists t; repeat split; auto.
      right. apply andb_true_iff in H as [Hn E].
      apply Z.leb_le in Hn. apply sameBuf_eq in E. exists p. auto.
    + intros (t' & [= <-] & _ & [[E Hn]|(p & Hp & E & Hn)]); [left; auto|].
      right. exists p. split; [exact Hp|].
      apply andb_true_iff. split; [now apply Z.leb_le | now apply sameBuf_eq].
Qed.

(** X2. The store never retains more previous tokens than its cap,
    whatever is called on it and in whatever order. *)
Theorem previous_count_within_cap o w ks :
  (fst (previousTokenCount (calls o ks (create o w)))
   <= Z.to_nat (maxPreviousTokens o))%nat.
Proof.
  unfold previousTokenCount, gets. simpl fst.
  assert (H : forall s, (List.length (previous s) <= Z.to_nat (maxPreviousTokens o))%nat ->
                        (List.length (previous (calls o ks s))
                         <= Z.to_nat (maxPreviousTokens o))%nat).
  { induction ks as [|k ks IH]; intros s Hs; simpl; [exact Hs|].
    apply IH. destruct k as [c| |]; unfold call.
    - destruct (falsy c) eqn:F.
      + now rewrite accepts_falsy by exact F.
      + now rewrite accepts_eq by exact F.
    - rewrite rotate_eq. simpl. apply RefreshFacts.length_cap_oldest.
    - rewrite rotating_prune_eq. simpl.
      etransitivity; [apply filter_length_le|exact Hs]. }
  apply H. simpl. lia.
Qed.

(** X3. The current token and the retained ones are pairwise distinct in
    every state of a store whose generator never repeats itself: a
    rotation never brings back a token that is still honoured. *)
Theorem held_tokens_distinct o w ks :
  fresh_source w ->
  let s := calls o ks (create o w) in
  NoDup (tokenBuf (current s) :: map prevBuf (previous s)) /\
  token (current s) <> "".
Proof.
  intros Hf s.
  destruct (wf_calls o ks (create o w)) as [Hf' [Hnd Hgen]];
    [exact Hf | apply wf_create |].
  split; [exact Hnd|].
  assert (Htok : forall s0, tokenBuf (current s0) = token (current s0) ->
                            tokenBuf (current (calls o ks s0)) = token (current (calls o ks s0))).
  { clear. induction ks as [|k ks IH]; intros s0 H0; simpl; [exact H0|].
    apply IH. destruct k as [c| |]; unfold call.
    - destruct (falsy c) eqn:F.
      + now rewrite accepts_falsy by exact F.
      + now rewrite accepts_eq by exact F.
    - rewrite rotate_eq. reflexivity.
    - rewrite rotating_prune_eq. exact H0. }
  subst s. rewrite <- (Htok (create o w) eq_refl).
  destruct (Hgen _ (or_introl eq_refl)) as (i & _ & <-).
  apply Hf'.
Qed.

Lemma held_tokens_distinct_witness :
  let o := mkOptions 100 1000 2 in
  let s := calls o [CallRotate; CallAccepts (Some "token-0"); CallRotate; CallPrune]
                 (create o (test_world (fun _ => 1000) "token-")) in
  NoDup (tokenBuf (current s) :: map prevBuf (previous s)) /\
  token (current s) <> "".
Proof.
  apply (held_tokens_distinct (mkOptions 100 1000 2)
           (test_world (fun _ => 1000) "token-")).
  apply test_world_fresh.
Defined.

Lemma quiet_keeps_current o ks : forall s,
  quiet ks ->
  current (calls o ks s) = current s /\
  clock (world (calls o ks s)) = clock (world s) /\
  (previous s = [] -> previous (calls o ks s) = []).
Proof.
  induction ks as [|k ks IH]; intros s Hq; simpl; [auto|].
  unfold quiet in Hq. simpl in Hq. apply andb_true_iff in Hq as [Hk Hq].
  destruct (IH (call o k s) Hq) as (Hc & Hw & Hp).
  rewrite Hc, Hw. destruct k as [c| |]; unfold call in *; try discriminate.
  - destruct (falsy c) eqn:F.
    + rewrite accepts_falsy in * by exact F. auto.
    + rewrite accepts_eq in * by exact F. auto.
  - rewrite rotating_prune_eq in *. simpl in *. repeat split; auto.
    intros E. apply Hp. now rewrite E.
Qed.

(** X4. Until the first rotation the token that the store was created
    with is accepted at exactly the clock readings that do not pass
    its expiry, the creation reading plus [tokenTtlMs]. *)
Theorem initial_token_window o w ks :
  fresh_source w -> quiet ks ->
  let s := calls o ks (create o w) in
  token (current s) = entropy w (draws w) /\
  expiresAt (current s) = clock w (ticks w) + tokenTtlMs o /\
  fst (accepts (Some (entropy w (draws w))) s)
  = (reading s 0 <=? clock w (ticks w) + tokenTtlMs o).
Proof.
  intros [_ Hne] Hq s.
  destruct (quiet_keeps_current o ks (create o w) Hq) as (Hc & _ & Hp).
  fold s in Hc, Hp. specialize (Hp eq_refl).
  rewrite accepts_eq by (apply falsy_Some, Hne).
  unfold accepted_at. rewrite Hc, Hp. simpl.
  rewrite sameBuf_refl, andb_true_r, orb_false_r. auto.
Qed.

Lemma initial_token_window_witness :
  let o := mkOptions 1000 10000 10 in
  let w := test_world (fun i => if (i <? 3)%nat then 1000 else 2001) "token-" in
  let s := calls o [CallAccepts (Some "other-token"); CallPrune] (create o w) in
  token (current s) = "token-0" /\
  expiresAt (current s) = 2000 /\
  fst (accepts (Some "token-0") s) = false.
Proof.
  apply (initial_token_window (mkOptions 1000 10000 10)
           (test_world (fun i => if (i <? 3)%nat then 1000 else 2001) "token-")
           [CallAccepts (Some "other-token"); CallPrune]).
  - apply test_world_fresh.
  - reflexivity.
Defined.

(** X5. [prune] is invisible to [accepts] on a clock that does not run
    backwards: the verdict on any candidate after a [prune] is the
    verdict the store would have given without it. *)
Theorem prune_never_changes_verdict c s :
  reading s 0 <= reading s 1 ->
  fst (accepts c (snd (prune s)))
  = fst (accepts c (mkStore (tick (world s)) (current s) (previous s))).
Proof.
  intros Hmono. rewrite rotating_prune_eq. simpl snd.
  destruct (falsy c) eqn:F.
  - now rewrite !accepts_falsy by exact F.
  - rewrite !accepts_eq by exact F. simpl. unfold accepted_at, reading. simpl.
    f_equal. apply existsb_filter_same. intros p _ H.
    apply andb_true_iff in H as [H _]. apply Z.leb_le in H.
    unfold reading in Hmono. rewrite Nat.add_0_r in *. rewrite Nat.add_1_r in Hmono.
    apply negb_true_iff. rewrite Z.gtb_ltb. apply Z.ltb_ge. lia.
Qed.

Lemma prune_never_changes_verdict_witness :
  let o := mkOptions 100 500 10 in
  let clk := fun i : nat => if (i <? 2)%nat then 1000
                            else if (i <? 3)%nat then 1150 else 1750 in
  let s := snd (rotate o (create o (test_world clk "token-"))) in
  fst (accepts (Some "token-0") (snd (prune s)))
  = fst (accepts (Some "token-0") (mkStore (tick (world s)) (current s) (previous s))).
Proof.
  apply (prune_never_changes_verdict (Some "token-0")
           (snd (rotate (mkOptions 100 500 10)
                   (create (mkOptions 100 500 10)
                      (test_world (fun i : nat => if (i <? 2)%nat then 1000
                                     else if (i <? 3)%nat then 1150 else 1750)
                                  "token-"))))).
  vm_compute. discriminate.
Defined.

End RotatingLaws.

(** ** refresh-session-store.ts *)

Module RefreshLaws.
Import RefreshSpec.
Import RefreshSessionStore.
Import RefreshFacts.

Lemma length_splice_out {A} i (l : list A) x :
  nth_error l i = Some x -> S (List.length (splice_out i l)) = List.length l.
Proof.
  revert i. induction l as [|y l IH]; intros [|i] H; simpl in *; try discriminate.
  - reflexivity.
  - f_equal. now apply IH.
Qed.

Lemma length_cap_oldest_le {A} cap (l : list A) :
  (List.length (cap_oldest cap l) <= List.length l)%nat.
Proof. rewrite cap_oldest_skipn, length_skipn. lia. Qed.

Lemma gtb_leb n e : negb (n >? e) = (n <=? e).
Proof. unfold Z.gtb, Z.leb. now destruct (n ?= e). Qed.

(** A candidate none of whose entries is unexpired at both clock
    readings of [exchange] is refused, and the store only loses
    entries. *)
Lemma exchange_no_live_entry o c s :
  (forall e, In e (entries s) -> tokenBuf e = c ->
             reading s 0 > expiresAt e \/ reading s 1 > expiresAt e) ->
  fst (exchange o (Some c) s) = None /\
  draws (world (snd (exchange o (Some c) s))) = draws (world s) /\
  (forall e, In e (entries (snd (exchange o (Some c) s))) -> In e (entries s)).
Proof.
  intros H. destruct (falsy (Some c)) eqn:F.
  - rewrite exchange_falsy by exact F. auto.
  - rewrite exchange_eq by exact F. cbv zeta. simpl str.
    rewrite findIdx_None.
    + simpl. repeat split. intros e He. now apply filter_In in He.
    + intros e He E. apply filter_In in He as [He Ha].
      unfold alive in Ha. rewrite gtb_leb in Ha. apply Z.leb_le in Ha.
      destruct (H e He E); lia.
Qed.

(** X6. An unknown refresh token and an expired one get the same answer:
    [exchange] returns null, draws no token from the generator and
    adds nothing to the store. *)
Theorem exchange_refuses_unknown_and_expired o c s :
  (forall e, In e (entries s) -> tokenBuf e = c ->
             reading s 0 > expiresAt e \/ reading s 1 > expiresAt e) ->
  fst (exchange o (Some c) s) = None /\
  draws (world (snd (exchange o (Some c) s))) = draws (world s) /\
  (forall e, In e (entries (snd (exchange o (Some c) s))) -> In e (entries s)).
Proof. apply exchange_no_live_entry. Qed.

Lemma exchange_refuses_unknown_and_expired_witness :
  let o := mkOptions 100 10 in
  let clk := fun i : nat => if (i <? 2)%nat then 1000 else 1200 in
  let s := snd (issue o (create (test_world clk "refresh-"))) in
  fst (exchange o (Some "refresh-0") s) = None /\
  draws (world (snd (exchange o (Some "refresh-0") s))) = draws (world s) /\
  (forall e, In e (entries (snd (exchange o (Some "refresh-0") s))) ->
             In e (entries s)).
Proof.
  apply (exchange_refuses_unknown_and_expired (mkOptions 100 10) "refresh-0"
           (snd (issue (mkOptions 100 10)
                   (create (test_world (fun i : nat => if (i <? 2)%nat then 1000 else 1200)
                                       "refresh-"))))).
  intros e [<-|[]] _. left. vm_compute. reflexivity.
Defined.

Lemma within_cap_call o k s : within_cap o s -> within_cap o (call o k s).
Proof.
  intros Hs. destruct k as [|c|]; unfold call.
  - apply within_cap_issue.
  - destruct (falsy c) eqn:F.
    + now rewrite exchange_falsy by exact F.
    + rewrite exchange_eq by exact F. cbv zeta.
      destruct (findIdx _ _ _) as [i|].
      * destruct (issue o _) as [tok s'] eqn:E.
        change s' with (snd (tok, s')). rewrite <- E. apply within_cap_issue.
      * unfold within_cap in *. simpl.
        etransitivity; [apply filter_length_le|exact Hs].
  - rewrite refresh_prune_eq. unfold within_cap in *. simpl.
    etransitivity; [apply filter_length_le|exact Hs].
Qed.

(** X7. The store never holds more refresh tokens than its cap, whatever
    is called on it and in whatever order. *)
Theorem refresh_count_within_cap o w ks :
  (fst (count (calls o ks (create w))) <= Z.to_nat (maxTokens o))%nat.
Proof.
  unfold count, gets. cbn [fst].
  assert (H : forall s, within_cap o s -> within_cap o (calls o ks s)).
  { induction ks as [|k ks IH]; intros s Hs; simpl; [exact Hs|].
    apply IH, within_cap_call, Hs. }
  apply (H (create w)). unfold within_cap. simpl. lia.
Qed.

(** X8. [exchange] never grows the store (the token it consumes makes
    room for the replacement), [issue] grows it by one entry at most
    and [prune] never does. *)
Theorem store_growth_bounded o c s :
  (fst (count (snd (exchange o c s))) <= fst (count s))%nat /\
  (fst (count (snd (issue o s))) <= S (fst (count s)))%nat /\
  (fst (count (snd (prune s))) <= fst (count s))%nat.
Proof.
  unfold count, gets. cbn [fst].
  assert (Hissue : forall s0, (List.length (entries (snd (issue o s0)))
                               <= S (List.length (entries s0)))%nat).
  { intros s0. rewrite issue_eq. simpl.
    etransitivity; [apply length_cap_oldest_le|].
    rewrite length_app. simpl.
    pose proof (filter_length_le (alive (reading s0 0)) (entries s0)). lia. }
  split; [|split].
  - destruct (falsy c) eqn:F.
    + rewrite exchange_falsy by exact F. simpl. lia.
    + rewrite exchange_eq by exact F. cbv zeta.
      pose proof (filter_length_le (alive (reading s 0)) (entries s)) as Hle.
      destruct (findIdx _ _ _) as [i|] eqn:Hi.
      * apply findIdx_Some_inv in Hi as (e & Hnth & _).
        apply length_splice_out in Hnth.
        destruct (issue o _) as [tok s'] eqn:E.
        change s' with (snd (tok, s')). rewrite <- E.
        etransitivity; [apply Hissue|]. simpl. lia.
      * simpl. exact Hle.
  - apply Hissue.
  - rewrite refresh_prune_eq. simpl. apply filter_length_le.
Qed.

(** X9. A token lives for [ttlMs] from the clock reading that [issue]
    took for it: with room for at least one token, an [exchange]
    whose clock readings are within that time succeeds, and one with
    a reading past it is refused. *)
Theorem issued_token_lifetime o s :
  fresh_source (world s) -> wf s -> 1 <= maxTokens o ->
  let t := fst (issue o s) in
  let s1 := snd (issue o s) in
  let deadline := reading s 1 + ttlMs o in
  (reading s1 0 <= deadline -> reading s1 1 <= deadline ->
   exists t' s2, exchange o (Some t) s1 = (Some t', s2) /\ t' <> t) /\
  (reading s1 0 > deadline \/ reading s1 1 > deadline ->
   fst (exchange o (Some t) s1) = None).
Proof.
  intros Hf Hwf Hcap t s1 deadline.
  assert (Hwf1 : wf s1) by (apply wf_issue; assumption).
  assert (Hf1 : fresh_source (world s1))
    by (apply (fresh_source_env s); [apply same_env_issue|exact Hf]).
  assert (Hin : In (mkEntry t deadline) (entries s1)).
  { subst t s1 deadline. rewrite issue_eq. simpl. now apply cap_oldest_last. }
  split.
  - intros H0 H1.
    destruct (exchange_live o s1 t Hf1 Hwf1) as (s2 & E & Hne & _).
    + exists (mkEntry t deadline). auto.
    + eauto.
  - intros Hlate. apply exchange_no_live_entry.
    intros e He E. destruct Hwf1 as [Hnd _].
    rewrite (RotatingFacts.NoDup_map_inj tokenBuf (entries s1) e (mkEntry t deadline));
      auto.
Qed.

Lemma issued_token_lifetime_witness :
  let o := mkOptions 100 10 in
  let s := create (test_world (fun i : nat => if (i <? 3)%nat then 1000 else 1101)
                              "refresh-") in
  let t := fst (issue o s) in
  let s1 := snd (issue o s) in
  let deadline := reading s 1 + ttlMs o in
  (reading s1 0 <= deadline -> reading s1 1 <= deadline ->
   exists t' s2, exchange o (Some t) s1 = (Some t', s2) /\ t' <> t) /\
  (reading s1 0 > deadline \/ reading s1 1 > deadline ->
   fst (exchange o (Some t) s1) = None).
Proof.
  apply (issued_token_lifetime (mkOptions 100 10)
           (create (test_world (fun i : nat => if (i <? 3)%nat then 1000 else 1101)
                               "refresh-"))).
  - apply test_world_fresh.
  - apply refresh_wf_create.
  - simpl. lia.
Defined.

(** X10. The pruning loops, which splice while they walk down the array,
    drop exactly the entries whose expiry the clock reading has
    passed and keep the others in their order. *)
Theorem prune_keeps_exactly_unexpired s rs :
  entries (snd (prune s))
  = filter (fun e => reading s 0 <=? expiresAt e) (entries s) /\
  RotatingTokenStore.previous (snd (RotatingTokenStore.prune rs))
  = filter (fun p => RotatingSpec.reading rs 0 <=? RotatingTokenStore.prevExpiresAt p)
           (RotatingTokenStore.previous rs).
Proof.
  rewrite refresh_prune_eq, RotatingFacts.rotating_prune_eq. simpl.
  split; apply filter_ext; intros x; [unfold alive|]; apply gtb_leb.
Qed.

End RefreshLaws.

(** * Further properties of the server *)

Module ServerFacts.
Import ServerSpec.
Import Server.
Import TextFacts.

(** ** The request body of a refresh *)

(** X11. The cap of the refresh route is on the decoded text and not
    on the bytes: the request is destroyed exactly when the chunks,
    each decoded by itself, add up to more than 8192 UTF-16 code
    units, and a body within the cap is read to its end as the
    decoded chunks one after the other.  For a body of ASCII bytes
    that is the number of its bytes, however it is cut into chunks. *)
Theorem body_cap_counts_decoded_text chunks :
  (snd (receive "" chunks)
   = (8 * 1024 <? length_utf16 (String.concat "" (map toString_utf8 chunks)))%nat /\
   (snd (receive "" chunks) = false ->
    fst (receive "" chunks) = String.concat "" (map toString_utf8 chunks))) /\
  (forallb isAscii chunks = true ->
   snd (receive "" chunks)
   = (8 * 1024 <? String.length (String.concat "" chunks))%nat /\
   (snd (receive "" chunks) = false ->
    fst (receive "" chunks) = String.concat "" chunks)).
Proof.
  split; [apply (receive_spec chunks ""); simpl; lia|].
  intros Ha.
  assert (H0 : (length_utf16 "" <= 8 * 1024)%nat) by (simpl; lia).
  destruct (receive_spec chunks "" H0) as [H1 H2].
  rewrite (map_toString_ascii chunks Ha) in H1, H2. cbn [append] in H1, H2.
  rewrite length_utf16_ascii in H1 by (now apply isAscii_concat).
  split; assumption.
Qed.

(** A two-byte character that is cut between two chunks is decoded
    as two replacement characters, so the same bytes count for more
    when they are cut so. *)
Example body_cap_depends_on_cut :
  let e1 := String (ascii_of_nat 195) "" in
  let e2 := String (ascii_of_nat 169) "" in
  length_utf16 (fst (receive "" [(e1 ++ e2)%string])) = 1%nat /\
  length_utf16 (fst (receive "" [e1; e2])) = 2%nat.
Proof. vm_compute. split; reflexivity. Qed.

(** ** The network addresses *)

Lemma fold_left_flat_map {A B C} (f : A -> C -> A) (g : B -> list C) l : forall acc,
  fold_left (fun acc x => fold_left f (g x) acc) l acc
  = fold_left f (flat_map g l) acc.
Proof.
  induction l as [|x l IH]; intros acc; simpl; [reflexivity|].
  now rewrite fold_left_app, IH.
Qed.

(** X12. [getNetworkIps] reports the first external IPv4 address that
    starts with 100. as the Tailscale address, and as the Wi-Fi
    address the first one that starts neither with 100. nor with
    172.; internal addresses and other families are never reported. *)
Theorem network_ips_first_match nets :
  wifi (getNetworkIps nets)
  = option_map address
      (find (fun a => external a && negb (String.prefix "100." (address a))
                      && negb (String.prefix "172." (address a)))
            (addresses nets)) /\
  tailscale (getNetworkIps nets)
  = option_map address
      (find (fun a => external a && String.prefix "100." (address a))
            (addresses nets)).
Proof.
  unfold getNetworkIps, addresses.
  rewrite (fold_left_flat_map _ (fun addrs => match addrs with Some l => l | None => [] end)).
  set (l := flat_map _ nets). clearbody l.
  set (step := fun acc addr => _).
  assert (H : forall acc,
    wifi (fold_left step l acc)
    = match wifi acc with
      | Some x => Some x
      | None => option_map address
                  (find (fun a => external a && negb (String.prefix "100." (address a))
                                  && negb (String.prefix "172." (address a))) l)
      end /\
    tailscale (fold_left step l acc)
    = match tailscale acc with
      | Some x => Some x
      | None => option_map address
                  (find (fun a => external a && String.prefix "100." (address a)) l)
      end).
  { induction l as [|a l IH]; intros acc; simpl.
    - now destruct (wifi acc), (tailscale acc).
    - destruct (IH (step acc a)) as [Hw Ht]. rewrite Hw, Ht. clear IH Hw Ht.
      unfold step, external, assign_if_nullish. destruct acc as [w t].
      destruct (String.eqb (family a) "IPv4"), (internal a),
        (String.prefix "100." (address a)), (String.prefix "172." (address a)),
        w, t; simpl; auto. }
  apply (H (mkIps None None)).
Qed.

(** ** The roster *)

Section Roster.
Variable opts : Opts.

Lemma buildAgentList_fold p :
  buildAgentList opts p
  = map snd (fold_left (fun byTask a => byTask_put a byTask) (candidates opts p) []).
Proof.
  unfold buildAgentList, candidates. f_equal.
  generalize (@nil (TaskId * RemoteAgent)) as acc.
  induction (getActiveAgentIds p) as [|id ids IH]; intros acc; simpl; [reflexivity|].
  rewrite fold_left_app, IH.
  destruct (getAgentMeta id p); reflexivity.
Qed.

Lemma lookup_replace task k v tbl :
  lookupTask task (map (fun kv => if String.eqb (fst kv) k then (k, v) else kv) tbl)
  = if String.eqb k task
    then (if existsb (fun kv => String.eqb (fst kv) k) tbl then Some v else None)
    else lookupTask task tbl.
Proof.
  unfold lookupTask. induction tbl as [|kv tbl IH]; simpl.
  - now destruct (String.eqb k task).
  - destruct (String.eqb (fst kv) k) eqn:E; simpl.
    + destruct (String.eqb k task) eqn:E'; [reflexivity|].
      apply String.eqb_eq in E. rewrite E, E'. exact IH.
    + destruct (String.eqb k task) eqn:E'.
      * apply String.eqb_eq in E'. subst task. rewrite E. exact IH.
      * destruct (String.eqb (fst kv) task); [reflexivity|exact IH].
Qed.

Lemma lookup_snoc task k v tbl :
  lookupTask task (tbl ++ [(k, v)])
  = match lookupTask task tbl with
    | Some e => Some e
    | None => if String.eqb k task then Some v else None
    end.
Proof.
  unfold lookupTask. induction tbl as [|kv tbl IH]; simpl.
  - now destruct (String.eqb k task).
  - match goal with |- context [if ?b then Some kv else _] => destruct b end;
      [reflexivity|exact IH].
Qed.

Lemma find_key_lookup k tbl :
  find (fun kv : TaskId * RemoteAgent => String.eqb (fst kv) k) tbl = None ->
  existsb (fun kv => String.eqb (fst kv) k) tbl = false /\ ~ In k (map fst tbl).
Proof.
  intros H. split.
  - apply not_true_is_false. intros E. apply existsb_exists in E as (kv & Hin & E).
    pose proof (find_none _ _ H kv Hin) as E'. simpl in E'.
    unfold TaskId in *. congruence.
  - intros Hin. apply in_map_iff in Hin as (kv & <- & Hin).
    pose proof (find_none _ _ H kv Hin) as E. simpl in E.
    now rewrite String.eqb_refl in E.
Qed.

Lemma keyed_put a tbl : keyed tbl -> keyed (byTask_put a tbl).
Proof.
  intros [Hnd Hk]. unfold byTask_put.
  match goal with
  | |- context [find ?f tbl] => destruct (find f tbl) as [[k existing]|] eqn:F
  end.
  - destruct (status a), (status existing); try (split; assumption).
    split.
    + rewrite map_map. erewrite map_ext; [exact Hnd|].
      intros kv. simpl. destruct (String.eqb (fst kv) (taskId a)) eqn:E; simpl; [|reflexivity].
      now apply String.eqb_eq in E.
    + intros kv Hin. apply in_map_iff in Hin as (kv0 & <- & Hin).
      destruct (String.eqb (fst kv0) (taskId a)); [reflexivity|now apply Hk].
  - apply find_key_lookup in F as [_ Hnot]. split.
    + rewrite map_app. simpl. now apply RotatingFacts.NoDup_snoc; constructor.
    + intros kv Hin. apply in_app_or in Hin as [Hin|[<-|[]]]; [now apply Hk|reflexivity].
Qed.

Lemma lookup_put task a tbl :
  lookupTask task (byTask_put a tbl)
  = if String.eqb (taskId a) task
    then match lookupTask task tbl with
         | None => Some a
         | Some e => if isRunning a && negb (isRunning e) then Some a else Some e
         end
    else lookupTask task tbl.
Proof.
  unfold byTask_put.
  match goal with
  | |- context [find ?f tbl] => destruct (find f tbl) as [[k existing]|] eqn:F
  end.
  - assert (Hhas : existsb (fun kv => String.eqb (fst kv) (taskId a)) tbl = true).
    { apply existsb_exists. exists (k, existing). apply find_some in F. exact F. }
    destruct (String.eqb (taskId a) task) eqn:E.
    + apply String.eqb_eq in E. subst task.
      assert (Hl : lookupTask (taskId a) tbl = Some existing)
        by (unfold lookupTask; now rewrite F).
      unfold isRunning.
      destruct (status a) eqn:Sa, (status existing) eqn:Se;
        rewrite ?lookup_replace, ?String.eqb_refl, ?Hhas, Hl; simpl; rewrite ?Se;
        reflexivity.
    + destruct (status a), (status existing);
        rewrite ?lookup_replace, ?E; reflexivity.
  - rewrite lookup_snoc.
    destruct (String.eqb (taskId a) task) eqn:E.
    + apply String.eqb_eq in E. subst task. unfold lookupTask. now rewrite F.
    + now destruct (lookupTask task tbl).
Qed.

Lemma lookup_fold task items : forall tbl,
  lookupTask task (fold_left (fun byTask a => byTask_put a byTask) items tbl)
  = match lookupTask task tbl with
    | Some e =>
        if isRunning e then Some e
        else match find (fun a => ofTask task a && isRunning a) items with
             | Some r => Some r
             | None => Some e
             end
    | None => chosen task items
    end.
Proof.
  induction items as [|a items IH]; intros tbl; simpl.
  - destruct (lookupTask task tbl) as [e|]; [now destruct (isRunning e)|reflexivity].
  - rewrite IH, lookup_put. unfold chosen, ofTask. simpl.
    destruct (String.eqb (taskId a) task) eqn:E; simpl; [|reflexivity].
    destruct (lookupTask task tbl) as [e|].
    + destruct (isRunning a) eqn:Ra, (isRunning e) eqn:Re; simpl;
        rewrite ?Ra, ?Re; reflexivity.
    + destruct (isRunning a) eqn:Ra; rewrite ?Ra; [reflexivity|].
      now destruct (find _ items).
Qed.

Lemma keyed_fold items : forall tbl,
  keyed tbl -> keyed (fold_left (fun byTask a => byTask_put a byTask) items tbl).
Proof.
  induction items as [|a items IH]; intros tbl H; simpl; [exact H|].
  apply IH, keyed_put, H.
Qed.

Lemma find_values task tbl :
  keyed tbl -> find (ofTask task) (map snd tbl) = lookupTask task tbl.
Proof.
  intros [_ Hk]. unfold lookupTask, ofTask. unfold TaskId in *.
  induction tbl as [|kv tbl IH]; simpl; [reflexivity|].
  rewrite <- (Hk kv (or_introl eq_refl)).
  destruct (String.eqb (fst kv) task); [reflexivity|].
  apply IH. intros x Hx. apply Hk. now right.
Qed.

Lemma keyed_nil : keyed [].
Proof. split; [constructor|intros kv []]. Qed.

(** The entry that the roster has for a task. *)
Lemma roster_lookup p task :
  find (ofTask task) (buildAgentList opts p) = chosen task (candidates opts p).
Proof.
  rewrite buildAgentList_fold, find_values by apply keyed_fold, keyed_nil.
  now rewrite lookup_fold.
Qed.

Lemma roster_tasks_distinct p : NoDup (map taskId (buildAgentList opts p)).
Proof.
  rewrite buildAgentList_fold.
  destruct (keyed_fold (candidates opts p) [] keyed_nil) as [Hnd Hk].
  rewrite map_map. erewrite map_ext_in; [exact Hnd|].
  intros kv Hin. symmetry. now apply Hk.
Qed.

Lemma chosen_In task l a : chosen task l = Some a -> In a l /\ taskId a = task.
Proof.
  unfold chosen. destruct (find (fun a => ofTask task a && isRunning a) l) eqn:F.
  - intros [= <-]. apply find_some in F as [Hin E].
    apply andb_true_iff in E as [E _]. split; [exact Hin|now apply String.eqb_eq].
  - intros F'. apply find_some in F' as [Hin E]. split; [exact Hin|now apply String.eqb_eq].
Qed.

Lemma find_unique_task (roster : list RemoteAgent) a :
  NoDup (map taskId roster) -> In a roster ->
  find (ofTask (taskId a)) roster = Some a.
Proof.
  intros Hnd Hin. induction roster as [|b l IH]; [destruct Hin|].
  simpl. unfold ofTask at 1.
  destruct (String.eqb (taskId b) (taskId a)) eqn:E.
  - destruct Hin as [->|Hin]; [reflexivity|].
    apply String.eqb_eq in E. inversion Hnd as [|? ? Hnot _]; subst.
    exfalso. apply Hnot. rewrite E. now apply in_map.
  - destruct Hin as [->|Hin]; [now rewrite String.eqb_refl in E|].
    apply IH; [now inversion Hnd|exact Hin].
Qed.

Lemma find_agree {A} (f g : A -> bool) (l : list A) :
  (forall x, In x l -> f x = g x) -> find f l = find g l.
Proof.
  induction l as [|x l IH]; intros H; [reflexivity|]. simpl.
  rewrite (H x (or_introl eq_refl)).
  destruct (g x); [reflexivity|]. apply IH. intros y Hy. apply H. now right.
Qed.

Lemma roster_In_candidates p a :
  In a (buildAgentList opts p) -> In a (candidates opts p).
Proof.
  intros Hin.
  pose proof (find_unique_task _ a (roster_tasks_distinct p) Hin) as Hf.
  rewrite roster_lookup in Hf. now apply chosen_In in Hf.
Qed.

(** X13. The roster has one entry for every task that has a session with
    metadata, and no other entry: each entry is the agent of such a
    session, and no two entries are of the same task. *)
Theorem roster_one_entry_per_task p :
  let roster := buildAgentList opts p in
  NoDup (map taskId roster) /\
  (forall a, In a roster -> In a (candidates opts p)) /\
  (forall a, In a (candidates opts p) ->
             exists b, In b roster /\ taskId b = taskId a).
Proof.
  intros roster. split; [apply roster_tasks_distinct|split].
  - apply roster_In_candidates.
  - intros a Hin.
    destruct (find (ofTask (taskId a)) roster) as [b|] eqn:F.
    + apply find_some in F as [Hb E]. exists b. split; [exact Hb|now apply String.eqb_eq].
    + unfold roster in F. rewrite roster_lookup in F. unfold chosen in F.
      destruct (find (fun a0 => ofTask (taskId a) a0 && isRunning a0) _); [discriminate|].
      pose proof (find_none _ _ F a Hin) as E. unfold ofTask in E.
      now rewrite String.eqb_refl in E.
Qed.

(** X14. Of the sessions of one task the roster shows the first running
    one, and the first one when none is running: a running session
    shadows an exited one, and among sessions of the same status the
    earliest in the supervisor's iteration wins. *)
Theorem roster_prefers_running p task :
  find (ofTask task) (buildAgentList opts p)
  = match find (fun a => ofTask task a && isRunning a) (candidates opts p) with
    | Some a => Some a
    | None => find (ofTask task) (candidates opts p)
    end.
Proof. apply roster_lookup. Qed.

End Roster.

(** X15. With the options that the desktop passes, whose status resolver
    reports a session as running exactly when the supervisor has
    metadata for it, every entry of the roster is a running one
    without exit code or last line, named after its task or, when
    the task has no name, by the task's id; the roster then shows
    the first session of each task. *)
Theorem desktop_roster_all_running port_ ext taskNames p a :
  let opts := Register.remoteOptions port_ ext taskNames p in
  In a (buildAgentList opts p) ->
  status a = running /\ exitCode a = None /\ lastLine a = "" /\
  taskName a = Register.taskNameOr taskNames (taskId a) /\
  find (ofTask (taskId a)) (candidates opts p) = Some a.
Proof.
  intros opts Hin.
  assert (Hc : In a (candidates opts p)) by now apply roster_In_candidates.
  assert (Hshape : status a = running /\ exitCode a = None /\ lastLine a = "" /\
                   taskName a = Register.taskNameOr taskNames (taskId a)).
  { unfold candidates in Hc. apply in_flat_map in Hc as (id & _ & Hc).
    destruct (getAgentMeta id p) as [task|] eqn:Hm; [|destruct Hc].
    destruct Hc as [<-|[]]. simpl. rewrite Hm. auto. }
  split; [apply Hshape|]. split; [apply Hshape|]. split; [apply Hshape|].
  split; [apply Hshape|].
  pose proof (find_unique_task _ a (roster_tasks_distinct opts p) Hin) as Hf.
  rewrite roster_lookup in Hf. unfold chosen in Hf.
  destruct (find (fun a0 => ofTask (taskId a) a0 && isRunning a0) (candidates opts p))
    as [r|] eqn:Fr; [|exact Hf].
  injection Hf as ->.
  assert (Hall : forall x, In x (candidates opts p) -> isRunning x = true).
  { intros x Hx. unfold candidates in Hx. apply in_flat_map in Hx as (id & _ & Hx).
    destruct (getAgentMeta id p) as [task|] eqn:Hm; [|destruct Hx].
    destruct Hx as [<-|[]]. unfold isRunning. simpl. now rewrite Hm. }
  rewrite <- Fr. apply find_agree. intros x Hx. rewrite (Hall x Hx).
  now rewrite andb_true_r.
Qed.

Lemma desktop_roster_all_running_witness :
  let p := Fixture.sessions in
  let a := mkAgent "a1" "T1" "first" running None "" in
  let opts := Register.remoteOptions 7777%N false [("T1", "first")] p in
  status a = running /\ exitCode a = None /\ lastLine a = "" /\
  taskName a = Register.taskNameOr [("T1", "first")] (taskId a) /\
  find (ofTask (taskId a)) (candidates opts p) = Some a.
Proof.
  apply (desktop_roster_all_running 7777%N false [("T1", "first")] Fixture.sessions
           (mkAgent "a1" "T1" "first" running None "")).
  vm_compute. now left.
Defined.


(** ** The token of a handshake *)

Lemma find_first {A} (f : A -> bool) before x rest :
  (forall y, In y before -> f y = false) -> f x = true ->
  find f (before ++ x :: rest) = Some x.
Proof.
  intros Hb Hx. induction before as [|y before IH]; simpl.
  - now rewrite Hx.
  - rewrite (Hb y (or_introl eq_refl)). apply IH. intros z Hz. apply Hb. now right.
Qed.

Lemma find_nowhere {A} (f : A -> bool) l :
  (forall y, In y l -> f y = false) -> find f l = None.
Proof.
  intros H. induction l as [|y l IH]; simpl; [reflexivity|].
  rewrite (H y (or_introl eq_refl)). apply IH. intros z Hz. apply H. now right.
Qed.

(** X16. The token of a handshake is taken from the first source that
    applies: an Authorization header that starts with [Bearer ]
    (whatever follows, even nothing), else the first subprotocol
    that starts with [pc-token.] when something follows the prefix,
    else the [token] query parameter. *)
Theorem handshake_token_precedence req :
  (forall t, authorization req = Some ("Bearer " ++ t)%string ->
             getWsHandshakeToken req = Some t) /\
  ((forall auth, authorization req = Some auth -> String.prefix "Bearer " auth = false) ->
   (forall before t rest,
      protocols req = before ++ ("pc-token." ++ t)%string :: rest ->
      (forall p, In p before -> String.prefix "pc-token." p = false) ->
      getWsHandshakeToken req = if String.eqb t "" then queryToken req else Some t) /\
   ((forall p, In p (protocols req) -> String.prefix "pc-token." p = false) ->
    getWsHandshakeToken req = queryToken req)).
Proof.
  split.
  - intros t H. unfold getWsHandshakeToken. rewrite H.
    rewrite (prefix_append "Bearer " t).
    f_equal. apply (slice_append "Bearer " t).
  - intros Hauth.
    assert (E : getWsHandshakeToken req
                = if truthy (getWsProtocolToken req)
                  then getWsProtocolToken req else queryToken req).
    { unfold getWsHandshakeToken. destruct (authorization req) as [auth|]; [|reflexivity].
      now rewrite (Hauth auth eq_refl). }
    rewrite E. unfold getWsProtocolToken. split.
    + intros before t rest Hp Hb. rewrite Hp.
      rewrite (find_first _ before _ rest Hb (prefix_append "pc-token." t)).
      cbn [option_map]. rewrite (slice_append "pc-token." t).
      unfold truthy, falsy. now destruct (String.eqb t "").
    + intros Hp. now rewrite (find_nowhere _ _ Hp).
Qed.

(** ** The bearer token of the HTTP API *)

Lemma prefix_split p : forall s,
  String.prefix p s = true -> s = (p ++ slice (String.length p) s)%string.
Proof.
  induction p as [|x p IH]; intros s H.
  - unfold slice. simpl. rewrite Nat.sub_0_r. now rewrite substring_all.
  - destruct s as [|y s]; simpl in H; [discriminate|].
    destruct (ascii_dec x y) as [->|]; [|discriminate].
    simpl. f_equal. rewrite (IH s H) at 1. reflexivity.
Qed.

Lemma tokenStore_accepts_falsy c g :
  falsy c = true -> tokenStore (RotatingTokenStore.accepts c) g = (false, g).
Proof.
  intros F. unfold tokenStore. rewrite RotatingFacts.accepts_falsy by exact F.
  now destruct g.
Qed.

(** [checkAuthHeader] says yes to a header exactly when it is
    [Bearer ] followed by a token that the store accepts. *)
Lemma checkAuthHeader_true auth g :
  fst (checkAuthHeader auth g) = true <->
  exists t, auth = Some ("Bearer " ++ t)%string /\ t <> "" /\
            fst (tokenStore (RotatingTokenStore.accepts (Some t)) g) = true.
Proof.
  unfold checkAuthHeader. split.
  - destruct auth as [auth|]; [|discriminate].
    destruct (String.prefix "Bearer " auth) eqn:P; [|discriminate].
    intros H. exists (slice 7 auth). split; [|split; [|exact H]].
    + f_equal. apply (prefix_split "Bearer " auth P).
    + intros E. rewrite E, tokenStore_accepts_falsy in H by reflexivity. discriminate.
  - intros (t & -> & _ & H). rewrite (prefix_append "Bearer " t).
    change (slice 7 ("Bearer " ++ t))
      with (slice (String.length "Bearer ") ("Bearer " ++ t)).
    now rewrite slice_append.
Qed.

(** X17. The JSON routes of the API other than the refresh route give
    nothing away without a bearer token that the store accepts:
    every reply of theirs that is not the 401 answers a request whose
    Authorization header carries such a token, and the [token] of a
    query string is of no use there. *)
Theorem api_requires_bearer opts req g st hs body :
  fst (onRequest opts req g) = Replied st hs body -> st <> 401 ->
  exists t, bearer req = Some ("Bearer " ++ t)%string /\ t <> "" /\
            fst (tokenStore (RotatingTokenStore.accepts (Some t)) g) = true.
Proof.
  intros H Hst. apply checkAuthHeader_true.
  unfold onRequest in H.
  destruct (String.prefix "/api/" (path req)); [|discriminate].
  destruct (_ && _); [discriminate|].
  unfold bind at 1 in H.
  destruct (checkAuthHeader (bearer req) g) as [ok g1]. cbn [fst].
  destruct ok; [reflexivity|].
  cbn in H. injection H as <- _ _. contradiction.
Qed.

Lemma api_requires_bearer_witness :
  exists t, Some "Bearer tok0" = Some ("Bearer " ++ t)%string /\ t <> "" /\
            fst (tokenStore (RotatingTokenStore.accepts (Some t)) Fixture.started) = true.
Proof.
  apply (api_requires_bearer Fixture.opts
           (mkHttpRequest "GET" "/api/agents/a1" (Some "Bearer tok0"))
           Fixture.started 200
           (SECURITY_HEADERS ++ [("Content-Type", "application/json")])
           (ApiAgent "a1" "hello" running None)).
  - vm_compute. reflexivity.
  - discriminate.
Defined.

(** X18. An agent is looked up by the last segment of the path alone: a
    session that the supervisor does not know gives 404, also to an
    authenticated request, and a known one gives its scrollback. *)
Theorem api_agent_lookup opts req g id :
  fst (checkAuthHeader (bearer req) g) = true ->
  path req = ("/api/agents/" ++ id)%string -> method req = "GET" ->
  id <> "" -> existsb (Ascii.eqb "/") (list_ascii_of_string id) = false ->
  let hs := GatewaySpec.jsonHeaders in
    fst (onRequest opts req g) =
    match getAgentScrollback id (pty g) with
    | None => Replied 404 hs (ApiError "agent not found")
    | Some data =>
        Replied 200 hs
          (ApiAgent id data
             (match getAgentMeta id (pty g) with
              | Some _ => info_status (getAgentStatus opts id)
              | None => exited
              end)
             (match getAgentMeta id (pty g) with
              | Some _ => info_exitCode (getAgentStatus opts id)
              | None => None
              end))
    end.
Proof.
  intros Hok Hp Hm Hid Hslash hs. unfold onRequest.
  rewrite Hp, Hm.
  assert (Hapi : String.prefix "/api/" ("/api/agents/" ++ id) = true)
    by apply (prefix_append "/api/" ("agents/" ++ id)).
  rewrite Hapi.
  assert (Hr : String.eqb ("/api/agents/" ++ id) "/api/auth/refresh" = false).
  { apply String.eqb_neq. intros E. injection E as E.
    destruct id as [|c id]; [discriminate|]. simpl in E. discriminate. }
  rewrite Hr. cbn [andb].
  unfold bind at 1. destruct (checkAuthHeader (bearer req) g) as [ok g1] eqn:Hc.
  cbn [fst] in Hok. subst ok. cbn [negb].
  assert (Hl : String.eqb ("/api/agents/" ++ id) "/api/agents" = false).
  { apply String.eqb_neq. intros E. injection E as E. discriminate. }
  rewrite Hl. cbn [andb].
  assert (Hmatch : agentMatch ("/api/agents/" ++ id) = Some id).
  { unfold agentMatch. rewrite (prefix_append "/api/agents/" id).
    rewrite (slice_append "/api/agents/" id), Hslash.
    apply String.eqb_neq in Hid. now rewrite Hid. }
  rewrite Hmatch. rewrite String.eqb_refl.
  assert (Hpty : pty g1 = pty g).
  { unfold checkAuthHeader in Hc. destruct (bearer req) as [auth|]; [|now inversion Hc].
    destruct (String.prefix "Bearer " auth); [|now inversion Hc].
    unfold tokenStore in Hc. destruct (RotatingTokenStore.accepts _ _) in Hc.
    now inversion Hc. }
  unfold bind, gets, reply, ret. cbn [fst]. rewrite Hpty.
  destruct (getAgentScrollback id (pty g)); [|reflexivity].
  destruct (getAgentMeta id (pty g)); reflexivity.
Qed.

Lemma api_agent_lookup_witness :
  let hs := GatewaySpec.jsonHeaders in
    fst (onRequest Fixture.opts (mkHttpRequest "GET" "/api/agents/zz" (Some "Bearer tok0"))
           Fixture.started) =
    match getAgentScrollback "zz" (pty Fixture.started) with
    | None => Replied 404 hs (ApiError "agent not found")
    | Some data =>
        Replied 200 hs
          (ApiAgent "zz" data
             (match getAgentMeta "zz" (pty Fixture.started) with
              | Some _ => info_status (getAgentStatus Fixture.opts "zz")
              | None => exited
              end)
             (match getAgentMeta "zz" (pty Fixture.started) with
              | Some _ => info_exitCode (getAgentStatus Fixture.opts "zz")
              | None => None
              end))
    end.
Proof.
  apply (api_agent_lookup Fixture.opts
           (mkHttpRequest "GET" "/api/agents/zz" (Some "Bearer tok0"))
           Fixture.started "zz").
  - vm_compute. reflexivity.
  - reflexivity.
  - reflexivity.
  - discriminate.
  - reflexivity.
Defined.


End ServerFacts.

(** * Properties of the remote client's token storage *)

Module RemoteAuthFacts.
Import RemoteAuth.

Lemma getItem_setItem k v st : getItem k (setItem k v st) = Some v.
Proof.
  unfold getItem, setItem.
  destruct (existsb _ st) eqn:H.
  - induction st as [|kv st IH]; simpl in *; [discriminate|].
    destruct (String.eqb (fst kv) k) eqn:E; simpl.
    + now rewrite String.eqb_refl.
    + rewrite E. apply IH. exact H.
  - induction st as [|kv st IH]; simpl in *.
    + now rewrite String.eqb_refl.
    + apply orb_false_iff in H as [E H]. rewrite E. now apply IH.
Qed.

Lemma getItem_setItem_other k k' v st :
  k <> k' -> getItem k' (setItem k v st) = getItem k' st.
Proof.
  intros Hne. unfold getItem, setItem.
  assert (Hk : String.eqb k k' = false) by now apply String.eqb_neq.
  destruct (existsb _ st).
  - induction st as [|kv st IH]; simpl; [reflexivity|].
    destruct (String.eqb (fst kv) k) eqn:E; simpl.
    + apply String.eqb_eq in E. rewrite E, Hk. exact IH.
    + destruct (String.eqb (fst kv) k'); [reflexivity|exact IH].
  - induction st as [|kv st IH]; simpl.
    + now rewrite Hk.
    + destruct (String.eqb (fst kv) k'); [reflexivity|exact IH].
Qed.

Lemma getItem_removeItem k st : getItem k (removeItem k st) = None.
Proof.
  unfold getItem, removeItem. induction st as [|kv st IH]; simpl; [reflexivity|].
  destruct (String.eqb (fst kv) k) eqn:E; simpl; [exact IH|].
  rewrite E. exact IH.
Qed.

Lemma getItem_removeItem_other k k' st :
  k <> k' -> getItem k' (removeItem k st) = getItem k' st.
Proof.
  intros Hne. unfold getItem, removeItem.
  induction st as [|kv st IH]; simpl; [reflexivity|].
  destruct (String.eqb (fst kv) k) eqn:E; simpl.
  - apply String.eqb_eq in E. rewrite E.
    assert (Hk : String.eqb k k' = false) by now apply String.eqb_neq.
    rewrite Hk. exact IH.
  - destruct (String.eqb (fst kv) k'); [reflexivity|exact IH].
Qed.

Lemma keys_differ : TOKEN_KEY <> REFRESH_TOKEN_KEY.
Proof. discriminate. Qed.

(** X19. The access token and the refresh token are stored side by side:
    what is written under one is read back from it, and writing or
    clearing one leaves the other as it was. *)
Theorem stored_tokens_independent st t :
  (fst (getToken (snd (setToken t st))) = Some t /\
   fst (getRefreshToken (snd (setToken t st))) = fst (getRefreshToken st)) /\
  (fst (getRefreshToken (snd (setRefreshToken t st))) = Some t /\
   fst (getToken (snd (setRefreshToken t st))) = fst (getToken st)) /\
  (fst (getToken (snd (clearToken st))) = None /\
   fst (getRefreshToken (snd (clearToken st))) = fst (getRefreshToken st)) /\
  (fst (getRefreshToken (snd (clearRefreshToken st))) = None /\
   fst (getToken (snd (clearRefreshToken st))) = fst (getToken st)).
Proof.
  unfold getToken, getRefreshToken, setToken, setRefreshToken, clearToken,
    clearRefreshToken, gets, modify. cbn [fst snd].
  pose proof keys_differ as Hne.
  repeat split;
    first [ apply getItem_setItem
          | apply getItem_removeItem
          | apply getItem_setItem_other; congruence
          | apply getItem_removeItem_other; congruence ].
Qed.

(** X20. [initAuth] returns what [getToken] returns afterwards and does
    not touch the refresh token.  A token in the hash of the URL is
    preferred to one in the query, and an empty one in the hash hides
    the one in the query: the stored token is returned then, and
    nothing is written. *)
Theorem initAuth_returns_stored_token hashToken queryToken st :
  let r := fst (initAuth hashToken queryToken st) in
  let st' := snd (initAuth hashToken queryToken st) in
  r = fst (getToken st') /\
  fst (getRefreshToken st') = fst (getRefreshToken st) /\
  (forall t, hashToken = Some t -> t <> "" -> r = Some t) /\
  (hashToken = Some "" -> r = fst (getToken st) /\ st' = st) /\
  (hashToken = None -> forall t, queryToken = Some t -> t <> "" -> r = Some t).
Proof.
  unfold initAuth, getToken, getRefreshToken, gets, modify, bind, ret.
  set (urlToken := match hashToken with Some t => Some t | None => queryToken end).
  assert (Hcases : falsy urlToken = true \/
                   exists t, urlToken = Some t /\ t <> "").
  { destruct urlToken as [t|]; [|now left]. simpl.
    destruct (String.eqb_spec t ""); [now left|right; eauto]. }
  destruct Hcases as [F|(t & E & Hne)].
  - rewrite F. cbn [fst snd]. repeat split; auto.
    + intros t -> Hne. subst urlToken. simpl in F. apply String.eqb_eq in F. contradiction.
    + intros -> t -> Hne. subst urlToken. simpl in F. apply String.eqb_eq in F. contradiction.
  - rewrite E. rewrite (falsy_Some t Hne). cbn [fst snd str].
    split; [now rewrite getItem_setItem|split].
    + apply getItem_setItem_other, keys_differ.
    + subst urlToken. split; [|split].
      * intros t' -> _. congruence.
      * intros ->. injection E as <-. contradiction.
      * intros -> t' -> _. congruence.
Qed.


(** X22. The header that the client builds from its stored token is read
    by the server as that token: the verdict of [checkAuthHeader] on
    it is the verdict of the token store on the stored token, and
    without a stored token there is no header and the verdict is
    no. *)
Theorem bearer_header_round_trip st g :
  Server.checkAuthHeader (fst (authHeaders st)) g
  = Server.tokenStore (RotatingTokenStore.accepts (fst (getToken st))) g.
Proof.
  unfold authHeaders, getToken, bind, gets, ret. cbn [fst].
  destruct (falsy (getItem TOKEN_KEY st)) eqn:F.
  - rewrite ServerFacts.tokenStore_accepts_falsy by exact F. reflexivity.
  - destruct (getItem TOKEN_KEY st) as [t|]; [|discriminate]. cbn [str].
    unfold Server.checkAuthHeader. rewrite (TextFacts.prefix_append "Bearer " t).
    change (Server.slice 7 ("Bearer " ++ t))
      with (Server.slice (String.length "Bearer ") ("Bearer " ++ t)).
    now rewrite TextFacts.slice_append.
Qed.

End RemoteAuthFacts.

(** * Further properties of the gateway *)

Module GatewayLaws.
Import ServerSpec.
Import GatewaySpec.
Import Server.
Import GatewayFacts.

#[local] Hint Resolve framed_ret framed_gets framed_emit framed_now framed_fresh
  framed_tokenStore framed_refreshStore : framed.

(** ** Properties that the handlers keep *)

Lemma stable_ret {A} P (a : A) : stable P (ret a).
Proof. intros g H. exact H. Qed.

Lemma stable_gets {A} P (f : Gateway -> A) : stable P (gets f).
Proof. intros g H. exact H. Qed.

Lemma stable_bind {A B} P (m : State Gateway A) (k : A -> State Gateway B) :
  stable P m -> (forall a, stable P (k a)) -> stable P (bind m k).
Proof.
  intros Hm Hk g H. unfold bind. specialize (Hm g H).
  destruct (m g) as [a g1]. now apply Hk.
Qed.

Lemma stable_when P b m : stable P m -> stable P (when b m).
Proof. intros H. destruct b; [exact H|apply stable_ret]. Qed.

Lemma stable_forEach {A} P (l : list A) body :
  (forall x, stable P (body x)) -> stable P (forEach l body).
Proof.
  intros H. induction l as [|x l IH]; simpl.
  - apply stable_ret.
  - apply stable_bind; auto.
Qed.

(** Break a handler into its steps; [leaf] closes the primitive
    ones. *)
Ltac stable_with leaf :=
  repeat lazymatch goal with
  | |- stable _ (bind _ _) => apply stable_bind; [|intros]
  | |- stable _ (when _ _) => apply stable_when
  | |- stable _ (forEach _ _) => apply stable_forEach; intros
  | |- stable _ (ret _) => apply stable_ret
  | |- stable _ (gets _) => apply stable_gets
  | |- stable _ (if ?b then _ else _) => destruct b
  | |- stable _ (match ?x with _ => _ end) => destruct x
  | |- stable _ (let (_, _) := ?x in _) => destruct x
  | |- stable _ _ => progress leaf
  end.

(** The handlers, down to their primitive steps. *)
Ltac unfold_handlers :=
  unfold onSpawn, onListChanged, rosterTimeout, tokenExpiryTimer, onExit, onOutput,
    onRefreshRequest, onBodyEnd, onMessage, onSubscribe, onUnsubscribe,
    onAuthTimeout, onClose, onConnection, verifyClient, ptySpawned, ptyExited;
  unfold rotateToken, broadcastAgents, sendAgentList, sendTokenMessage;
  unfold issueTokenPayload, writeJson, broadcast, subsOf, ws_send, ws_close;
  unfold currentUrls, readyStateOf.

(** *** The connection limit *)

Ltac count_leaf :=
  idtac;
  let g := fresh "g" in
  let H := fresh "H" in
  match goal with
  | |- stable _ (tokenStore ?m) =>
      intros g H; unfold tokenStore; destruct (m _); exact H
  | |- stable _ (refreshStore ?m) =>
      intros g H; unfold refreshStore; destruct (m _); exact H
  | |- stable _ (updateConn _ _) =>
      intros g H; unfold withinLimit, updateConn, modify;
      cbn [snd clients set_clients]; rewrite length_map; exact H
  | |- stable _ (modify _) =>
      intros g H; unfold withinLimit, modify;
      cbn [snd clients set_clients set_authedClients set_pty];
      first [ exact H
            | rewrite length_map; exact H
            | etransitivity; [apply filter_length_le|exact H] ]
  | |- stable _ _ => intros g H; exact H
  end.

Lemma withinLimit_step opts JSON_refreshToken ev g :
  withinLimit g -> withinLimit (step opts JSON_refreshToken ev g).
Proof.
  destruct ev; unfold step.
  - intros H. rewrite onUpgrade_eq.
    assert (Hv : stable withinLimit (verifyClient req)).
    { unfold_handlers. stable_with count_leaf. }
    pose proof (Hv g H) as H1.
    assert (Hfull : fst (verifyClient req g) = None ->
                    (List.length (clients (snd (verifyClient req g))) < 10)%nat).
    { unfold verifyClient.
      destruct (negb (String.eqb (pathname req) "/ws")); [discriminate|].
      unfold bind, gets.
      destruct (10 <=? List.length (clients g))%nat eqn:E; [discriminate|].
      apply Nat.leb_gt in E.
      destruct (accepts_on_gateway (getWsHandshakeToken req) g) as (w' & Hacc & _).
      rewrite Hacc. destruct (negb _); intros _; exact E. }
    destruct (verifyClient req g) as [[[code message]|] g1]; cbn [fst snd] in *.
    + exact H1.
    + specialize (Hfull eq_refl). cbv zeta. cbn [snd].
      set (g2 := mkGateway _ _ _ _ _ _ _ _ _ _).
      assert (Hc : stable withinLimit (onConnection opts (objects g1) req)).
      { unfold_handlers. stable_with count_leaf. }
      apply Hc. unfold withinLimit, g2. cbn [clients]. rewrite length_app. simpl. lia.
  - revert g. change (stable withinLimit (onMessage opts ws msg)).
    unfold_handlers. stable_with count_leaf.
  - revert g. change (stable withinLimit (onClose ws)).
    unfold_handlers. stable_with count_leaf.
  - revert g. change (stable withinLimit (onAuthTimeout ws)).
    unfold_handlers. stable_with count_leaf.
  - revert g. change (stable withinLimit (tokenExpiryTimer opts)).
    unfold_handlers. stable_with count_leaf.
  - revert g. change (stable withinLimit (ptySpawned agent task cols_ ;;; onSpawn opts)).
    unfold ptySpawned. unfold_handlers. stable_with count_leaf.
  - revert g. change (stable withinLimit (onListChanged opts)).
    unfold_handlers. stable_with count_leaf.
  - revert g. change (stable withinLimit (onExit agent code ;;; ptyExited agent)).
    unfold ptyExited. unfold_handlers. stable_with count_leaf.
  - revert g. change (stable withinLimit (rosterTimeout opts)).
    unfold_handlers. stable_with count_leaf.
  - revert g. change (stable withinLimit (onOutput agent encoded)).
    unfold_handlers. stable_with count_leaf.
  - revert g. change (stable withinLimit (onRefreshRequest opts JSON_refreshToken req)).
    unfold_handlers. stable_with count_leaf.
Qed.

(** X23. The gateway never has more than ten connections, whatever
    happens: a handshake that would be the eleventh is refused with
    429 before a socket is made for it. *)
Theorem connection_limit opts JSON_refreshToken w p net evs :
  let g := run opts JSON_refreshToken evs (startRemoteServer w p net) in
  (List.length (clients g) <= 10)%nat /\
  (forall req, List.length (clients g) = 10%nat -> pathname req = "/ws" ->
     onUpgrade opts req g
     = (None, add_log [RejectHandshake 429 "Too many connections"] g)).
Proof.
  intros g. split.
  - subst g.
    assert (H : forall g0, withinLimit g0 ->
                           withinLimit (run opts JSON_refreshToken evs g0)).
    { induction evs as [|ev evs IH]; intros g0 H0; simpl; [exact H0|].
      apply IH, withinLimit_step, H0. }
    apply H. unfold withinLimit. simpl. lia.
  - intros req Hfull Hpath. rewrite onUpgrade_eq.
    assert (E : verifyClient req g = (Some (429, "Too many connections"), g)).
    { unfold verifyClient. rewrite Hpath.
      change (negb (String.eqb "/ws" "/ws")) with false. cbv iota.
      unfold bind, gets. now rewrite Hfull. }
    now rewrite E.
Qed.

(** *** The caps of the stores *)

Lemma bounded_accepts c : stable storesBounded (tokenStore (RotatingTokenStore.accepts c)).
Proof.
  intros g H. destruct (accepts_on_gateway c g) as (w' & E & _). rewrite E. exact H.
Qed.

Lemma bounded_rotate :
  stable storesBounded (tokenStore (RotatingTokenStore.rotate tokenOptions)).
Proof.
  intros g [H1 H2]. unfold tokenStore. rewrite RotatingFacts.rotate_eq.
  split; [exact H1|]. cbn [snd previous RotatingTokenStore.previous].
  apply RefreshFacts.length_cap_oldest.
Qed.

Lemma bounded_token_prune : stable storesBounded (tokenStore RotatingTokenStore.prune).
Proof.
  intros g [H1 H2]. unfold tokenStore. rewrite RotatingFacts.rotating_prune_eq.
  split; [exact H1|]. cbn [snd previous RotatingTokenStore.previous].
  etransitivity; [apply filter_length_le|exact H2].
Qed.

Lemma bounded_refresh_call k :
  stable storesBounded
    (refreshStore (fun s => (tt, RefreshSpec.call refreshOptions k s))).
Proof.
  intros g [H1 H2]. unfold refreshStore. split; [|exact H2].
  cbn [snd entries].
  apply (RefreshLaws.within_cap_call refreshOptions k
           (RefreshSessionStore.mkStore (world g) (entries g))).
  exact H1.
Qed.

Lemma bounded_refresh {A} (m : State RefreshSessionStore.Store A) k :
  (forall s, snd (m s) = RefreshSpec.call refreshOptions k s) ->
  stable storesBounded (refreshStore m).
Proof.
  intros Hm g H. pose proof (bounded_refresh_call k g H) as H'.
  unfold refreshStore in *. specialize (Hm (RefreshSessionStore.mkStore (world g) (entries g))).
  destruct (m _) as [a st]. cbn [snd] in *. subst st. exact H'.
Qed.

Ltac bounded_leaf :=
  idtac;
  let g := fresh "g" in
  let H := fresh "H" in
  lazymatch goal with
  | |- stable _ (tokenStore (RotatingTokenStore.accepts _)) => apply bounded_accepts
  | |- stable _ (tokenStore (RotatingTokenStore.rotate _)) => apply bounded_rotate
  | |- stable _ (tokenStore RotatingTokenStore.prune) => apply bounded_token_prune
  | |- stable _ (refreshStore (RefreshSessionStore.issue _)) =>
      apply (bounded_refresh _ RefreshSpec.CallIssue); reflexivity
  | |- stable _ (refreshStore (RefreshSessionStore.exchange _ ?c)) =>
      apply (bounded_refresh _ (RefreshSpec.CallExchange c)); reflexivity
  | |- stable _ (refreshStore RefreshSessionStore.prune) =>
      apply (bounded_refresh _ RefreshSpec.CallPrune); reflexivity
  | |- stable _ _ => intros g H; exact H
  end.

Lemma storesBounded_step opts JSON_refreshToken ev g :
  storesBounded g -> storesBounded (step opts JSON_refreshToken ev g).
Proof.
  revert g. destruct ev; unfold step;
    match goal with
    | |- forall g, _ -> storesBounded (snd (?m g)) => change (stable storesBounded m)
    end;
    unfold onUpgrade; unfold_handlers; stable_with bounded_leaf.
Qed.

(** X24. Both stores stay within their caps while the gateway runs: it
    never holds more than 64 refresh tokens, nor more than one
    previous access token beside the current one. *)
Theorem gateway_stores_bounded opts JSON_refreshToken w p net evs :
  let g := run opts JSON_refreshToken evs (startRemoteServer w p net) in
  (List.length (entries g) <= 64)%nat /\ (List.length (previous g) <= 1)%nat.
Proof.
  intros g. subst g.
  assert (H : forall g0, storesBounded g0 ->
                         storesBounded (run opts JSON_refreshToken evs g0)).
  { induction evs as [|ev evs IH]; intros g0 H0; simpl; [exact H0|].
    apply IH, storesBounded_step, H0. }
  apply (H (startRemoteServer w p net)). split; simpl; lia.
Qed.


(** *** The registry of authenticated connections *)

Lemma stable_apply {A} P (m : State Gateway A) g : stable P m -> P g -> P (snd (m g)).
Proof. intros H. apply H. Qed.

Lemma exactC_updated cs a ws f :
  (forall c, conn_ws (f c) = conn_ws c /\ authed (f c) = authed c) ->
  exactC cs a -> exactC (updated ws f cs) a.
Proof.
  intros Hf [Hnd H]. split; [exact Hnd|]. intros x. rewrite H. unfold updated. split.
  - intros (c & Hc & Hw & Ha).
    exists (if Nat.eqb (conn_ws c) ws then f c else c). split; [|split].
    + apply in_map_iff. exists c. auto.
    + destruct (Nat.eqb _ _); [now rewrite (proj1 (Hf c))|exact Hw].
    + destruct (Nat.eqb _ _); [now rewrite (proj2 (Hf c))|exact Ha].
  - intros (c' & Hc' & Hw & Ha). apply in_map_iff in Hc' as (c & <- & Hc).
    exists c. split; [exact Hc|].
    destruct (Nat.eqb _ _); [|auto].
    now rewrite (proj1 (Hf c)) in Hw; rewrite (proj2 (Hf c)) in Ha.
Qed.

Lemma In_set_add x ws a : In x (set_add ws a) <-> In x a \/ x = ws.
Proof.
  unfold set_add. destruct (existsb (Nat.eqb ws) a) eqn:E.
  - split; [auto|]. intros [H| ->]; [exact H|].
    apply existsb_exists in E as (y & Hy & E). apply Nat.eqb_eq in E. now subst.
  - rewrite in_app_iff. simpl. intuition congruence.
Qed.

Lemma NoDup_set_add ws a : NoDup a -> NoDup (set_add ws a).
Proof.
  intros H. unfold set_add. destruct (existsb (Nat.eqb ws) a) eqn:E; [exact H|].
  apply RotatingFacts.NoDup_snoc. constructor; [|exact H].
  intros Hin. assert (existsb (Nat.eqb ws) a = true); [|congruence].
  apply existsb_exists. exists ws. split; [exact Hin|apply Nat.eqb_refl].
Qed.

(** A connection becomes authenticated. *)
Lemma exactC_authenticate cs a ws f c0 :
  (forall c, conn_ws (f c) = conn_ws c /\ authed (f c) = true) ->
  In c0 cs -> conn_ws c0 = ws ->
  exactC cs a -> exactC (updated ws f cs) (set_add ws a).
Proof.
  intros Hf Hc0 Hw0 [Hnd H]. split; [now apply NoDup_set_add|].
  intros x. rewrite In_set_add, H. unfold updated. split.
  - intros [(c & Hc & Hw & Ha)| ->].
    + exists (if Nat.eqb (conn_ws c) ws then f c else c). split; [|split].
      * apply in_map_iff. exists c. auto.
      * destruct (Nat.eqb _ _); [now rewrite (proj1 (Hf c))|exact Hw].
      * destruct (Nat.eqb _ _); [apply Hf|exact Ha].
    + exists (f c0). split; [|split; [|apply Hf]].
      * apply in_map_iff. exists c0. split; [|exact Hc0].
        now rewrite Hw0, Nat.eqb_refl.
      * now rewrite (proj1 (Hf c0)).
  - intros (c' & Hc' & Hw & Ha). apply in_map_iff in Hc' as (c & <- & Hc).
    destruct (Nat.eqb_spec (conn_ws c) ws) as [E|E].
    + right. now rewrite (proj1 (Hf c)) in Hw; subst.
    + left. exists c. auto.
Qed.

(** A connection that is not authenticated changes. *)
Lemma exactC_unauthenticated cs a ws f :
  (forall c, conn_ws (f c) = conn_ws c /\ authed (f c) = false) ->
  (forall c, In c cs -> conn_ws c = ws -> authed c = false) ->
  exactC cs a -> exactC (updated ws f cs) a.
Proof.
  intros Hf Hun [Hnd H]. split; [exact Hnd|]. intros x. rewrite H. unfold updated. split.
  - intros (c & Hc & Hw & Ha). exists c. split; [|auto].
    apply in_map_iff. exists c. split; [|exact Hc].
    destruct (Nat.eqb_spec (conn_ws c) ws) as [E|E]; [|reflexivity].
    rewrite (Hun c Hc E) in Ha. discriminate.
  - intros (c' & Hc' & Hw & Ha). apply in_map_iff in Hc' as (c & <- & Hc).
    destruct (Nat.eqb (conn_ws c) ws); [|exists c; auto].
    rewrite (proj2 (Hf c)) in Ha. discriminate.
Qed.

(** A connection is gone. *)
Lemma exactC_closed cs a ws :
  exactC cs a ->
  exactC (filter (fun c => negb (Nat.eqb (conn_ws c) ws)) cs) (set_delete ws a).
Proof.
  intros [Hnd H]. unfold set_delete. split; [now apply NoDup_filter|].
  intros x. rewrite filter_In, H. split.
  - intros [(c & Hc & Hw & Ha) Hx]. exists c. split; [|auto].
    apply filter_In. split; [exact Hc|].
    apply negb_true_iff in Hx. apply Nat.eqb_neq in Hx.
    apply negb_true_iff, Nat.eqb_neq. congruence.
  - intros (c & Hc & Hw & Ha). apply filter_In in Hc as [Hc Hx].
    split; [exists c; auto|].
    apply negb_true_iff, Nat.eqb_neq in Hx.
    apply negb_true_iff, Nat.eqb_neq. congruence.
Qed.

(** A connection joins, not authenticated. *)
Lemma exactC_joined cs a c :
  authed c = false -> exactC cs a -> exactC (cs ++ [c]) a.
Proof.
  intros Hc [Hnd H]. split; [exact Hnd|]. intros x. rewrite H. split.
  - intros (c' & Hin & Hw). exists c'. split; [apply in_or_app; now left|exact Hw].
  - intros (c' & Hin & Hw & Ha). apply in_app_or in Hin as [Hin|[<-|[]]].
    + exists c'. auto.
    + congruence.
Qed.

Ltac exact_leaf :=
  idtac;
  let g := fresh "g" in
  let H := fresh "H" in
  lazymatch goal with
  | |- stable _ (tokenStore ?m) =>
      intros g H; unfold tokenStore; destruct (m _); exact H
  | |- stable _ (refreshStore ?m) =>
      intros g H; unfold refreshStore; destruct (m _); exact H
  | |- stable _ (updateConn ?ws ?f) =>
      intros g H; apply (exactC_updated _ _ ws f); [intros; split; reflexivity|exact H]
  | |- stable _ (modify _) =>
      intros g H;
      first [ exact H
            | unfold authedExact, modify; cbn [snd clients authedClients set_clients];
              apply (fun f Hf =>
                       exactC_updated (clients g) (authedClients g) 0 f Hf H) ]
  | |- stable _ _ => intros g H; exact H
  end.

Lemma authedExact_onExit id code : stable authedExact (onExit id code).
Proof.
  unfold onExit. apply stable_bind; [unfold_handlers; stable_with exact_leaf|intros _].
  apply stable_bind; [|intros; stable_with exact_leaf].
  intros g [Hnd H]. unfold authedExact, modify. cbn [snd clients authedClients set_clients].
  split; [exact Hnd|]. intros x. rewrite H. split.
  - intros (c & Hc & Hw & Ha). exists (set_subs (subs_delete id (subs c)) c).
    split; [apply in_map_iff; exists c; auto|auto].
  - intros (c' & Hc' & Hw & Ha). apply in_map_iff in Hc' as (c & <- & Hc).
    exists c. auto.
Qed.

Lemma authedExact_onClose ws : stable authedExact (onClose ws).
Proof.
  intros g H. unfold onClose, subsOf. unfold bind at 1, gets at 1.
  unfold bind at 1, modify at 1. unfold bind at 1, modify at 1.
  apply stable_apply; [stable_with exact_leaf|].
  unfold authedExact. cbn [clients authedClients set_clients set_authedClients].
  now apply exactC_closed.
Qed.

Lemma authedExact_onMessage opts ws msg : stable authedExact (onMessage opts ws msg).
Proof.
  intros g H. destruct msg as [msg|]; [|exact H].
  destruct (findConn ws (clients g)) as [c|] eqn:Hc;
    [|unfold onMessage, bind, gets; now rewrite Hc].
  destruct (authed c) eqn:Ha.
  - rewrite (onMessage_authed opts ws msg g c Hc Ha).
    destruct msg; try exact H; apply stable_apply; auto;
      unfold_handlers; stable_with exact_leaf.
  - unfold onMessage, bind at 1, gets at 1. rewrite Hc, Ha.
    change (negb false) with true. cbv iota.
    assert (Hok : exists ok g1,
               (match msg with
                | Auth tok => tokenStore (RotatingTokenStore.accepts (Some tok))
                | _ => ret false
                end) g = (ok, g1) /\ authedExact g1 /\ clients g1 = clients g).
    { destruct msg as [tok| | | | |];
        try (exists false, g; split; [reflexivity|split; [exact H|reflexivity]]).
      destruct (accepts_on_gateway (Some tok) g) as (w' & E & _).
      eexists _, _. split; [exact E|]. split; [exact H|reflexivity]. }
    destruct Hok as (ok & g1 & Hrun & H1 & Hcs).
    unfold bind at 1. rewrite Hrun.
    destruct ok;
      [change (negb true) with false | change (negb false) with true];
      cbv iota.
    + unfold bind at 1, updateConn at 1, modify at 1.
      unfold bind at 1, modify at 1.
      unfold bind at 1, updateConn at 1, modify at 1.
      apply stable_apply; [unfold_handlers; stable_with exact_leaf|].
      unfold authedExact. cbn [clients authedClients set_clients set_authedClients].
      change (exactC (updated ws (set_authTimeout false)
                        (updated ws (set_authed true) (clients g1)))
                     (set_add ws (authedClients g1))).
      rewrite updated_updated by auto.
      apply findConn_In in Hc as [Hin Hw]. rewrite <- Hcs in Hin.
      apply (exactC_authenticate _ _ ws _ c); auto.
    + apply stable_apply; [unfold_handlers; stable_with exact_leaf|exact H1].
Qed.

Lemma authedExact_onConnection opts req g :
  Inv g -> authedExact g ->
  let ws := objects g in
  authedExact (snd (onConnection opts ws req
                      (mkGateway (world g) (current g) (previous g) (entries g)
                         (clients g ++ [mkConnection ws OPEN false false []])
                         (authedClients g) (pty g) (ips g) (S (objects g)) (log g)))).
Proof.
  intros HI H ws. set (new := mkConnection ws OPEN false false []).
  set (g2 := mkGateway _ _ _ _ _ _ _ _ _ _).
  apply Inv_iff in HI as (_ & Hlt & _).
  assert (H2 : exactC (clients g2) (authedClients g2))
    by (now apply exactC_joined).
  assert (Hun : forall c, In c (clients g2) -> conn_ws c = ws -> authed c = false).
  { simpl. intros c Hc Hw. apply in_app_or in Hc as [Hc|[<-|[]]]; [|reflexivity].
    specialize (Hlt c Hc). unfold ws in Hw. lia. }
  destruct (accepts_on_gateway (getWsHandshakeToken req) g2) as (w' & Hacc & _).
  unfold onConnection, bind at 1. rewrite Hacc.
  set (ok := fst (tokenStore _ g2)).
  unfold bind at 1, updateConn at 1, modify at 1.
  unfold bind at 1, emit at 1, modify at 1.
  unfold bind at 1, updateConn at 1, modify at 1.
  cbn [clients objects set_clients].
  change (map (fun c => if Nat.eqb (conn_ws c) ws then set_authTimeout true c else c)
              (map (fun c => if Nat.eqb (conn_ws c) ws then set_authed ok c else c)
                   (clients g2)))
    with (updated ws (set_authTimeout true) (updated ws (set_authed ok) (clients g2))).
  rewrite updated_updated by auto.
  destruct ok; unfold when.
  - rewrite bind_assoc. unfold bind at 1, modify at 1.
    rewrite bind_assoc. unfold bind at 1, updateConn at 1, modify at 1.
    apply stable_apply; [unfold_handlers; stable_with exact_leaf|].
    unfold authedExact. cbn [clients authedClients set_clients set_authedClients].
    change (exactC (updated ws (set_authTimeout false)
                      (updated ws (fun c => set_authTimeout true (set_authed true c))
                               (clients g2)))
                   (set_add ws (authedClients g2))).
    rewrite updated_updated by auto.
    apply (exactC_authenticate _ _ ws _ new); auto.
    simpl. apply in_or_app. right. now left.
  - apply stable_apply; [unfold_handlers; stable_with exact_leaf|].
    unfold authedExact. cbn [clients authedClients].
    apply exactC_unauthenticated; auto.
Qed.

Lemma authedExact_step opts JSON_refreshToken ev g :
  Inv g -> authedExact g -> authedExact (step opts JSON_refreshToken ev g).
Proof.
  intros HI H. destruct ev; unfold step.
  - rewrite onUpgrade_eq.
    assert (HIv : Inv (snd (verifyClient req g)))
      by (apply Inv_framed; [unfold verifyClient; framed_tac|exact HI]).
    assert (Hv : authedExact (snd (verifyClient req g)))
      by (apply stable_apply; [unfold_handlers; stable_with exact_leaf|exact H]).
    destruct (verifyClient req g) as [[[code message]|] g1]; cbn [snd] in *.
    + exact Hv.
    + cbv zeta. now apply authedExact_onConnection.
  - now apply authedExact_onMessage.
  - now apply authedExact_onClose.
  - apply stable_apply; [unfold_handlers; stable_with exact_leaf|exact H].
  - apply stable_apply; [unfold_handlers; stable_with exact_leaf|exact H].
  - apply stable_apply; [unfold_handlers; stable_with exact_leaf|exact H].
  - apply stable_apply; [unfold_handlers; stable_with exact_leaf|exact H].
  - apply stable_apply; [|exact H].
    apply stable_bind; [apply authedExact_onExit|intros _].
    unfold ptyExited. stable_with exact_leaf.
  - apply stable_apply; [unfold_handlers; stable_with exact_leaf|exact H].
  - apply stable_apply; [unfold_handlers; stable_with exact_leaf|exact H].
  - apply stable_apply; [unfold_handlers; stable_with exact_leaf|exact H].
Qed.

Lemma authedExact_run opts JSON_refreshToken evs : forall g,
  Inv g -> authedExact g ->
  Inv (run opts JSON_refreshToken evs g) /\ authedExact (run opts JSON_refreshToken evs g).
Proof.
  induction evs as [|ev evs IH]; intros g HI H; simpl; [auto|].
  apply IH; [now apply Inv_step | now apply authedExact_step].
Qed.

(** X25. While the gateway runs, [authedClients] is exactly the set of the
    connections that are authenticated: every socket in it belongs
    to a connection of [wss.clients] whose [authed] is set, every
    such connection has its socket in it, and none is in it twice.
    A rotation therefore sends its token message to the open
    authenticated connections and to nobody else. *)
Theorem authed_registry_exact opts JSON_refreshToken w p net evs :
  let g := run opts JSON_refreshToken evs (startRemoteServer w p net) in
  NoDup (authedClients g) /\
  (forall ws, In ws (authedClients g) <->
              exists c, In c (clients g) /\ conn_ws c = ws /\ authed c = true) /\
  (forall ws, (exists msg, In (Send ws msg) (added g (snd (rotateToken opts g)))) <->
              exists c, In c (clients g) /\ conn_ws c = ws /\ authed c = true /\
                        readyState c = OPEN).
Proof.
  intros g.
  destruct (authedExact_run opts JSON_refreshToken evs (startRemoteServer w p net))
    as [HI [Hnd H]].
  - apply Inv_start.
  - split; [constructor|]. intros ws. simpl. split; [tauto|].
    intros (c & [] & _).
  - fold g in HI, Hnd, H. split; [exact Hnd|split; [exact H|]].
    intros ws. rewrite rotateToken_eq. cbv zeta. unfold added. cbn [snd].
    rewrite log_add_log.
    set (g1 := snd (tokenStore _ g)).
    assert (Hlog : log g1 = log g /\ clients g1 = clients g /\
                   authedClients g1 = authedClients g).
    { unfold g1, tokenStore. destruct (RotatingTokenStore.rotate _ _). auto. }
    destruct Hlog as (Hl & Hc & Ha). rewrite Hl, skipn_len_app, Ha.
    unfold tokenFrame, readyStateIn. rewrite Hc.
    apply Inv_iff in HI as (Hnd' & _).
    split.
    + intros (msg & Hin). apply in_flat_map in Hin as (x & Hx & Hin).
      apply H in Hx as (c & Hcin & Hw & Hauth).
      destruct (findConn x (clients g)) as [c'|] eqn:Hf; [|destruct Hin].
      assert (c = c') by (now apply (findConn_unique x (clients g) c' c)).
      subst c'. destruct (readyState c) eqn:Hr; simpl in Hin; try contradiction.
      destruct Hin as [[= <- _]|[]]. exists c. auto.
    + intros (c & Hcin & Hw & Hauth & Hr).
      exists (MsgToken (payloadOf opts g1 None)).
      apply in_flat_map. exists ws. split; [apply H; exists c; auto|].
      destruct (findConn ws (clients g)) as [c'|] eqn:Hf.
      * assert (c = c') by (now apply (findConn_unique ws (clients g) c' c)).
        subst c'. rewrite Hr. now left.
      * unfold findConn in Hf. pose proof (find_none _ _ Hf c Hcin) as E.
        simpl in E. rewrite Hw, Nat.eqb_refl in E. discriminate.
Qed.

(** *** When the access token changes *)

Lemma rotatedLate_quiet g g' :
  clock (world g') = clock (world g) ->
  (ticks (world g) <= ticks (world g'))%nat ->
  current g' = current g -> rotatedLate g g'.
Proof. intros H1 H2 H3. split; [exact H1|split; [exact H2|now left]]. Qed.

Lemma rotatedLate_refl g : rotatedLate g g.
Proof. now apply rotatedLate_quiet. Qed.

Lemma rotatedLate_trans g1 g2 g3 :
  rotatedLate g1 g2 -> rotatedLate g2 g3 -> rotatedLate g1 g3.
Proof.
  intros (Hc1 & Ht1 & H1) (Hc2 & Ht2 & H2).
  split; [congruence|split; [lia|]].
  destruct H1 as [E1|(i & Hi & Hgt)].
  - destruct H2 as [E2|(i & Hi & Hgt)]; [left; congruence|].
    right. exists i. split; [lia|]. now rewrite <- Hc1, <- E1.
  - right. exists i. split; [lia|exact Hgt].
Qed.

Lemma lawful_ret {A} (a : A) : lawful (ret a).
Proof. intros g. apply rotatedLate_refl. Qed.

Lemma lawful_gets {A} (f : Gateway -> A) : lawful (gets f).
Proof. intros g. apply rotatedLate_refl. Qed.

Lemma lawful_bind {A B} (m : State Gateway A) (k : A -> State Gateway B) :
  lawful m -> (forall a, lawful (k a)) -> lawful (bind m k).
Proof.
  intros Hm Hk g. unfold bind. specialize (Hm g).
  destruct (m g) as [a g1]. eapply rotatedLate_trans; [exact Hm|apply Hk].
Qed.

Lemma lawful_when b m : lawful m -> lawful (when b m).
Proof. intros H. destruct b; [exact H|apply lawful_ret]. Qed.

Lemma lawful_forEach {A} (l : list A) body :
  (forall x, lawful (body x)) -> lawful (forEach l body).
Proof.
  intros H. induction l as [|x l IH]; simpl.
  - apply lawful_ret.
  - apply lawful_bind; auto.
Qed.

Lemma lawful_accepts c : lawful (tokenStore (RotatingTokenStore.accepts c)).
Proof.
  intros g. unfold tokenStore. destruct (falsy c) eqn:F.
  - rewrite RotatingFacts.accepts_falsy by exact F. apply rotatedLate_quiet; simpl; auto.
  - rewrite RotatingFacts.accepts_eq by exact F. apply rotatedLate_quiet; simpl; auto.
Qed.

Lemma lawful_token_prune : lawful (tokenStore RotatingTokenStore.prune).
Proof.
  intros g. unfold tokenStore. rewrite RotatingFacts.rotating_prune_eq.
  apply rotatedLate_quiet; simpl; auto.
Qed.

Lemma ticks_issue o s :
  (ticks (RefreshSessionStore.world s)
   <= ticks (RefreshSessionStore.world (snd (RefreshSessionStore.issue o s))))%nat.
Proof. rewrite RefreshFacts.issue_eq. simpl. lia. Qed.

Lemma ticks_call o k s :
  (ticks (RefreshSessionStore.world s)
   <= ticks (RefreshSessionStore.world (RefreshSpec.call o k s)))%nat.
Proof.
  destruct k as [|c|]; unfold RefreshSpec.call.
  - apply ticks_issue.
  - destruct (falsy c) eqn:F.
    + now rewrite RefreshFacts.exchange_falsy by exact F.
    + rewrite RefreshFacts.exchange_eq by exact F. cbv zeta.
      destruct (RefreshSessionStore.findIdx _ _ _) as [i|]; [|simpl; lia].
      match goal with
      | |- context [RefreshSessionStore.issue o ?s0] =>
          pose proof (ticks_issue o s0) as Hi;
          destruct (RefreshSessionStore.issue o s0) as [tok s']
      end.
      simpl in *. lia.
  - rewrite RefreshFacts.refresh_prune_eq. simpl. lia.
Qed.

Lemma lawful_refresh {A} (m : State RefreshSessionStore.Store A) k :
  (forall s, snd (m s) = RefreshSpec.call refreshOptions k s) ->
  lawful (refreshStore m).
Proof.
  intros Hm g. unfold refreshStore.
  set (s := RefreshSessionStore.mkStore (world g) (entries g)).
  pose proof (Hm s) as E.
  pose proof (RefreshFacts.same_env_call refreshOptions k s) as [Hc _].
  pose proof (ticks_call refreshOptions k s) as Ht.
  destruct (m s) as [a st]. cbn [snd] in *. subst st.
  apply rotatedLate_quiet; simpl; auto.
Qed.

Lemma rotateToken_world opts g :
  let g' := snd (rotateToken opts g) in
  clock (world g') = clock (world g) /\
  (ticks (world g) <= ticks (world g'))%nat.
Proof.
  rewrite rotateToken_eq. cbv zeta. cbn [snd].
  unfold tokenStore. rewrite RotatingFacts.rotate_eq. simpl. split; [reflexivity|lia].
Qed.

(** [if (Date.now() > tokenStore.tokenExpiresAt) rotateToken();] *)
Lemma lawful_guarded_rotate {B} opts (K : unit -> State Gateway B) :
  (forall u, lawful (K u)) ->
  lawful (n <- now ;;
          exp <- gets (fun g => RotatingTokenStore.expiresAt (current g)) ;;
          bind (when (n >? exp) (rotateToken opts)) K).
Proof.
  intros HK g. unfold bind at 1, now at 1. cbn [the_world Gateway_world with_world].
  unfold bind at 1, gets at 1. cbn [current].
  set (g1 := mkGateway _ _ _ _ _ _ _ _ _ _).
  assert (H1 : rotatedLate g g1) by (apply rotatedLate_quiet; simpl; auto).
  unfold bind.
  destruct (clock (world g) (ticks (world g))
            >? RotatingTokenStore.expiresAt (current g)) eqn:E; unfold when.
  - pose proof (rotateToken_world opts g1) as [Hc Ht]. cbv zeta in Hc, Ht.
    destruct (rotateToken opts g1) as [u g2]. cbn [snd] in *.
    eapply rotatedLate_trans; [|apply HK].
    split; [exact Hc|split; [simpl in Ht; lia|]].
    right. exists (ticks (world g)). simpl in Ht. split; [lia|].
    apply Z.gtb_lt in E. lia.
  - eapply rotatedLate_trans; [exact H1|apply HK].
Qed.

Ltac lawful_tac :=
  repeat lazymatch goal with
  | |- lawful (bind now _) => apply lawful_guarded_rotate; intros
  | |- lawful (bind _ _) => apply lawful_bind; [|intros]
  | |- lawful (when _ _) => apply lawful_when
  | |- lawful (forEach _ _) => apply lawful_forEach; intros
  | |- lawful (ret _) => apply lawful_ret
  | |- lawful (gets _) => apply lawful_gets
  | |- lawful (if ?b then _ else _) => destruct b
  | |- lawful (match ?x with _ => _ end) => destruct x
  | |- lawful (let (_, _) := ?x in _) => destruct x
  | |- lawful (tokenStore (RotatingTokenStore.accepts _)) => apply lawful_accepts
  | |- lawful (tokenStore RotatingTokenStore.prune) => apply lawful_token_prune
  | |- lawful (refreshStore (RefreshSessionStore.issue _)) =>
      apply (lawful_refresh _ RefreshSpec.CallIssue); reflexivity
  | |- lawful (refreshStore (RefreshSessionStore.exchange _ ?c)) =>
      apply (lawful_refresh _ (RefreshSpec.CallExchange c)); reflexivity
  | |- lawful (refreshStore RefreshSessionStore.prune) =>
      apply (lawful_refresh _ RefreshSpec.CallPrune); reflexivity
  | |- lawful _ =>
      let g := fresh "g" in intros g; apply rotatedLate_quiet; reflexivity
  end.

Ltac unfold_quiet_handlers :=
  unfold onSpawn, onListChanged, rosterTimeout, tokenExpiryTimer, onExit, onOutput,
    onRefreshRequest, onBodyEnd, onMessage, onSubscribe, onUnsubscribe,
    onAuthTimeout, onClose, onUpgrade, onConnection, verifyClient;
  unfold broadcastAgents, sendAgentList, sendTokenMessage;
  unfold issueTokenPayload, writeJson, broadcast, subsOf, ws_send, ws_close;
  unfold currentUrls, readyStateOf.

Lemma lawful_step opts JSON_refreshToken ev g :
  rotatedLate g (step opts JSON_refreshToken ev g).
Proof.
  revert g. destruct ev; unfold step;
    match goal with
    | |- forall g, rotatedLate g (snd (?m g)) => change (lawful m)
    end;
    unfold_quiet_handlers; lawful_tac.
Qed.

(** X26. The access token is replaced only after the clock has read past
    its expiry: over any run of the gateway the token that was
    current at the start is still the current one, or one of the
    clock readings taken in between was past its expiry. *)
Theorem token_current_until_expiry opts JSON_refreshToken evs g :
  let g' := run opts JSON_refreshToken evs g in
  current g' = current g \/
  exists i, (ticks (world g) <= i < ticks (world g'))%nat /\
            clock (world g) i > RotatingTokenStore.expiresAt (current g).
Proof.
  intros g'. subst g'.
  assert (H : rotatedLate g (run opts JSON_refreshToken evs g)).
  { revert g. induction evs as [|ev evs IH]; intros g; simpl.
    - apply rotatedLate_refl.
    - eapply rotatedLate_trans; [apply lawful_step|apply IH]. }
  apply H.
Qed.


(** *** Before authentication *)

Lemma onMessage_rejected opts ws msg g c :
  findConn ws (clients g) = Some c -> authed c = false -> rejected msg g ->
  exists g1,
    onMessage opts ws (Some msg) g = ws_close ws 4001 "Unauthorized" g1 /\
    clients g1 = clients g /\ log g1 = log g /\ pty g1 = pty g.
Proof.
  intros Hc Ha Hrej.
  unfold onMessage, bind at 1, gets at 1. rewrite Hc, Ha.
  change (negb false) with true. cbv iota.
  destruct msg as [tok| | | | |];
    try (exists g; split; [reflexivity|repeat split; reflexivity]).
  simpl in Hrej.
  destruct (accepts_on_gateway (Some tok) g) as (w' & Hacc & _).
  unfold bind at 1. rewrite Hacc, Hrej. simpl negb. cbv iota.
  eexists. split; [reflexivity|]. repeat split; reflexivity.
Qed.

(** X27. A connection that is not authenticated reaches nothing behind the
    gateway: whatever it sends, no call goes to the PTY supervisor
    and the supervisor's sessions are as they were; and it is
    authenticated afterwards only if what it sent is an [auth]
    message with a token that the store accepts. *)
Theorem unauthenticated_cannot_act opts g ws c msg :
  findConn ws (clients g) = Some c -> authed c = false ->
  let g' := snd (onMessage opts ws msg g) in
  pty g' = pty g /\
  filter isSupervisorCall (added g g') = [] /\
  (forall c', findConn ws (clients g') = Some c' -> authed c' = true ->
     exists tok, msg = Some (Auth tok) /\
                 fst (tokenStore (RotatingTokenStore.accepts (Some tok)) g) = true).
Proof.
  intros Hc Ha g'. subst g'. unfold added.
  destruct msg as [msg|].
  2: { change (snd (onMessage opts ws None g)) with g. rewrite skipn_all. repeat split.
    intros c' Hc'. rewrite Hc in Hc'. injection Hc' as <-. congruence. }
  assert (Hcases : rejected msg g \/
                   exists tok, msg = Auth tok /\
                     fst (tokenStore (RotatingTokenStore.accepts (Some tok)) g) = true).
  { destruct msg as [tok| | | | |]; try (left; exact I).
    destruct (fst (tokenStore (RotatingTokenStore.accepts (Some tok)) g)) eqn:E.
    - right. eauto.
    - left. exact E. }
  destruct Hcases as [Hrej|(tok & -> & Hok)].
  - destruct (onMessage_rejected opts ws msg g c Hc Ha Hrej) as (g1 & -> & Hcl & Hl & Hp).
    assert (Hc1 : findConn ws (clients g1) = Some c) by now rewrite Hcl.
    destruct (readyState c) eqn:Hr.
    2: { rewrite (ws_close_open ws _ _ g1 c Hc1 Hr). cbn [snd].
         unfold set_clients, add_log. cbn [pty log clients].
         rewrite Hp, Hl, skipn_len_app. repeat split.
         intros c' Hc'.
         rewrite (findConn_map ws (set_readyState CLOSING) _ c) in Hc' by auto.
         injection Hc' as <-. simpl. congruence. }
    all: unfold ws_close, readyStateOf, bind, gets; rewrite Hc1, Hr;
      cbn [isOpen when ret snd]; rewrite Hp, Hl, skipn_all; repeat split;
      intros c' Hc'; rewrite Hc1 in Hc'; injection Hc' as <-; congruence.
  - split; [|split; [|eauto]].
    + destruct (onMessage_auth opts ws tok g c Hc Ha Hok) as (g2 & -> & _ & Hp & _).
      rewrite announce_eq. cbv zeta. cbn [snd].
      rewrite issue_on_gateway. cbn [snd]. unfold add_log. cbn [pty]. exact Hp.
    + destruct (onMessage_auth opts ws tok g c Hc Ha Hok) as (g2 & -> & Hl & _).
      rewrite announce_eq. cbv zeta. cbn [snd].
      rewrite log_add_log, issue_on_gateway. cbn [snd log].
      rewrite log_add_log, Hl, <- app_assoc, skipn_len_app, filter_app.
      unfold agentsFrame, tokenFrame.
      repeat match goal with
             | |- context [if ?b then _ else _] => destruct b
             end; reflexivity.
Qed.

Lemma unauthenticated_cannot_act_witness :
  let g := Fixture.pending in
  let g' := snd (onMessage Fixture.opts 0 (Some (Kill "a1")) g) in
  pty g' = pty g /\
  filter isSupervisorCall (added g g') = [] /\
  (forall c', findConn 0 (clients g') = Some c' -> authed c' = true ->
     exists tok, Some (Kill "a1") = Some (Auth tok) /\
                 fst (tokenStore (RotatingTokenStore.accepts (Some tok)) g) = true).
Proof.
  apply (unauthenticated_cannot_act Fixture.opts Fixture.pending 0
           (mkConnection 0 OPEN false true []) (Some (Kill "a1"))).
  - vm_compute. reflexivity.
  - reflexivity.
Defined.


(** *** Subscribing and unsubscribing *)

Lemma subs_delete_set id cb m :
  subs_has id m = false -> subs_delete id (subs_set id cb m) = m.
Proof.
  intros H. unfold subs_set. rewrite H. unfold subs_delete, subs_has in *.
  rewrite filter_app. simpl. rewrite String.eqb_refl. simpl. rewrite app_nil_r.
  induction m as [|kv m IH]; simpl in *; [reflexivity|].
  apply orb_false_iff in H as [E H]. rewrite E. simpl. f_equal. now apply IH.
Qed.

Lemma subs_get_set id cb m :
  subs_has id m = false -> subs_get id (subs_set id cb m) = Some cb.
Proof.
  intros H. unfold subs_set. rewrite H. unfold subs_get, subs_has in *.
  induction m as [|kv m IH]; simpl in *.
  - now rewrite String.eqb_refl.
  - apply orb_false_iff in H as [E H]. rewrite E. now apply IH.
Qed.

Lemma subs_get_none id m : subs_has id m = false -> subs_get id m = None.
Proof.
  unfold subs_get, subs_has. induction m as [|kv m IH]; simpl; [reflexivity|].
  intros H. apply orb_false_iff in H as [E H]. rewrite E. now apply IH.
Qed.

Lemma remove_added_subscriber cb s :
  (forall x, In x (subscribers s) -> cb_id x <> cb_id cb) ->
  removeSubscriber cb (addSubscriber cb s) = s.
Proof.
  intros H. destruct s as [sid task sb cols subscribers_]. simpl in *.
  unfold removeSubscriber, addSubscriber. simpl. f_equal.
  assert (Hnone : existsb (same_cb cb) subscribers_ = false).
  { apply not_true_is_false. intros E. apply existsb_exists in E as (x & Hx & E).
    unfold same_cb in E. apply Nat.eqb_eq in E. apply (H x Hx). now symmetry. }
  rewrite Hnone, filter_app. simpl. unfold same_cb at 2. rewrite Nat.eqb_refl. simpl.
  rewrite app_nil_r. clear Hnone.
  induction subscribers_ as [|x l IH]; simpl; [reflexivity|].
  assert (E : same_cb cb x = false).
  { unfold same_cb. apply Nat.eqb_neq. intros E. apply (H x (or_introl eq_refl)).
    now symmetry. }
  rewrite E. simpl. f_equal. apply IH. intros y Hy. apply H. now right.
Qed.

Lemma unsubscribe_subscribed id cb p :
  (forall s, In s p -> sessId s = id ->
             forall x, In x (subscribers s) -> cb_id x <> cb_id cb) ->
  unsubscribeFromAgent id cb (snd (subscribeToAgent id cb p)) = p.
Proof.
  intros H. unfold subscribeToAgent.
  assert (E : unsubscribeFromAgent id cb (updateSession id (addSubscriber cb) p) = p).
  { unfold unsubscribeFromAgent, updateSession. rewrite map_map.
    rewrite <- (map_id p) at 2. apply map_ext_in. intros s Hs.
    destruct (String.eqb (sessId s) id) eqn:Es.
    - assert (Es' : String.eqb (sessId (addSubscriber cb s)) id = true) by exact Es.
      rewrite Es'. apply remove_added_subscriber.
      apply (H s Hs). now apply String.eqb_eq.
    - now rewrite Es. }
  destruct (findSession id p) eqn:F; cbn [snd]; [exact E|].
  unfold unsubscribeFromAgent, updateSession.
  rewrite <- (map_id p) at 2. apply map_ext_in. intros s Hs.
  destruct (String.eqb (sessId s) id) eqn:Es; [|reflexivity].
  unfold findSession in F. pose proof (find_none _ _ F s Hs) as E'.
  simpl in E'. congruence.
Qed.

Lemma forget_noted ws id cb cs c :
  NoDup (map conn_ws cs) -> findConn ws cs = Some c ->
  subs_has id (subs c) = false ->
  updated ws (fun x => set_subs (subs_delete id (subs x)) x)
          (noteSubscription ws id cb cs) = cs.
Proof.
  intros Hnd Hc Hs. unfold noteSubscription.
  change (map (fun x => if Nat.eqb (conn_ws x) ws
                        then set_subs (subs_set id cb (subs x)) x else x) cs)
    with (updated ws (fun x => set_subs (subs_set id cb (subs x)) x) cs).
  rewrite updated_updated by reflexivity.
  unfold updated. rewrite <- (map_id cs) at 2. apply map_ext_in. intros x Hx.
  destruct (Nat.eqb_spec (conn_ws x) ws) as [E|E]; [|reflexivity].
  rewrite (findConn_unique ws cs c x Hnd Hc Hx E).
  cbn [subs set_subs]. rewrite subs_delete_set by exact Hs. now destruct c.
Qed.

(** X28. An [unsubscribe] undoes a [subscribe]: after the two the
    subscription tables and the supervisor's callbacks are as they
    were before, and so is the rest of the gateway but for the
    callback identity that was used up and for what was sent and
    called in between.  The supervisor is the one modelled from the
    specification. *)
Theorem unsubscribe_undoes_subscribe opts g ws c id :
  NoDup (map conn_ws (clients g)) ->
  findConn ws (clients g) = Some c -> authed c = true ->
  subs_has id (subs c) = false ->
  (forall s, In s (pty g) -> sessId s = id ->
             forall x, In x (subscribers s) -> cb_id x <> objects g) ->
  let g1 := snd (onMessage opts ws (Some (Subscribe id)) g) in
  let g2 := snd (onMessage opts ws (Some (Unsubscribe id)) g1) in
  let cb := mkCallback (objects g) ws id in
  let known := fst (subscribeToAgent id cb (pty g)) in
  g2 = mkGateway (world g) (current g) (previous g) (entries g) (clients g)
         (authedClients g) (pty g) (ips g) (S (objects g))
         (log g ++ replay ws (readyState c) id (pty g)
                ++ [SubscribeToAgent id cb known]
                ++ (if known then [UnsubscribeFromAgent id cb] else [])).
Proof.
  intros Hnd Hc Ha Hs Hfresh g1 g2 cb known.
  assert (E1 : g1 = mkGateway (world g) (current g) (previous g) (entries g)
                      (if known then noteSubscription ws id cb (clients g) else clients g)
                      (authedClients g) (snd (subscribeToAgent id cb (pty g))) (ips g)
                      (S (objects g))
                      (log g ++ replay ws (readyState c) id (pty g)
                             ++ [SubscribeToAgent id cb known])).
  { unfold g1. rewrite (onMessage_authed opts ws _ g c Hc Ha).
    now rewrite (onSubscribe_new ws id g c Hc Hs). }
  unfold g2. rewrite E1. clear g1 g2 E1.
  destruct known eqn:Hk.
  - set (c1 := set_subs (subs_set id cb (subs c)) c).
    set (g1 := mkGateway _ _ _ _ _ _ _ _ _ _).
    assert (Hc1 : findConn ws (clients g1) = Some c1).
    { unfold g1. cbn [clients]. unfold noteSubscription.
      now apply (findConn_map ws (fun x => set_subs (subs_set id cb (subs x)) x)). }
    rewrite (onMessage_authed opts ws _ g1 c1 Hc1 Ha).
    unfold onUnsubscribe, subsOf, bind at 1, gets at 1. rewrite Hc1.
    unfold c1 at 1. cbn [subs set_subs]. rewrite (subs_get_set id cb _ Hs).
    unfold bind, modify, emit, updateConn, modify. cbn [snd].
    unfold g1, set_pty, set_clients.
    cbn [world current previous entries clients authedClients pty ips objects log].
    rewrite unsubscribe_subscribed by exact Hfresh.
    change (map (fun x => if Nat.eqb (conn_ws x) ws
                          then set_subs (subs_delete id (subs x)) x else x)
                (noteSubscription ws id cb (clients g)))
      with (updated ws (fun x => set_subs (subs_delete id (subs x)) x)
                    (noteSubscription ws id cb (clients g))).
    rewrite (forget_noted ws id cb (clients g) c Hnd Hc Hs).
    now rewrite <- !app_assoc.
  - set (g1 := mkGateway _ _ _ _ _ _ _ _ _ _).
    assert (Hc1 : findConn ws (clients g1) = Some c) by exact Hc.
    rewrite (onMessage_authed opts ws _ g1 c Hc1 Ha).
    unfold onUnsubscribe, subsOf, bind at 1, gets at 1. rewrite Hc1.
    rewrite (subs_get_none id _ Hs). cbn [ret snd]. unfold g1. rewrite app_nil_r.
    f_equal. unfold subscribeToAgent in *. subst known.
    destruct (findSession id (pty g)); [discriminate|reflexivity].
Qed.

Lemma unsubscribe_undoes_subscribe_witness :
  let g := Fixture.connected in
  let c := mkConnection 0 OPEN true false [] in
  let g1 := snd (onMessage Fixture.opts 0 (Some (Subscribe "a1")) g) in
  let g2 := snd (onMessage Fixture.opts 0 (Some (Unsubscribe "a1")) g1) in
  let cb := mkCallback (objects g) 0 "a1" in
  let known := fst (subscribeToAgent "a1" cb (pty g)) in
  g2 = mkGateway (world g) (current g) (previous g) (entries g) (clients g)
         (authedClients g) (pty g) (ips g) (S (objects g))
         (log g ++ replay 0 (readyState c) "a1" (pty g)
                ++ [SubscribeToAgent "a1" cb known]
                ++ (if known then [UnsubscribeFromAgent "a1" cb] else [])).
Proof.
  apply (unsubscribe_undoes_subscribe Fixture.opts Fixture.connected 0
           (mkConnection 0 OPEN true false []) "a1").
  - vm_compute. repeat constructor. simpl. tauto.
  - vm_compute. reflexivity.
  - reflexivity.
  - reflexivity.
  - intros s Hs _ x Hx. vm_compute in Hs.
    destruct Hs as [<-|[<-|[]]]; destruct Hx.
Defined.


(** *** A refresh over HTTP *)

Lemma refreshStore_fst {A} (m : State RefreshSessionStore.Store A) g :
  fst (refreshStore m g) = fst (m (refreshOf g)) /\
  refreshOf (snd (refreshStore m g)) = snd (m (refreshOf g)).
Proof. unfold refreshStore, refreshOf. destruct (m _) as [a [w es]]. auto. Qed.

(** A token that the refresh store exchanges was exchangeable. *)
Lemma exchanged_was_exchangeable o T s r :
  fst (RefreshSessionStore.exchange o (Some T) s) = Some r ->
  RefreshSpec.exchangeable T s.
Proof.
  destruct (falsy (Some T)) eqn:F.
  - rewrite RefreshFacts.exchange_falsy by exact F. discriminate.
  - rewrite RefreshFacts.exchange_eq by exact F. cbv zeta. cbn [str].
    destruct (RefreshSessionStore.findIdx _ _ _) as [i|] eqn:Hi; [|discriminate].
    intros _. apply RefreshFacts.findIdx_Some_inv in Hi as (e & Hnth & He & Hn).
    apply nth_error_In, filter_In in Hnth as [Hin Ha].
    unfold RefreshSpec.alive in Ha. rewrite RefreshLaws.gtb_leb in Ha.
    apply Z.leb_le in Ha. exists e. auto.
Qed.

(** The replies of the refresh handler to a body that was read to
    its end and parsed. *)
Lemma onBodyEnd_ok opts JSON_refreshToken raw g rt r :
  JSON_refreshToken raw = Some rt -> r <> "" ->
  fst (refreshStore (RefreshSessionStore.exchange refreshOptions rt) g) = Some r ->
  onBodyEnd opts JSON_refreshToken raw g =
  (tt,
   let ga := snd (refreshStore (RefreshSessionStore.exchange refreshOptions rt) g) in
   let gb := snd (now ga) in
   let gc := if clock (world ga) (ticks (world ga))
                >? RotatingTokenStore.expiresAt (current ga)
             then snd (rotateToken opts gb) else gb in
   add_log [WriteJson 200 jsonHeaders (TokenBody (payloadOf opts gc (Some r))) false] gc).
Proof.
  intros HJ Hr Hx. unfold onBodyEnd. rewrite HJ. unfold bind at 1.
  destruct (refreshStore _ g) as [x ga]. cbn [fst snd] in *. subst x.
  rewrite (falsy_Some r Hr).
  unfold bind at 1, now at 1. cbn [the_world Gateway_world with_world snd].
  unfold bind at 1, gets at 1. cbn [current].
  set (gb := mkGateway _ _ _ _ _ _ _ _ _ _).
  cbv zeta. change (snd (now ga)) with gb.
  unfold bind at 1.
  destruct (clock (world ga) (ticks (world ga))
            >? RotatingTokenStore.expiresAt (current ga)); unfold when.
  - destruct (rotateToken opts gb) as [[] gc]. cbn [snd].
    unfold bind, currentUrls, gets, ret, writeJson, emit, modify, payloadOf, add_log,
      jsonHeaders, currentUrls, bind, gets, ret. reflexivity.
  - unfold bind, currentUrls, gets, ret, writeJson, emit, modify, payloadOf, add_log,
      jsonHeaders, currentUrls, bind, gets, ret. reflexivity.
Qed.

Lemma spentP_refresh {A} T (m : State RefreshSessionStore.Store A) k :
  (forall s, snd (m s) = RefreshSpec.call refreshOptions k s) ->
  stable (fun g => fresh_source (world g) /\ RefreshSpec.spent T (refreshOf g))
         (refreshStore m).
Proof.
  intros Hm g [Hf Hs].
  destruct (refreshStore_fst m g) as [_ E]. rewrite Hm in E.
  pose proof (RefreshFacts.spent_call refreshOptions k (refreshOf g) T Hf Hs) as Hs'.
  pose proof (RefreshFacts.same_env_call refreshOptions k (refreshOf g)) as He.
  pose proof (RefreshFacts.fresh_source_env _ _ He Hf) as Hf'.
  rewrite <- E in Hs', Hf'. split; [exact Hf'|exact Hs'].
Qed.

Lemma spentP_token {A} T (m : State RotatingTokenStore.Store A) k :
  (forall s, snd (m s) = RotatingSpec.call tokenOptions k s) ->
  stable (fun g => fresh_source (world g) /\ RefreshSpec.spent T (refreshOf g))
         (tokenStore m).
Proof.
  intros Hm g [[Hinj Hne] [Hnot (i & Hi & Hgen)]]. unfold tokenStore.
  set (s := RotatingTokenStore.mkStore (world g) (current g) (previous g)).
  pose proof (Hm s) as E.
  destruct (RotatingLaws.same_env_call_rot tokenOptions k s) as (_ & He & Hd).
  destruct (m s) as [a st]. cbn [snd] in *. subst st.
  unfold refreshOf, RefreshSpec.spent. cbn [world entries RefreshSessionStore.world
                                              RefreshSessionStore.entries].
  simpl in He, Hd. rewrite He.
  split; [unfold fresh_source; rewrite He; split; assumption|].
  split; [exact Hnot|].
  exists i. unfold refreshOf in Hi. simpl in Hi. split; [lia|exact Hgen].
Qed.

Ltac spent_leaf :=
  idtac;
  let g := fresh "g" in
  let H := fresh "H" in
  lazymatch goal with
  | |- stable _ (tokenStore (RotatingTokenStore.accepts ?c)) =>
      apply (spentP_token _ _ (RotatingSpec.CallAccepts c)); reflexivity
  | |- stable _ (tokenStore (RotatingTokenStore.rotate _)) =>
      apply (spentP_token _ _ RotatingSpec.CallRotate); reflexivity
  | |- stable _ (tokenStore RotatingTokenStore.prune) =>
      apply (spentP_token _ _ RotatingSpec.CallPrune); reflexivity
  | |- stable _ (refreshStore (RefreshSessionStore.issue _)) =>
      apply (spentP_refresh _ _ RefreshSpec.CallIssue); reflexivity
  | |- stable _ (refreshStore (RefreshSessionStore.exchange _ ?c)) =>
      apply (spentP_refresh _ _ (RefreshSpec.CallExchange c)); reflexivity
  | |- stable _ (refreshStore RefreshSessionStore.prune) =>
      apply (spentP_refresh _ _ RefreshSpec.CallPrune); reflexivity
  | |- stable _ _ => intros g H; exact H
  end.

Lemma spentP_step opts JSON_refreshToken T ev g :
  fresh_source (world g) /\ RefreshSpec.spent T (refreshOf g) ->
  let g' := step opts JSON_refreshToken ev g in
  fresh_source (world g') /\ RefreshSpec.spent T (refreshOf g').
Proof.
  cbv zeta. intros H. destruct ev; unfold step;
    (apply (stable_apply (fun g => fresh_source (world g) /\
                                   RefreshSpec.spent T (refreshOf g)));
     [|exact H]);
    unfold onUpgrade; unfold_handlers; unfold rotateToken, sendTokenMessage,
      issueTokenPayload, currentUrls, ws_send, readyStateOf;
    stable_with spent_leaf.
Qed.

(** X29. A refresh token works once over HTTP.  The request that
    exchanges it gets the 200 reply as the last thing written, with
    the access token that is current then and a replacement that is
    not the token presented; and whatever the gateway does
    afterwards, the same request is answered with 401 and nothing
    else. *)
Theorem refresh_replay_refused opts JSON_refreshToken req g T :
  fresh_source (world g) -> RefreshSpec.wf (refreshOf g) ->
  bodyEnd req = Ended -> oversized req = false ->
  JSON_refreshToken (fst (receive "" (chunks req))) = Some (Some T) ->
  succeeds JSON_refreshToken req g = true ->
  let g1 := snd (onRefreshRequest opts JSON_refreshToken req g) in
  (exists l p T',
     log g1 = log g ++ l ++ [WriteJson 200 jsonHeaders (TokenBody p) false] /\
     token p = RotatingTokenStore.token (current g1) /\
     tokenExpiresAt p = RotatingTokenStore.expiresAt (current g1) /\
     refreshToken p = Some T' /\ T' <> T /\ T' <> "") /\
  (forall evs,
     let g2 := run opts JSON_refreshToken evs g1 in
     added g2 (snd (onRefreshRequest opts JSON_refreshToken req g2))
     = [WriteJson 401 jsonHeaders (ErrorBody "unauthorized") false]).
Proof.
  intros Hf Hwf Hend Hsize HJ Hok g1.
  unfold succeeds in Hok. rewrite Hsize, Hend, HJ in Hok. cbn [negb andb] in Hok.
  destruct (refreshStore_fst (RefreshSessionStore.exchange refreshOptions (Some T)) g)
    as [Efst Esnd].
  destruct (fst (refreshStore _ g)) as [r|] eqn:Hr; [|discriminate].
  symmetry in Efst.
  pose proof (exchanged_was_exchangeable _ _ _ _ Efst) as Hex.
  destruct (RefreshFacts.exchange_live refreshOptions (refreshOf g) T Hf Hwf Hex)
    as (s1 & Hrun & Hne & Hwf1 & Hspent & Henv & _).
  rewrite Hrun in Efst, Esnd. cbn [fst snd] in Efst, Esnd. injection Efst as Er.
  assert (Hr0 : r <> "").
  { rewrite <- Er. unfold RefreshSpec.next_token. apply Hf. }
  assert (Hg1 : g1 = snd (onBodyEnd opts JSON_refreshToken
                            (fst (receive "" (chunks req))) g)).
  { unfold g1. rewrite onRefreshRequest_eq. now rewrite Hsize, Hend. }
  rewrite (onBodyEnd_ok opts JSON_refreshToken _ g (Some T) r HJ Hr0 Hr) in Hg1.
  cbv zeta in Hg1. cbn [snd] in Hg1.
  set (ga := snd (refreshStore (RefreshSessionStore.exchange refreshOptions (Some T)) g))
    in *.
  set (gb := snd (now ga)) in *.
  set (gc := if _ >? _ then snd (rotateToken opts gb) else gb) in *.
  assert (Hpa : fresh_source (world ga) /\ RefreshSpec.spent T (refreshOf ga)).
  { change (world ga) with (RefreshSessionStore.world (refreshOf ga)).
    rewrite Esnd. split; [|exact Hspent].
    apply (RefreshFacts.fresh_source_env (refreshOf g) s1 Henv Hf). }
  assert (Hla : exists l, log ga = log g ++ l).
  { destruct (framed_refreshStore
                (RefreshSessionStore.exchange refreshOptions (Some T)) g) as (_ & _ & H).
    exact H. }
  assert (Hc : (fresh_source (world gc) /\ RefreshSpec.spent T (refreshOf gc)) /\
               exists l, log gc = log ga ++ l).
  { assert (Hb : fresh_source (world gb) /\ RefreshSpec.spent T (refreshOf gb))
      by exact Hpa.
    subst gc. destruct (_ >? _).
    - split.
      + revert Hb. generalize gb.
        change (stable (fun g => fresh_source (world g) /\
                                 RefreshSpec.spent T (refreshOf g)) (rotateToken opts)).
        unfold rotateToken, sendTokenMessage, issueTokenPayload, currentUrls,
          ws_send, readyStateOf.
        stable_with spent_leaf.
      + destruct (framed_rotateToken opts gb) as (_ & _ & H). exact H.
    - split; [exact Hb|]. exists []. now rewrite app_nil_r. }
  destruct Hc as [Hpc (lc & Hlc)]. destruct Hla as (la & Hla).
  assert (Hp1 : fresh_source (world g1) /\ RefreshSpec.spent T (refreshOf g1))
    by (rewrite Hg1; exact Hpc).
  split.
  - exists (la ++ lc), (payloadOf opts gc (Some r)), r.
    rewrite Hg1, log_add_log, Hlc, Hla, <- !app_assoc.
    repeat split; auto. congruence.
  - intros evs g2.
    assert (Hp2 : fresh_source (world g2) /\ RefreshSpec.spent T (refreshOf g2)).
    { subst g2. revert Hp1. generalize g1. clear.
      induction evs as [|ev evs IH]; intros g Hp; simpl; [exact Hp|].
      apply IH. now apply spentP_step. }
    destruct Hp2 as [Hf2 Hs2].
    assert (Hno : falsy (fst (refreshStore
                     (RefreshSessionStore.exchange refreshOptions (Some T)) g2)) = true).
    { destruct (refreshStore_fst
                  (RefreshSessionStore.exchange refreshOptions (Some T)) g2) as [E _].
      rewrite E, (RefreshFacts.exchange_spent refreshOptions T _ Hs2). reflexivity. }
    rewrite onRefreshRequest_eq, Hsize, Hend.
    rewrite (onBodyEnd_refused opts JSON_refreshToken _ g2 (Some T) HJ Hno).
    unfold added. cbn [snd]. rewrite log_add_log.
    assert (Hlog : log (snd (refreshStore
                     (RefreshSessionStore.exchange refreshOptions (Some T)) g2)) = log g2).
    { unfold refreshStore.
      match goal with
      | |- context [RefreshSessionStore.exchange ?o ?c ?s] =>
          destruct (RefreshSessionStore.exchange o c s)
      end. reflexivity. }
    now rewrite Hlog, skipn_len_app.
Qed.

Lemma connected_fresh : fresh_source (world Fixture.connected).
Proof.
  assert (E : entropy (world Fixture.connected) = numbered "tok")
    by (vm_compute; reflexivity).
  split.
  - intros i j H. rewrite E in H. now apply numbered_inj in H.
  - intros i. rewrite E. unfold numbered. simpl. discriminate.
Qed.

Lemma connected_wf : RefreshSpec.wf (refreshOf Fixture.connected).
Proof.
  assert (E : RefreshSpec.tokens (RefreshSessionStore.entries (refreshOf Fixture.connected))
              = ["tok1"]) by (vm_compute; reflexivity).
  split.
  - rewrite E. repeat constructor. simpl. tauto.
  - intros c Hc. rewrite E in Hc. destruct Hc as [<-|[]].
    exists 1%nat. split; vm_compute; reflexivity.
Qed.

Lemma refresh_replay_refused_witness :
  let g := Fixture.connected in
  let req := mkRequest ["rt="; "tok1"] Ended in
  let g1 := snd (onRefreshRequest Fixture.opts Fixture.parse req g) in
  (exists l p T',
     log g1 = log g ++ l ++ [WriteJson 200 jsonHeaders (TokenBody p) false] /\
     token p = RotatingTokenStore.token (current g1) /\
     tokenExpiresAt p = RotatingTokenStore.expiresAt (current g1) /\
     refreshToken p = Some T' /\ T' <> "tok1" /\ T' <> "") /\
  (forall evs,
     let g2 := run Fixture.opts Fixture.parse evs g1 in
     added g2 (snd (onRefreshRequest Fixture.opts Fixture.parse req g2))
     = [WriteJson 401 jsonHeaders (ErrorBody "unauthorized") false]).
Proof.
  refine (refresh_replay_refused Fixture.opts Fixture.parse
            (mkRequest ["rt="; "tok1"] Ended) Fixture.connected "tok1"
            connected_fresh connected_wf eq_refl _ _ _).
  - vm_compute. reflexivity.
  - vm_compute. reflexivity.
  - vm_compute. reflexivity.
Defined.

End GatewayLaws.
